(** * mahotas [_convolve.cpp]: filtering and wavelet kernels

    A shallow embedding of the kernels of [_convolve.cpp] and of the
    Python-facing wrappers that guard them, together with the properties
    the specification states about them.

    Conventions.
    - C [int] values are [Z]; the loops [for (int x = a; x != b; ++x)]
      are bounded iterations over [a .. b-1].
    - The wavelet kernels are only instantiated at floating-point element
      types.  Their arithmetic is idealised by exact rational arithmetic
      ([Q], compared with [==]): "up to floating tolerance" in the
      specification becomes exact equality here, or an explicit bound
      where the tabulated coefficients are rounded.
    - A row of an array is a region of memory addressed relative to the
      pointer [array.data(y)], with the element stride [step] kept
      explicit, so that [data[p*step]] reads as in the source. *)

From Stdlib Require Import ZArith QArith Qabs Qminmax Qfield List Lia Bool String
  Permutation.
Import ListNotations.

Set Implicit Arguments.

(** ** Loops *)

Module Loops.

(** [iter_from n x body s]: [n] iterations of [body], the counter
    starting at [x] and incremented after each one. *)
Fixpoint iter_from {S : Type} (n : nat) (x : Z) (body : Z -> S -> S) (s : S) : S :=
  match n with
  | O => s
  | Datatypes.S n' => iter_from n' (x + 1) body (body x s)
  end.

(** [for (int x = lo; x != hi; ++x) body], for [lo <= hi]. *)
Definition for_range {S : Type} (lo hi : Z) (body : Z -> S -> S) (s : S) : S :=
  iter_from (Z.to_nat (hi - lo)) lo body s.

End Loops.

(** ** Memory regions *)

Module Mem.

(** Memory relative to a base pointer: offset (in elements) to value. *)
Definition mem (V : Type) := Z -> V.

(** [p[k] = v] *)
Definition store {V : Type} (m : mem V) (k : Z) (v : V) : mem V :=
  fun k' => if Z.eqb k' k then v else m k'.

(** [p + off] *)
Definition shift {V : Type} (m : mem V) (off : Z) : mem V :=
  fun k => m (off + k)%Z.

(** The region whose first cells hold the elements of [l]; [d] elsewhere. *)
Definition of_list {V : Type} (d : V) (l : list V) : mem V :=
  fun k => if Z.ltb k 0 then d else nth (Z.to_nat k) l d.

(** The cells [0 .. n-1] of a region. *)
Definition to_list {V : Type} (m : mem V) (n : nat) : list V :=
  map (fun i => m (Z.of_nat i)) (seq 0 n).

(** A value-initialised [std::vector<T>] of a floating-point type: every
    slot is [T()]. *)
Definition zeros : mem Q := fun _ => 0%Q.

End Mem.

(** ** Daubechies coefficient tables *)

Module Daubechies.

(** The decimal literals of the source.  (The [float] constants the
    compiler stores are the single-precision values nearest to them; the
    exact model keeps the literals as written.) *)

Definition D2 : list Q :=
  [ 1; 1 ]%Q.

Definition D4 : list Q :=
  [ (6830127 # 10000000); (11830127 # 10000000); (3169873 # 10000000);
    (-1830127 # 10000000) ]%Q.

Definition D6 : list Q :=
  [ (47046721 # 100000000); (114111692 # 100000000); (650365 # 1000000);
    (-19093442 # 100000000); (-12083221 # 100000000); (498175 # 10000000) ]%Q.

Definition D8 : list Q :=
  [ (32580343 # 100000000); (101094572 # 100000000); (8922014 # 10000000);
    (-3957503 # 100000000); (-26450717 # 100000000); (436163 # 10000000);
    (465036 # 10000000); (-1498699 # 100000000) ]%Q.

Definition D10 : list Q :=
  [ (22641898 # 100000000); (85394354 # 100000000);
    (102432694 # 100000000); (19576696 # 100000000);
    (-34265671 # 100000000); (-4560113 # 100000000);
    (10970265 # 100000000); (-88268 # 10000000); (-1779187 # 100000000);
    (471743 # 100000000) ]%Q.

Definition D12 : list Q :=
  [ (15774243 # 100000000); (69950381 # 100000000);
    (106226376 # 100000000); (44583132 # 100000000); (-3199866 # 10000000);
    (-18351806 # 100000000); (13788809 # 100000000); (3892321 # 100000000);
    (-4466375 # 100000000); (783251152 # 1000000000000);
    (675606236 # 100000000000); (-152353381 # 100000000000) ]%Q.

Definition D14 : list Q :=
  [ (11009943 # 100000000); (56079128 # 100000000);
    (103114849 # 100000000); (66437248 # 100000000);
    (-20351382 # 100000000); (-31683501 # 100000000); (1008467 # 10000000);
    (11400345 # 100000000); (-5378245 # 100000000); (-2343994 # 100000000);
    (1774979 # 100000000); (607514995 # 1000000000000);
    (-254790472 # 100000000000); (500226853 # 1000000000000) ]%Q.

Definition D16 : list Q :=
  [ (7695562 # 100000000); (44246725 # 100000000); (95548615 # 100000000);
    (82781653 # 100000000); (-2238574 # 100000000);
    (-40165863 # 100000000); (668194092 # 1000000000000);
    (18207636 # 100000000); (-245639 # 10000000); (-6235021 # 100000000);
    (1977216 # 100000000); (1236884 # 100000000);
    (-688771926 # 100000000000); (-554004549 # 1000000000000);
    (955229711 # 1000000000000); (-166137261 # 1000000000000) ]%Q.

Definition D18 : list Q :=
  [ (5385035 # 100000000); (3448343 # 10000000); (85534906 # 100000000);
    (92954571 # 100000000); (18836955 # 100000000);
    (-41475176 # 100000000); (-13695355 # 100000000);
    (21006834 # 100000000); (43452675 # 1000000000);
    (-9564726 # 100000000); (354892813 # 1000000000000);
    (3162417 # 100000000); (-667962023 # 100000000000);
    (-605496058 # 100000000000); (261296728 # 100000000000);
    (325814671 # 1000000000000); (-356329759 # 1000000000000);
    (55645514 # 1000000000000) ]%Q.

Definition D20 : list Q :=
  [ (3771716 # 100000000); (26612218 # 100000000); (74557507 # 100000000);
    (97362811 # 100000000); (39763774 # 100000000); (-3533362 # 10000000);
    (-27710988 # 100000000); (18012745 # 100000000);
    (13160299 # 100000000); (-10096657 # 100000000);
    (-4165925 # 100000000); (4696981 # 100000000);
    (510043697 # 100000000000); (-15179 # 1000000);
    (197332536 # 100000000000); (281768659 # 100000000000);
    (-96994784 # 100000000000); (-164709006 # 1000000000000);
    (132354367 # 1000000000000); (-1875841 # 100000000000) ]%Q.

(** [dcoeffs(code)]: [None] is the [NULL] returned by the [default]
    branch, which also sets the Python error. *)
Definition dcoeffs (code : Z) : option (list Q) :=
  match code with
  | 0%Z => Some D2
  | 1%Z => Some D4
  | 2%Z => Some D6
  | 3%Z => Some D8
  | 4%Z => Some D10
  | 5%Z => Some D12
  | 6%Z => Some D14
  | 7%Z => Some D16
  | 8%Z => Some D18
  | 9%Z => Some D20
  | _ => None
  end.

End Daubechies.

(** ** Wavelet kernels *)

Module Wavelet.
Import Loops Mem.

(** The element type [T]: a floating-point type, idealised by [Q]. *)
Definition row : Type := mem Q.

Local Open Scope Z_scope.

(** [_access(data, N, p, step)] *)
Definition _access (data : row) (N p step : Z) : Q :=
  if p <? 0 then 0%Q
  else if p >=? N then 0%Q
  else data (p * step).

(** [_is_even(x)]: [(x & 1) == 0] *)
Definition _is_even (x : Z) : bool := Z.land x 1 =? 0.

(** The copy-back loop shared by the four kernels:
    [for (x = 0; x != N1; ++x) data[step*x] = buffer[x];] *)
Definition copy_back (N1 step : Z) (buffer data : row) : row :=
  for_range 0 N1 (fun x d => store d (step * x) (buffer x)) data.

(** One iteration of the row loop of [haar]: the state is the pair of the
    scratch buffer (which outlives the row) and the row's memory. *)
Definition haar_row (N1 step : Z) (st : row * row) : row * row :=
  let '(buffer, data) := st in
  let high_off := Z.quot N1 2 in
  let buffer' :=
    for_range 0 (Z.quot N1 2)
      (fun x buf =>
         let di := data (2 * x * step) in
         let di1 := data ((2 * x + 1) * step) in
         let buf1 := store buf x (di + di1)%Q in
         store buf1 (high_off + x) (di1 - di)%Q)
      buffer in
  (buffer', copy_back N1 step buffer' data).

(** One iteration of the row loop of [ihaar]. *)
Definition ihaar_row (N1 step : Z) (st : row * row) : row * row :=
  let '(buffer, data) := st in
  let low := data in
  let high := shift data (Z.quot (step * N1) 2) in
  let buffer' :=
    for_range 0 (Z.quot N1 2)
      (fun x buf =>
         let h := high (x * step) in
         let l := low (x * step) in
         let buf1 := store buf (2 * x) ((l - h) / 2)%Q in
         store buf1 (2 * x + 1) ((l + h) / 2)%Q)
      buffer in
  (buffer', copy_back N1 step buffer' data).

(** The coefficient array [const float coeffs[]] with its length. *)
Definition coeff (coeffs : list Q) (i : Z) : Q :=
  if i <? 0 then 0%Q else nth (Z.to_nat i) coeffs 0%Q.

(** The innermost loop of [wavelet]: the state is [(l, h, even)]. *)
Definition wavelet_taps (N1 step : Z) (coeffs : list Q) (ncoeffs : Z)
    (data : row) (x : Z) : Q * Q * bool :=
  for_range 0 ncoeffs
    (fun ci (st : Q * Q * bool) =>
       let '(l, h, even) := st in
       let val := _access data N1 (2 * x + ci) step in
       let cl := coeff coeffs (ncoeffs - ci - 1) in
       let ch := ((if even then -1 else 1) * coeff coeffs ci)%Q in
       ((l + cl * val)%Q, (h + ch * val)%Q, negb even))
    (0%Q, 0%Q, true).

(** One iteration of the row loop of [wavelet]. *)
Definition wavelet_row (coeffs : list Q) (ncoeffs : Z) (N1 step : Z)
    (st : row * row) : row * row :=
  let '(buffer, data) := st in
  let high_off := Z.quot N1 2 in
  let buffer' :=
    for_range 0 (Z.quot N1 2)
      (fun x buf =>
         let '(l, h, _) := wavelet_taps N1 step coeffs ncoeffs data x in
         let buf1 := store buf x l in
         store buf1 (high_off + x) h)
      buffer in
  (buffer', copy_back N1 step buffer' data).

(** The innermost loop of [iwavelet]: the state is [(l, h)]. *)
Definition iwavelet_taps (N1 step : Z) (coeffs : list Q) (ncoeffs : Z)
    (low high : row) (x : Z) : Q * Q :=
  for_range 0 ncoeffs
    (fun ci (st : Q * Q) =>
       let '(l, h) := st in
       let xmap2 := x + ci - ncoeffs + 2 in
       if negb (_is_even xmap2) then
         let xmap := Z.quot xmap2 2 in
         let cl := coeff coeffs ci in
         let ch := ((if _is_even ci then 1 else -1)
                    * coeff coeffs (ncoeffs - ci - 1))%Q in
         ((l + cl * _access low (Z.quot N1 2) xmap step)%Q,
          (h + ch * _access high (Z.quot N1 2) xmap step)%Q)
       else (l, h))
    (0%Q, 0%Q).

(** One iteration of the row loop of [iwavelet]. *)
Definition iwavelet_row (coeffs : list Q) (ncoeffs : Z) (N1 step : Z)
    (st : row * row) : row * row :=
  let '(buffer, data) := st in
  let low := data in
  let high := shift data (Z.quot (step * N1) 2) in
  let buffer' :=
    for_range 0 N1
      (fun x buf =>
         let '(l, h) := iwavelet_taps N1 step coeffs ncoeffs low high x in
         store buf x ((l + h) / 2)%Q)
      buffer in
  (buffer', copy_back N1 step buffer' data).

(** A 2-D array view: [dim1 = array.dim(1)], [stride1 = array.stride(1)],
    and one memory region per row ([array.data(y)], [y < array.dim(0)]).
    The regions are kept apart: what is stated of [kernel] concerns the
    elements of a row itself.  Module [Shared] has the row loop on the
    one memory of which the rows are windows. *)
Record array2 := mkArray2 {
  dim1 : Z;
  stride1 : Z;
  rows : list row
}.

(** The row loop [for (y = 0; y != N0; ++y)], threading the scratch
    buffer from one row to the next. *)
Fixpoint row_loop (f : row * row -> row * row) (buffer : row) (rs : list row)
    : list row :=
  match rs with
  | [] => []
  | data :: rs' =>
      let '(buffer', data') := f (buffer, data) in
      data' :: row_loop f buffer' rs'
  end.

Definition kernel (f : Z -> Z -> row * row -> row * row) (a : array2) : array2 :=
  mkArray2 (dim1 a) (stride1 a)
           (row_loop (f (dim1 a) (stride1 a)) zeros (rows a)).

Definition haar : array2 -> array2 := kernel haar_row.
Definition ihaar : array2 -> array2 := kernel ihaar_row.
Definition wavelet (coeffs : list Q) (ncoeffs : Z) : array2 -> array2 :=
  kernel (wavelet_row coeffs ncoeffs).
Definition iwavelet (coeffs : list Q) (ncoeffs : Z) : array2 -> array2 :=
  kernel (iwavelet_row coeffs ncoeffs).

(** Element [(y, x)] of a view. *)
Definition elem (a : array2) (y : nat) (x : Z) : Q :=
  nth y (rows a) zeros (stride1 a * x).

End Wavelet.

(** ** Neighbourhood filters *)

Module Filters.
Import Loops Mem.

Local Open Scope Z_scope.

(** [filter_iterator<T>] is declared in [_filters.h], which is not among
    the sources.  The kernels use three of its operations, and advance it
    in lock step with the iterator over the primary array
    ([fiter.iterate_both(iter)]), so that the pair of iterators is
    determined by the index [i] of the primary position in iteration
    order.  The type is taken as a parameter of the kernels:
    - [size]: [fiter.size()];
    - [retrieve i j]: the outcome of [fiter.retrieve(iter, j, val)] at
      position [i]: [Some val] when it returns [true], [None] otherwise;
    - [tap j]: [fiter[j]]. *)
Record filter_iterator (T : Type) := mkFilterIterator {
  size : Z;
  retrieve : Z -> Z -> option T;
  tap : Z -> T
}.

Section Convolve.

Variable T : Type.

(** [double], with the two conversions the kernel performs:
    [double(val)] (and the promotion of [fiter[j]] in the product), and
    [T(cur)]. *)
Variable double : Type.
Variable dzero : double.
Variables dadd dmul : double -> double -> double.
Variable to_double : T -> double.
Variable of_double : double -> T.

(** The inner loop of [convolve] at position [i]; the state is [cur]. *)
Definition convolve_acc (fiter : filter_iterator T) (i : Z) : double :=
  for_range 0 (size fiter)
    (fun j cur =>
       match retrieve fiter i j with
       | Some val => dadd cur (dmul (to_double val) (to_double (tap fiter j)))
       | None => cur
       end)
    dzero.

(** [convolve]: [N = array.size()], [out = result.data()]. *)
Definition convolve (N : Z) (fiter : filter_iterator T) (result : mem T)
    : mem T :=
  for_range 0 N
    (fun i out => store out i (of_double (convolve_acc fiter i)))
    result.

(** The terms [weight(j) * value(j)] of the valid taps at position [i],
    in tap order, and their sum from left to right, all in [double]. *)
Definition weighted_terms (fiter : filter_iterator T) (i : Z) : list double :=
  flat_map (fun j => match retrieve fiter i (Z.of_nat j) with
                     | Some val =>
                         [dmul (to_double val)
                               (to_double (tap fiter (Z.of_nat j)))]
                     | None => []
                     end)
           (seq 0 (Z.to_nat (size fiter))).

Definition double_sum (l : list double) : double := fold_left dadd l dzero.

End Convolve.

Section RankFilter.

(** The element type is an integer type; values are compared as
    integers. *)

(** [std::nth_element(first, nth, last)] on the scratch array, with
    [first = neighbours]: [nth_element m k n] is the array after the
    call with [nth = neighbours + k] and [last = neighbours + n]. *)
Variable nth_element : mem Z -> Z -> Z -> mem Z.

(** The contents of [new T[N2]] before any store: indeterminate. *)
Variable junk : mem Z.

(** The loop collecting the valid taps; the state is [(neighbours, n)]. *)
Definition collect (fiter : filter_iterator Z) (i : Z) (neighbours : mem Z)
    : mem Z * Z :=
  for_range 0 (size fiter)
    (fun j (st : mem Z * Z) =>
       let '(nb, n) := st in
       match retrieve fiter i j with
       | Some val => (store nb n val, n + 1)
       | None => (nb, n)
       end)
    (neighbours, 0).

(** [int(n * rank/float(N2))]: the quotient is computed in single
    precision and truncated.  For [n * rank + N2 < 2^24] the operands
    are exact and the rounded quotient cannot reach the next integer,
    so the result is the integer quotient. *)
Definition scaled_rank (n rank N2 : Z) : Z := Z.quot (n * rank) N2.

(** [rank_filter]: [N = res.size()], [rpos = res.data()]. *)
Definition rank_filter (N : Z) (fiter : filter_iterator Z) (rank : Z)
    (res : mem Z) : mem Z :=
  let N2 := size fiter in
  if (rank <? 0) || (rank >=? N2) then res
  else
    fst (for_range 0 N
           (fun i (st : mem Z * mem Z) =>
              let '(out, neighbours) := st in
              let '(nb, n) := collect fiter i neighbours in
              let currank :=
                if negb (n =? N2) then scaled_rank n rank N2 else rank in
              let nb' := nth_element nb currank n in
              (store out i (nb' rank), nb'))
           (res, junk)).

End RankFilter.

(** What the C++ standard promises of [std::nth_element]: the range
    [[0, n)] is permuted, the rest is untouched, and for [0 <= k < n] no
    element before position [k] is greater than, and no element after it
    is less than, the element at [k]. *)
Definition nth_element_conforms (nth_element : mem Z -> Z -> Z -> mem Z) : Prop :=
  forall (m : mem Z) (k n : Z),
    0 <= n ->
    (forall i, ~ (0 <= i < n) -> nth_element m k n i = m i) /\
    Permutation (to_list (nth_element m k n) (Z.to_nat n))
                (to_list m (Z.to_nat n)) /\
    (0 <= k < n ->
       forall i j, 0 <= i <= k -> k <= j < n ->
                   nth_element m k n i <= nth_element m k n j).

(** Insertion sort, and the element of rank [k] of a list of values: the
    one at index [k] once the values are in ascending order. *)
Fixpoint insert (x : Z) (l : list Z) : list Z :=
  match l with
  | [] => [x]
  | y :: l' => if x <=? y then x :: l else y :: insert x l'
  end.

Fixpoint isort (l : list Z) : list Z :=
  match l with
  | [] => []
  | x :: l' => insert x (isort l')
  end.

Definition element_of_rank (k : Z) (l : list Z) : Z :=
  nth (Z.to_nat k) (isort l) 0.

(** Ascending order, by positions. *)
Definition ascending (l : list Z) : Prop :=
  forall i j, (i <= j < List.length l)%nat -> nth i l 0 <= nth j l 0.

(** The number of elements of [l] that satisfy [p]. *)
Fixpoint count (p : Z -> bool) (l : list Z) : nat :=
  match l with
  | [] => O
  | x :: l' => ((if p x then 1 else 0) + count p l')%nat
  end.

(** An [nth_element] that sorts the whole range (as implementations do
    on short ranges). *)
Definition nth_element_sorting (m : mem Z) (k n : Z) : mem Z :=
  fun i =>
    if (0 <=? i) && (i <? n)
    then nth (Z.to_nat i) (isort (to_list m (Z.to_nat n))) 0
    else m i.

(** The valid tap values at position [i], in tap order. *)
Definition valid_taps {T : Type} (fiter : filter_iterator T) (i : Z) : list T :=
  flat_map (fun j => match retrieve fiter i (Z.of_nat j) with
                     | Some v => [v]
                     | None => []
                     end)
           (seq 0 (Z.to_nat (size fiter))).

Section TemplateMatch.

(** The arithmetic of the element type [T], as the kernel uses it. *)
Record arith (T : Type) := mkArith {
  tzero : T;
  tadd : T -> T -> T;
  tsub : T -> T -> T;
  tmul : T -> T -> T;
  tgt : T -> T -> bool
}.

Variable T : Type.
Variable A : arith T.

(** [(val > tj ? val - tj : tj - val)] *)
Definition delta (val tj : T) : T :=
  if tgt A val tj then tsub A val tj else tsub A tj val.

(** The inner loop of [template_match] at position [i]; the state is
    [diff2]. *)
Definition template_acc (fiter : filter_iterator T) (i : Z) : T :=
  for_range 0 (size fiter)
    (fun j diff2 =>
       match retrieve fiter i j with
       | Some val =>
           let tj := tap fiter j in
           let d := delta val tj in
           tadd A diff2 (tmul A d d)
       | None => diff2
       end)
    (tzero A).

(** [template_match]: [N = res.size()], [rpos = res.data()]. *)
Definition template_match (N : Z) (fiter : filter_iterator T) (res : mem T)
    : mem T :=
  for_range 0 N (fun i out => store out i (template_acc fiter i)) res.

End TemplateMatch.

(** Unsigned [w]-bit integers: values in [[0, 2^w)], arithmetic modulo
    [2^w]. *)
Definition wrap (w : Z) (x : Z) : Z := x mod 2 ^ w.

Definition unsigned (w : Z) : arith Z :=
  mkArith 0
          (fun a b => wrap w (a + b))
          (fun a b => wrap w (a - b))
          (fun a b => wrap w (a * b))
          (fun a b => a >? b).

(** [T(cur)] for an 8-bit unsigned [T] and [double] idealised by the
    rationals: the fraction is discarded. *)
Definition uint8_of_double (q : Q) : Z :=
  wrap 8 (Z.quot (Qnum q) (Zpos (Qden q))).

(** The squared differences [(value(j) - tap(j))^2] of the valid taps at
    position [i], as integers, and their sum. *)
Definition squared_differences (fiter : filter_iterator Z) (i : Z) : list Z :=
  flat_map (fun j => match retrieve fiter i (Z.of_nat j) with
                     | Some val => [(val - tap fiter (Z.of_nat j)) ^ 2]
                     | None => []
                     end)
           (seq 0 (Z.to_nat (size fiter))).

Definition sum_list (l : list Z) : Z := fold_left Z.add l 0.

(** Modelled from the spec: [_filters.h] is not among the sources.  The
    iterator of section 4.1 for a 1-D array [A] and a 1-D filter [F], in
    the mode in which a tap that falls outside the array is reported as
    not valid: tap [j] at position [i] addresses coordinate
    [i + j - size/2] when the filter is centred on the position, and
    [i + j] when its origin is anchored there. *)
Definition fiter_1d {T : Type} (centered : bool) (d : T) (A F : list T)
    : filter_iterator T :=
  let N2 := Z.of_nat (List.length F) in
  mkFilterIterator N2
    (fun i j =>
       let p := i + j - (if centered then Z.quot N2 2 else 0) in
       if (0 <=? p) && (p <? Z.of_nat (List.length A))
       then Some (nth (Z.to_nat p) A d) else None)
    (fun j => nth (Z.to_nat j) F d).

End Filters.

(** ** The Python-facing wrappers *)

Module Py.
Import Mem.

Local Open Scope Z_scope.

(** NumPy type numbers ([PyArray_TYPE]). *)
Inductive npy_type : Type :=
| NPY_BOOL | NPY_BYTE | NPY_UBYTE | NPY_SHORT | NPY_USHORT
| NPY_INT | NPY_UINT | NPY_LONG | NPY_ULONG
| NPY_FLOAT | NPY_DOUBLE
| NPY_OBJECT.

Definition is_integer_type (t : npy_type) : bool :=
  match t with
  | NPY_BOOL | NPY_BYTE | NPY_UBYTE | NPY_SHORT | NPY_USHORT
  | NPY_INT | NPY_UINT | NPY_LONG | NPY_ULONG => true
  | _ => false
  end.

Definition is_float_type (t : npy_type) : bool :=
  match t with
  | NPY_FLOAT | NPY_DOUBLE => true
  | _ => false
  end.

(** What a wrapper inspects of an array object, and its elements [C]. *)
Record PyArrayObject (C : Type) := mkPyArray {
  PyArray_NDIM : Z;
  PyArray_TYPE : npy_type;
  PyArray_ISCARRAY : bool;
  contents : C
}.

(** An argument parsed with the format [O]: any Python object;
    [PyArray_Check] tells the two cases apart. *)
Inductive PyObject (C : Type) : Type :=
| NotArray
| Array (a : PyArrayObject C).
Arguments NotArray {C}.

Definition newline : string := String (Ascii.ascii_of_nat 10) EmptyString.

Definition TypeErrorMsg : string :=
  ("Type not understood. This is caused by either a direct call to _convolve (which is dangerous: types are not checked!) or a bug in convolve.py."
   ++ newline)%string.

(** The Python error a wrapper leaves set when it returns [NULL]. *)
Inductive PyErr : Type :=
| RuntimeError (msg : string)
| DispatchError.

(** The kinds of error of section 7 of the specification, "reported to
    the caller as distinct, checkable error values". *)
Inductive error_kind : Type :=
| TypeMismatch
| InvalidArgument
| AllocationFailure.

(** The outcome of a call: the argument array handed back
    ([PyArray_Return(array)]), or [NULL] with an error set. *)
Inductive outcome : Type :=
| Returned
| Raised (e : PyErr).

(** Modelled from the spec: [numpypp/dispatch.hpp] is not among the
    sources.  The two dispatch macros run [HANDLE(type)] for the element
    type of the array.  Section 6: "Element type is one of a fixed set
    of integer and floating-point widths; behavior for any other type is
    a type error raised before computation"; its table gives the same
    input types, "any float/int type", for the operations that use
    [SAFE_SWITCH_ON_TYPES_OF] ([convolve], [rank_filter],
    [template_match]) and for those that use
    [SAFE_SWITCH_ON_FLOAT_TYPES_OF] (the wavelet wrappers).  Both macros
    are therefore taken to dispatch on the integer and the
    floating-point types.  [dispatch handled t k] runs [k] when the macro
    handles [t]. *)
Definition dispatch {S : Type} (handled : npy_type -> bool) (t : npy_type)
    (k : S -> S) (s : S) : S * outcome :=
  if handled t then (k s, Returned) else (s, Raised DispatchError).

Definition SAFE_SWITCH_ON_TYPES_OF {S : Type} :=
  @dispatch S (fun t => is_integer_type t || is_float_type t).

Definition SAFE_SWITCH_ON_FLOAT_TYPES_OF {S : Type} :=
  @dispatch S (fun t => is_integer_type t || is_float_type t).

Import Wavelet.

(** The same array object, its elements replaced. *)
Definition set_contents {C : Type} (array : PyArrayObject C) (c : C)
    : PyArrayObject C :=
  mkPyArray (PyArray_NDIM array) (PyArray_TYPE array)
            (PyArray_ISCARRAY array) c.

(** The kernel templates that the wavelet wrappers instantiate. *)
Inductive kernel_template : Type :=
| Haar
| IHaar
| Wavelet_ (coeffs : list Q) (ncoeffs : Z)
| IWavelet_ (coeffs : list Q) (ncoeffs : Z).

Section Wrappers.

(** [HANDLE(type)] instantiates the kernel at the element type of the
    array.  At a floating-point type it is the kernel of module
    [Wavelet], whose arithmetic is idealised by the rationals.  At an
    integer type the same loops run in the arithmetic of that type
    (wrapping sums, truncating division), which is not embedded here:
    [at_integer_type] stands for that instantiation. *)
Variable at_integer_type : kernel_template -> npy_type -> array2 -> array2.

Definition instantiate (k : kernel_template) (t : npy_type)
    : array2 -> array2 :=
  if is_float_type t then
    match k with
    | Haar => haar
    | IHaar => ihaar
    | Wavelet_ coeffs ncoeffs => wavelet coeffs ncoeffs
    | IWavelet_ coeffs ncoeffs => iwavelet coeffs ncoeffs
    end
  else at_integer_type k t.

(** A wrapper of a wavelet kernel maps the state of its argument before
    the call to the state after it and the outcome. *)
Definition in_place (k : kernel_template) (array : PyArrayObject array2)
    : PyObject array2 * outcome :=
  let '(c, r) := SAFE_SWITCH_ON_FLOAT_TYPES_OF (PyArray_TYPE array)
                   (instantiate k (PyArray_TYPE array)) (contents array) in
  (Array (set_contents array c), r).



(** [py_daubechies].  ([numpy::are_arrays], from [utils.hpp], checks
    [PyArray_Check] on each of its arguments.) *)
Definition py_daubechies (array : PyObject array2) (code : Z)
    : PyObject array2 * outcome :=
  match array with
  | NotArray => (array, Raised (RuntimeError TypeErrorMsg))
  | Array a =>
      if negb (PyArray_NDIM a =? 2)
      then (array, Raised (RuntimeError TypeErrorMsg))
      else
        let coeffs := Daubechies.dcoeffs code in
        let ncoeffs := 2 * (code + 1) in
        match coeffs with
        | None => (array, Raised (RuntimeError TypeErrorMsg))
        | Some c => in_place (Wavelet_ c ncoeffs) a
        end
  end.

(** [py_idaubechies] *)
Definition py_idaubechies (array : PyObject array2) (code : Z)
    : PyObject array2 * outcome :=
  match array with
  | NotArray => (array, Raised (RuntimeError TypeErrorMsg))
  | Array a =>
      if negb (PyArray_NDIM a =? 2)
      then (array, Raised (RuntimeError TypeErrorMsg))
      else
        let coeffs := Daubechies.dcoeffs code in
        let ncoeffs := 2 * (code + 1) in
        match coeffs with
        | None => (array, Raised (RuntimeError TypeErrorMsg))
        | Some c => in_place (IWavelet_ c ncoeffs) a
        end
  end.

End Wrappers.

End Py.

(** ** The recurrences as the specification writes them *)

Module WaveletSpec.
Import Mem Wavelet.

Local Open Scope Z_scope.

(** [sumQ n f]: the sum of [f ci] for [ci = 0 .. n-1]. *)
Fixpoint sumQ (n : nat) (f : Z -> Q) : Q :=
  match n with
  | O => 0%Q
  | S k => (sumQ k f + f (Z.of_nat k))%Q
  end.

(** Sample [p] of row [y]: zero before [0] and at or after [N1]. *)
Definition sample (a : array2) (y : nat) (p : Z) : Q :=
  if (p <? 0) || (p >=? dim1 a) then 0%Q else elem a y p.

(** An alternating sign whose value at [ci = 0] is [first]. *)
Definition alt_sign (first : Q) (ci : Z) : Q :=
  if Z.even ci then first else (- first)%Q.

(** [low[x] = sum_ci coeffs[ncoeffs-ci-1] * sample(2x+ci)] *)
Definition low_sum (coeffs : list Q) (ncoeffs : Z) (a : array2) (y : nat)
    (x : Z) : Q :=
  sumQ (Z.to_nat ncoeffs)
       (fun ci => coeff coeffs (ncoeffs - ci - 1) * sample a y (2 * x + ci))%Q.

(** [high[x] = sum_ci s(ci) * coeffs[ci] * sample(2x+ci)], for the
    alternating sign [s] that starts at [first]. *)
Definition high_sum (first : Q) (coeffs : list Q) (ncoeffs : Z) (a : array2)
    (y : nat) (x : Z) : Q :=
  sumQ (Z.to_nat ncoeffs)
       (fun ci => alt_sign first ci * coeff coeffs ci * sample a y (2 * x + ci))%Q.

(** The last sample of every row does not take part in the transform
    [k]: two arrays that agree on the first [N1 - 1] samples of row [y]
    are transformed into arrays that agree on row [y]. *)
Definition last_sample_unused (k : array2 -> array2) : Prop :=
  forall (a a' : array2) (y : nat),
    0 <= dim1 a -> Z.odd (dim1 a) = true -> stride1 a <> 0 ->
    dim1 a' = dim1 a -> stride1 a' = stride1 a ->
    List.length (rows a') = List.length (rows a) ->
    (y < List.length (rows a))%nat ->
    (forall x, 0 <= x < dim1 a - 1 -> elem a' y x = elem a y x) ->
    forall x, 0 <= x < dim1 a -> elem (k a') y x == elem (k a) y x.

(** The values the row loops store, by the loop that stores them. *)

Definition haar_low (step : Z) (data : row) (x : Z) : Q :=
  (data (2 * x * step)%Z + data ((2 * x + 1) * step)%Z)%Q.

Definition haar_high (step : Z) (data : row) (x : Z) : Q :=
  (data ((2 * x + 1) * step)%Z - data (2 * x * step)%Z)%Q.

Definition ihaar_even (N1 step : Z) (data : row) (x : Z) : Q :=
  ((data (x * step)%Z - data (Z.quot (step * N1) 2 + x * step)%Z) / 2)%Q.

Definition ihaar_odd (N1 step : Z) (data : row) (x : Z) : Q :=
  ((data (x * step)%Z + data (Z.quot (step * N1) 2 + x * step)%Z) / 2)%Q.

Definition wavelet_low (coeffs : list Q) (ncoeffs N1 step : Z) (data : row)
    (x : Z) : Q :=
  fst (fst (wavelet_taps N1 step coeffs ncoeffs data x)).

Definition wavelet_high (coeffs : list Q) (ncoeffs N1 step : Z) (data : row)
    (x : Z) : Q :=
  snd (fst (wavelet_taps N1 step coeffs ncoeffs data x)).

End WaveletSpec.

(** ** Linear forms, for the composition of the two Daubechies transforms *)

Module RoundTrip.
Import Mem Wavelet.

Local Open Scope Z_scope.

(** A linear form over samples: a list of terms [coefficient * g(index)]. *)
Definition lform : Type := list (Q * Z).

Fixpoint lin_eval (f : lform) (g : Z -> Q) : Q :=
  match f with
  | [] => 0%Q
  | (c, e) :: f' => (c * g e + lin_eval f' g)%Q
  end.

(** Collecting the terms of equal index. *)
Fixpoint add_term (c : Q) (e : Z) (f : lform) : lform :=
  match f with
  | [] => [(c, e)]
  | (c', e') :: f' =>
      if e =? e' then (Qred (c + c'), e') :: f'
      else (c', e') :: add_term c e f'
  end.

Fixpoint normalise (f : lform) : lform :=
  match f with
  | [] => []
  | (c, e) :: f' => add_term c e (normalise f')
  end.

(** The sum of the magnitudes of the coefficients. *)
Fixpoint abs_sum (f : lform) : Q :=
  match f with
  | [] => 0%Q
  | (c, _) :: f' => (Qabs c + abs_sum f')%Q
  end.

(** The tap indices [0 .. n-1]. *)
Definition range (n : Z) : list Z := map Z.of_nat (seq 0 (Z.to_nat n)).

(** The weights of the four inner sums: [cl] and [ch] of [wavelet], and
    [cl] and [ch] of [iwavelet]. *)
Definition fwd_low (coeffs : list Q) (n ci : Z) : Q := coeff coeffs (n - ci - 1).

Definition fwd_high (coeffs : list Q) (n ci : Z) : Q :=
  ((if Z.even ci then -1 else 1) * coeff coeffs ci)%Q.

Definition inv_low (coeffs : list Q) (n ci : Z) : Q := coeff coeffs ci.

Definition inv_high (coeffs : list Q) (n ci : Z) : Q :=
  ((if _is_even ci then 1 else -1) * coeff coeffs (n - ci - 1))%Q.

(** The forward sum at [x] over the taps [cis], as a form over the
    samples. *)
Definition fwd_form (w : Z -> Q) (x : Z) (cis : list Z) : lform :=
  map (fun ci => (w ci, 2 * x + ci)) cis.

(** The inverse sum at sample [p] over the taps [cjs], as a form over
    one half of the row. *)
Definition inv_form (n : Z) (w : Z -> Q) (p : Z) (cjs : list Z) : lform :=
  flat_map (fun cj =>
              if negb (_is_even (p + cj - n + 2))
              then [(w cj, Z.quot (p + cj - n + 2) 2)]
              else [])
           cjs.

(** The forward sum of inverse sums: tap [ci] of the forward transform
    at [x] meets tap [cj] of the inverse transform at sample [2x + ci];
    the term is indexed relative to [x]. *)
Definition pair_form (n : Z) (w1 w2 : Z -> Q) (ci : Z) (cjs : list Z) : lform :=
  flat_map (fun cj =>
              if negb (_is_even (ci + cj - n + 2))
              then [((w1 ci * w2 cj / 2)%Q, (ci + cj - n + 1) / 2)]
              else [])
           cjs.

Definition compose (n : Z) (w1 w2 : Z -> Q) (cis : list Z) : lform :=
  flat_map (fun ci => pair_form n w1 w2 ci (range n)) cis.

(** What an index relative to [x] reads in a half [A] of the row: the
    inverse transform halves the odd number [2m + 1] towards zero. *)
Definition half_index (m : Z) : Z := Z.quot (2 * m + 1) 2.

(** How far the composition is from the identity: the low output against
    the low input, and the high output against the high input. *)
Definition defect_low (coeffs : list Q) (n : Z) : Q :=
  (abs_sum (normalise ((-1, 0%Z) :: compose n (fwd_low coeffs n)
                                        (inv_low coeffs n) (range n)))
   + abs_sum (normalise (compose n (fwd_low coeffs n)
                                 (inv_high coeffs n) (range n))))%Q.

Definition defect_high (coeffs : list Q) (n : Z) : Q :=
  (abs_sum (normalise (compose n (fwd_high coeffs n)
                               (inv_low coeffs n) (range n)))
   + abs_sum (normalise ((-1, 0%Z) :: compose n (fwd_high coeffs n)
                                          (inv_high coeffs n) (range n))))%Q.

(** The defect of the table of order code [k]. *)
Definition round_trip_defect (k : Z) : Q :=
  match Daubechies.dcoeffs k with
  | Some c => Qred (Qmax (defect_low c (2 * (k + 1))) (defect_high c (2 * (k + 1))))
  | None => 0%Q
  end.

End RoundTrip.

(** ** The inverse recurrence, and combinations of arrays *)

Module InverseSpec.
Import Mem Wavelet WaveletSpec RoundTrip.

Local Open Scope Z_scope.

(** Entry [q] of the low half and of the high half of row [y], for an
    even row length: zero before [0] and at or after [N1/2]. *)
Definition low_half (a : array2) (y : nat) (q : Z) : Q :=
  if (q <? 0) || (q >=? Z.quot (dim1 a) 2) then 0%Q else elem a y q.

Definition high_half (a : array2) (y : nat) (q : Z) : Q :=
  if (q <? 0) || (q >=? Z.quot (dim1 a) 2) then 0%Q
  else elem a y (Z.quot (dim1 a) 2 + q).

(** The sum of one path of the inverse transform at sample [x]: the taps
    [ci] for which [x + ci - ncoeffs + 2] is odd, each reading the entry
    of the half at that number halved towards zero. *)
Definition inverse_sum (w half : Z -> Q) (ncoeffs x : Z) : Q :=
  sumQ (Z.to_nat ncoeffs)
       (fun ci =>
          if Z.odd (x + ci - ncoeffs + 2)
          then w ci * half (Z.quot (x + ci - ncoeffs + 2) 2)
          else 0)%Q.

(** The slots of the scratch buffer beyond the two halves stay zero. *)
Definition tail_zero (N1 : Z) (b : row) : Prop :=
  forall k, ~ (0 <= k < 2 * Z.quot N1 2) -> b k = 0%Q.

(** [alpha * a + b], element by element, with the shape of [a]. *)
Fixpoint combine_rows (alpha : Q) (ra rb : list row) : list row :=
  match ra, rb with
  | r :: ra', r' :: rb' =>
      (fun k => alpha * r k + r' k)%Q :: combine_rows alpha ra' rb'
  | _, _ => []
  end.

Definition axpy (alpha : Q) (a b : array2) : array2 :=
  mkArray2 (dim1 a) (stride1 a) (combine_rows alpha (rows a) (rows b)).

(** The inverse transform at sample [x] over the forward transform: tap
    [ci] of the inverse meets tap [cj] of the forward transform at the
    entry it reads; the term is indexed relative to [x].  Which taps
    [ci] contribute depends on the parity of [x]. *)
Definition rev_pair (coeffs : list Q) (n ci : Z) (cjs : list Z) : lform :=
  map (fun cj =>
         (((inv_low coeffs n ci * fwd_low coeffs n cj
            + inv_high coeffs n ci * fwd_high coeffs n cj) / 2)%Q,
          ci + cj - n + 1))
      cjs.

Definition rev_terms (coeffs : list Q) (n : Z) (x_odd : bool) (cis : list Z)
    : lform :=
  flat_map (fun ci =>
              if Bool.eqb (Z.odd ci) x_odd then []
              else rev_pair coeffs n ci (range n))
           cis.

Definition rev_form (coeffs : list Q) (n : Z) (x_odd : bool) : lform :=
  rev_terms coeffs n x_odd (range n).

Definition rev_defect (coeffs : list Q) (n : Z) (x_odd : bool) : Q :=
  abs_sum (normalise (((-1)%Q, 0) :: rev_form coeffs n x_odd)).

(** The defect of the table of order code [k] for the forward transform
    followed by the inverse one. *)
Definition reverse_round_trip_defect (k : Z) : Q :=
  match Daubechies.dcoeffs k with
  | Some c => Qred (Qmax (rev_defect c (2 * (k + 1)) false)
                         (rev_defect c (2 * (k + 1)) true))
  | None => 0%Q
  end.

(** The sum of the weights of one forward sum, and how far the table of
    order code [k] is from the two sums of an exact table: [2] for the
    low path and [0] for the high path. *)
Definition weight_sum (w : Z -> Q) (n : Z) : Q := sumQ (Z.to_nat n) w.

Definition constant_defect (k : Z) : Q :=
  match Daubechies.dcoeffs k with
  | Some c =>
      Qred (Qmax (Qabs (weight_sum (fwd_low c (2 * (k + 1))) (2 * (k + 1)) - 2))
                 (Qabs (weight_sum (fwd_high c (2 * (k + 1))) (2 * (k + 1)))))
  | None => 0%Q
  end.

(** A row of six equal elements. *)
Definition flat_array : array2 :=
  mkArray2 6 1 [of_list 0%Q [3; 3; 3; 3; 3; 3]%Q].

(** A row of three elements laid out with stride [2]: the elements are
    [1], [2] and [3], and the cells between them hold [9]. *)
Definition gapped_array : array2 :=
  mkArray2 3 2 [of_list 0%Q [1; 9; 2; 9; 3]%Q].

End InverseSpec.

(** ** The kernels on the memory that the rows share *)

Module Shared.
Import Loops Mem Wavelet.

Local Open Scope Z_scope.

(** The rows of an array are windows of one memory: [array.data(y)] is
    the address of the first element of row [y], and a row step reads
    and writes the memory relative to it.  ([data(int)] belongs to a
    version of [numpypp/array.hpp] that is not among the sources: the
    offset of row [y] from the start of the memory, in elements, is the
    parameter [row_offset].)  [kernel_shared f N0 N1 step row_offset m]
    is the row loop [for (y = 0; y != N0; ++y)] of the kernel whose row
    step is [f], on the memory [m]; the state of the loop is the scratch
    buffer and the memory. *)
Definition kernel_shared (f : Z -> Z -> row * row -> row * row)
    (N0 N1 step : Z) (row_offset : Z -> Z) (m : mem Q) : mem Q :=
  snd (for_range 0 N0
         (fun y (st : row * mem Q) =>
            let '(buffer, m) := st in
            let '(buffer', data') :=
              f N1 step (buffer, shift m (row_offset y)) in
            (buffer', fun c => data' (c - row_offset y)))
         (zeros, m)).

(** The memory of a 2 x 3 array in column-major order: the rows are
    [1, 2, 3] and [4, 5, 6], the stride along a row is [2] and row [y]
    starts at cell [y]. *)
Definition column_major_memory : mem Q := of_list 0%Q [1; 4; 2; 5; 3; 6]%Q.

(** The memory of two rows of two elements with stride [3]; row [y]
    starts at cell [6 * y], and the cells between the elements hold
    [7]. *)
Definition gapped_memory : mem Q :=
  of_list 0%Q [1; 7; 7; 2; 7; 7; 3; 7; 7; 4; 7; 7]%Q.

End Shared.

(** ** Sample inputs *)

Module Examples.
Import Mem Wavelet Filters.

Local Open Scope Z_scope.

(** Two rows of four elements, contiguous. *)
Definition example_array : array2 :=
  mkArray2 4 1 [of_list 0%Q [1; 2; 3; 4]%Q; of_list 0%Q [5; 6; 7; 8]%Q].

(** One row of three elements. *)
Definition odd_array : array2 := mkArray2 3 1 [of_list 0%Q [4; 5; 6]%Q].

(** A row of eight elements that is [1] at the last low index. *)
Definition impulse_array : array2 :=
  mkArray2 8 1 [of_list 0%Q [0; 0; 0; 1; 0; 0; 0; 0]%Q].

(** The example of the specification: [1,2,3,4,5] with the filter
    [1,1,1]; element type an 8-bit unsigned integer, [double] idealised
    by the rationals. *)
Definition example_fiter : filter_iterator Z :=
  fiter_1d true 0 [1; 2; 3; 4; 5] [1; 1; 1].

(** An array and a template of 8-bit values; the sum of the squared
    differences at position [1] exceeds [255]. *)
Definition match_fiter : filter_iterator Z :=
  fiter_1d false 0 [1; 200; 3] [3; 1; 250].

(** An array whose first window, cut by the border, holds [5, 7, 7]. *)
Definition edge_fiter : filter_iterator Z :=
  fiter_1d true 0 [5; 7; 7; 7; 7] [1; 1; 1; 1; 1].

(** A constant array of one element under a filter of three taps. *)
Definition constant_fiter : filter_iterator Z := fiter_1d true 0 [5] [1; 1; 1].

End Examples.

(** ** [numpypp/array.hpp]: positions and iterators *)

Module Numpy.
Import Loops Mem.

Local Open Scope Z_scope.

(** Conversions between the integer types, for a platform on which [int]
    and [unsigned] have 32 bits and [npy_intp] and [size_t] have 64: a
    value converted to [unsigned] or [size_t] is reduced modulo [2^32] or
    [2^64], and a value converted to [int] is reduced to the
    representative in [[-2^31, 2^31)]. *)
Definition to_int (x : Z) : Z := (x + 2 ^ 31) mod 2 ^ 32 - 2 ^ 31.
Definition to_unsigned (x : Z) : Z := x mod 2 ^ 32.
Definition to_size_t (x : Z) : Z := x mod 2 ^ 64.

(** [struct position]: [position_] has [NPY_MAXDIMS] slots, of which the
    first [nd_] are in use. *)
Record position := mkPosition {
  nd_ : Z;
  position_ : mem Z
}.

(** [position::operator ==]: [memcmp] over the first [this->nd_] slots. *)
Definition position_eq (this other : position) : bool :=
  forallb (fun i => position_ this (Z.of_nat i) =? position_ other (Z.of_nat i))
          (seq 0 (Z.to_nat (nd_ this))).

(** An [npy_intp] value: the representative in [[-2^63, 2^63)].  A sum
    or difference of two entries that leaves the range wraps around, as
    the two's complement arithmetic of the target does (the language
    leaves the overflow of a signed type undefined). *)
Definition to_intp (x : Z) : Z := (x + 2 ^ 63) mod 2 ^ 64 - 2 ^ 63.

(** [operator + (const position&, const position&)]: [None] when
    [assert(a.nd_ == b.nd_)] fails. *)
Definition position_add (a b : position) : option position :=
  if negb (nd_ a =? nd_ b) then None
  else
    Some (for_range 0 (nd_ a)
            (fun i res =>
               mkPosition (nd_ res)
                          (store (position_ res) i
                                 (to_intp (position_ res i + position_ b i))))
            a).

(** [operator - (const position&, const position&)]: [None] when
    [assert(a.nd_ == b.nd_)] fails. *)
Definition position_sub (a b : position) : option position :=
  if negb (nd_ a =? nd_ b) then None
  else
    Some (for_range 0 (nd_ a)
            (fun i res =>
               mkPosition (nd_ res)
                          (store (position_ res) i
                                 (to_intp (position_ res i - position_ b i))))
            a).

(** What the classes read of a [PyArrayObject]: [nd], [dimensions],
    [strides] (in bytes) and the address [data]. *)
Record ndarray := mkNdarray {
  nd : Z;
  dimensions : mem Z;
  strides : mem Z;
  data : Z
}.

(** NumPy's [PyArray_SIZE]: the product of the dimensions. *)
Definition PyArray_SIZE (a : ndarray) : Z :=
  for_range 0 (nd a) (fun i acc => acc * dimensions a i) 1.

(** NumPy's [PyArray_GetPtr]: the address of the element at the
    multi-index [ind]. *)
Definition PyArray_GetPtr (a : ndarray) (ind : mem Z) : Z :=
  for_range 0 (nd a) (fun i dptr => dptr + ind i * strides a i) (data a).

(** [iterator_base<BaseType>]; [data_] is an address in bytes, and
    [iter_position_] is the member [position_]. *)
Record iterator_base := mkIterator {
  data_ : Z;
  steps_ : mem Z;
  dimensions_ : mem Z;
  iter_position_ : position
}.

Section Iterator.

(** [sizeof(BaseType)] *)
Variable sizeof : Z.

(** The contents of the member arrays before the constructor stores into
    them: indeterminate. *)
Variables junk_steps junk_dimensions junk_position : mem Z.

(** [iterator_base(PyArrayObject* array)].  The state of the second loop
    is [(steps_, dimensions_, cummul)].  In
    [array->strides[nd-i-1]/sizeof(BaseType)-cummul] the stride is
    converted to [size_t], the division and the subtraction are those of
    [size_t], and the result is converted to [int]; the two updates of
    [cummul] are computed in [npy_intp] and converted to [unsigned]. *)
Definition iterator_base_new (array : ndarray) : iterator_base :=
  let nd := nd array in
  let pos := for_range 0 nd (fun i p => store p i 0) junk_position in
  let '(steps, dims, _) :=
    for_range 0 nd
      (fun i (st : mem Z * mem Z * Z) =>
         let '(steps, dims, cummul) := st in
         let dims := store dims i (to_int (dimensions array (nd - i - 1))) in
         let steps :=
           store steps i
                 (to_int (to_size_t
                            (to_size_t (strides array (nd - i - 1)) / sizeof
                             - cummul))) in
         let cummul := to_unsigned (cummul * dimensions array (nd - i - 1)) in
         let cummul :=
           to_unsigned (cummul + steps i * dimensions array (nd - i - 1)) in
         (steps, dims, cummul))
      (junk_steps, junk_dimensions, 0) in
  mkIterator (data array) steps dims (mkPosition nd pos).

(** The loop of [operator ++] from index [i] on; [fuel] counts the
    indices left.  The loop is left at the first index whose counter
    does not reach its dimension. *)
Fixpoint increment_from (fuel : nat) (i : Z) (it : iterator_base)
    : iterator_base :=
  match fuel with
  | O => it
  | S fuel' =>
      let p := iter_position_ it in
      let data1 := data_ it + sizeof * steps_ it i in
      let pos1 := store (position_ p) i (position_ p i + 1) in
      if negb (pos1 i =? dimensions_ it i)
      then mkIterator data1 (steps_ it) (dimensions_ it)
                      (mkPosition (nd_ p) pos1)
      else increment_from fuel' (i + 1)
             (mkIterator data1 (steps_ it) (dimensions_ it)
                         (mkPosition (nd_ p) (store pos1 i 0)))
  end.

(** [iterator_base::operator ++] *)
Definition increment (it : iterator_base) : iterator_base :=
  increment_from (Z.to_nat (nd_ (iter_position_ it))) 0 it.

(** [iterator_base::operator ==] *)
Definition iterator_eq (this other : iterator_base) : bool :=
  position_eq (iter_position_ this) (iter_position_ other).

(** [iterator_base::position()]: the first [nd_] slots in reverse
    order. *)
Definition iterator_position (it : iterator_base) : position :=
  let p := iter_position_ it in
  mkPosition (nd_ p)
             (fun i => if (0 <=? i) && (i <? nd_ p)
                       then position_ p (nd_ p - 1 - i)
                       else position_ p i).

(** [array_base::size], [ndims] and [dim]: each returns [unsigned]. *)
Definition size (a : ndarray) : Z := to_unsigned (PyArray_SIZE a).
Definition ndims (a : ndarray) : Z := to_unsigned (nd a).
Definition dim (a : ndarray) (i : Z) : Z := to_unsigned (dimensions a i).

(** [array_base::validposition]; [ndims() != pos.nd_] compares as
    [unsigned]. *)
Definition validposition (a : ndarray) (pos : position) : bool :=
  if negb (ndims a =? to_unsigned (nd_ pos)) then false
  else forallb (fun i => negb ((position_ pos (Z.of_nat i) <? 0)
                               || (position_ pos (Z.of_nat i) >=? dim a (Z.of_nat i))))
               (seq 0 (Z.to_nat (nd_ pos))).

(** [begin()] and [end()] of [array] and of [aligned_array]. *)
Definition begin (a : ndarray) : iterator_base := iterator_base_new a.

Definition end_ (a : ndarray) : iterator_base :=
  for_range 0 (size a) (fun _ res => increment res) (begin a).

(** The iterator after [k] increments from [begin()]. *)
Definition advance (a : ndarray) (k : Z) : iterator_base :=
  for_range 0 k (fun _ res => increment res) (begin a).

End Iterator.

(** The index of the multi-index [ind] in row-major order. *)
Definition ravel (a : ndarray) (ind : mem Z) : Z :=
  for_range 0 (nd a) (fun i acc => acc * dimensions a i + ind i) 0.

(** Sums and products over the slots [i, i + fuel) of the iterator, the
    slot [i] being the fastest: the counter value, the number of counter
    values, and the offset in elements for the element strides [e]. *)
Fixpoint value_from (D pos : mem Z) (fuel : nat) (i : Z) : Z :=
  match fuel with
  | O => 0
  | S fuel' => pos i + D i * value_from D pos fuel' (i + 1)
  end.

Fixpoint size_from (D : mem Z) (fuel : nat) (i : Z) : Z :=
  match fuel with
  | O => 1
  | S fuel' => D i * size_from D fuel' (i + 1)
  end.

Fixpoint offset_from (e pos : mem Z) (fuel : nat) (i : Z) : Z :=
  match fuel with
  | O => 0
  | S fuel' => pos i * e i + offset_from e pos fuel' (i + 1)
  end.

(** The extent of the slot before [i]: what the pointer has moved when
    that slot wraps around. *)
Definition extent (e D : mem Z) (i : Z) : Z :=
  if i =? 0 then 0 else e (i - 1) * D (i - 1).

(** Element strides for which the steps of an iterator are the
    differences that [operator ++] needs. *)
Fixpoint strides_of (steps D : mem Z) (k : nat) : Z :=
  match k with
  | O => steps 0
  | S k' => steps (Z.of_nat k) + strides_of steps D k' * D (Z.of_nat k')
  end.

(** An array that the iterator handles without truncation: the strides
    are whole numbers [e] of elements, the element size divides [2^32]
    (as the sizes 1, 2, 4, 8 and 16 of the numeric types do), and the
    dimensions and the steps between consecutive elements fit [int]. *)
Definition regular (sizeof : Z) (a : ndarray) (e : mem Z) : Prop :=
  0 < sizeof /\ (sizeof | 2 ^ 32) /\ 0 <= nd a
  /\ forall j, 0 <= j < nd a ->
       strides a j = sizeof * e j
       /\ 0 <= dimensions a j < 2 ^ 31
       /\ - 2 ^ 31
          <= e j - (if j =? nd a - 1 then 0 else e (j + 1) * dimensions a (j + 1))
          < 2 ^ 31.

(** Row-major layout without gaps: the last axis has stride one element,
    and every other axis the extent of the axis after it. *)
Definition c_contiguous (a : ndarray) (e : mem Z) : Prop :=
  forall j, 0 <= j < nd a ->
    e j = if j =? nd a - 1 then 1 else e (j + 1) * dimensions a (j + 1).

(** A 2 x 3 array of 8-byte elements in row-major order at address
    [1000], and its transpose as a view of the same memory. *)
Definition sample_ndarray : ndarray :=
  mkNdarray 2 (of_list 0 [2; 3]) (of_list 0 [24; 8]) 1000.

Definition sample_transposed : ndarray :=
  mkNdarray 2 (of_list 0 [3; 2]) (of_list 0 [8; 24]) 1000.

(** Two positions of two dimensions; the first entry of the first is
    the largest [npy_intp]. *)
Definition sample_position : position :=
  mkPosition 2 (of_list 0 [2 ^ 63 - 1; -5]).

Definition sample_offset : position := mkPosition 2 (of_list 0 [1; 7]).

End Numpy.

(** * Properties *)

(** ** Loops and memory *)

Module LoopFacts.
Import Loops.

(** Invariant rule for the loop. *)
Lemma iter_from_inv {S : Type} (P : Z -> S -> Prop) (body : Z -> S -> S) :
  forall (n : nat) (x : Z) (s : S),
    P x s ->
    (forall i t, (x <= i < x + Z.of_nat n)%Z -> P i t -> P (i + 1)%Z (body i t)) ->
    P (x + Z.of_nat n)%Z (iter_from n x body s).
Proof.
  induction n as [|n IH]; intros x s H0 Hstep.
  - simpl. replace (x + 0)%Z with x by lia. exact H0.
  - cbn [iter_from].
    replace (x + Z.of_nat (Datatypes.S n))%Z with ((x + 1) + Z.of_nat n)%Z by lia.
    apply IH.
    + apply Hstep; [lia | exact H0].
    + intros i t Hi. apply Hstep. lia.
Qed.

Lemma for_range_inv {S : Type} (P : Z -> S -> Prop) (body : Z -> S -> S)
    (lo hi : Z) (s : S) :
  (lo <= hi)%Z ->
  P lo s ->
  (forall i t, (lo <= i < hi)%Z -> P i t -> P (i + 1)%Z (body i t)) ->
  P hi (for_range lo hi body s).
Proof.
  intros Hle H0 Hstep. unfold for_range.
  replace hi with (lo + Z.of_nat (Z.to_nat (hi - lo)))%Z at 1 by lia.
  apply iter_from_inv; [exact H0|].
  intros i t Hi. apply Hstep. lia.
Qed.

(** A loop whose bounds are crossed does not run. *)
Lemma for_range_empty {S : Type} (body : Z -> S -> S) (lo hi : Z) (s : S) :
  (hi <= lo)%Z -> for_range lo hi body s = s.
Proof.
  intros H. unfold for_range.
  replace (Z.to_nat (hi - lo)) with O by lia. reflexivity.
Qed.

End LoopFacts.

Module MemFacts.
Import Loops Mem LoopFacts.

Local Open Scope Z_scope.

Lemma store_same {V : Type} (m : mem V) (k : Z) (v : V) : store m k v k = v.
Proof. unfold store. rewrite Z.eqb_refl. reflexivity. Qed.

Lemma store_other {V : Type} (m : mem V) (k k' : Z) (v : V) :
  k' <> k -> store m k v k' = m k'.
Proof.
  intros H. unfold store. destruct (Z.eqb_spec k' k); [contradiction|reflexivity].
Qed.

(** A loop that stores one value per index. *)
Lemma store_loop_at {V : Type} (g : Z -> V) (N : Z) (out : mem V) (i : Z) :
  0 <= i < N ->
  for_range 0 N (fun i o => store o i (g i)) out i = g i.
Proof.
  intros Hi.
  assert (Inv : (fun k (o : mem V) => forall x, 0 <= x < k -> o x = g x) N
                  (for_range 0 N (fun i o => store o i (g i)) out)).
  { apply (for_range_inv (fun k (o : mem V) => forall x, 0 <= x < k -> o x = g x)).
    - lia.
    - intros; lia.
    - intros k o Hk IH x Hx. destruct (Z.eq_dec x k) as [->|Hne].
      + apply store_same.
      + rewrite store_other by exact Hne. apply IH. lia. }
  apply Inv. exact Hi.
Qed.

(** Loops with pointwise equal bodies. *)
Lemma for_range_ext {S : Type} (body body' : Z -> S -> S) (lo hi : Z) (s : S) :
  (forall i t, body i t = body' i t) ->
  for_range lo hi body s = for_range lo hi body' s.
Proof.
  intros Hb. unfold for_range. generalize (Z.to_nat (hi - lo)) as n.
  intros n. revert lo s. induction n as [|n IH]; intros lo s; simpl;
    [reflexivity|]. rewrite Hb. apply IH.
Qed.

End MemFacts.

(** ** The row transforms *)

Module WaveletFacts.
Import Loops Mem Wavelet WaveletSpec LoopFacts MemFacts.

Local Open Scope Z_scope.

(** Stores into distinct cells: decide each read. *)
Ltac store_cases :=
  repeat match goal with
         | |- context [store _ ?k _ ?k'] =>
             first [ rewrite (@store_same _ _ k)
                   | rewrite (@store_other _ _ k k') by lia ]
         end.

(** Establish the invariant [P] of the loop in the goal, then use it at
    the exit. *)
Ltac loop_invariant P :=
  match goal with
  | |- context [for_range ?lo ?hi ?body ?s] =>
      let Inv := fresh "Inv" in
      assert (Inv : P hi (for_range lo hi body s));
      [ apply (for_range_inv P body) | ]
  end.

(** *** The copy-back loop *)

Lemma copy_back_spec (N1 step : Z) (buffer data : row) :
  0 <= N1 -> step <> 0 ->
  (forall x, 0 <= x < N1 -> copy_back N1 step buffer data (step * x) = buffer x)
  /\ (forall k, (forall x, 0 <= x < N1 -> k <> step * x) ->
                copy_back N1 step buffer data k = data k).
Proof.
  intros HN Hstep. unfold copy_back.
  apply (for_range_inv
           (fun i (d : row) =>
              (forall x, 0 <= x < i -> d (step * x) = buffer x)
              /\ (forall k, (forall x, 0 <= x < i -> k <> step * x) -> d k = data k)));
    [exact HN | split; [intros; lia | reflexivity] |].
  intros i d Hi [Hin Hout]. split.
  - intros x Hx. destruct (Z.eq_dec x i) as [->|Hne].
    + apply store_same.
    + rewrite store_other by nia. apply Hin. lia.
  - intros k Hk. rewrite store_other by (apply Hk; lia).
    apply Hout. intros x Hx. apply Hk. lia.
Qed.

Lemma copy_back_at (N1 step : Z) (buffer data : row) (x : Z) :
  0 <= N1 -> step <> 0 -> 0 <= x < N1 ->
  copy_back N1 step buffer data (step * x) = buffer x.
Proof. intros HN Hs Hx. apply copy_back_spec; assumption. Qed.

(** *** The row loop *)

Lemma row_loop_length (f : row * row -> row * row) :
  forall rs buffer, List.length (row_loop f buffer rs) = List.length rs.
Proof.
  induction rs as [|d rs IH]; intros buffer; simpl; [reflexivity|].
  destruct (f (buffer, d)) as [b' d']. simpl. now rewrite IH.
Qed.

(** Row [y] of the result is the transform of row [y] of the argument,
    run with the scratch buffer some earlier row left; [P] is any
    property of the buffer that the transform maintains. *)
Lemma row_loop_nth (f : row * row -> row * row) (P : row -> Prop) :
  (forall b d, P b -> P (fst (f (b, d)))) ->
  forall rs buffer y,
    P buffer ->
    (y < List.length rs)%nat ->
    exists b, P b /\ nth y (row_loop f buffer rs) zeros = snd (f (b, nth y rs zeros)).
Proof.
  intros HP. induction rs as [|d rs IH]; intros buffer y Hb Hy; simpl in Hy; [lia|].
  simpl. destruct (f (buffer, d)) as [b' d'] eqn:E.
  destruct y as [|y].
  - exists buffer. split; [exact Hb|]. simpl. now rewrite E.
  - simpl. apply IH; [|lia].
    specialize (HP buffer d Hb). now rewrite E in HP.
Qed.

Lemma rows_kernel (f : Z -> Z -> row * row -> row * row) (a : array2) :
  rows (kernel f a) = row_loop (f (dim1 a) (stride1 a)) zeros (rows a).
Proof. reflexivity. Qed.

Lemma elem_out_of_rows (a : array2) (y : nat) (x : Z) :
  (List.length (rows a) <= y)%nat -> elem a y x = 0%Q.
Proof. intros H. unfold elem. rewrite nth_overflow by exact H. reflexivity. Qed.

(** *** [haar] *)

(** The scratch buffer after the first loop of [haar]: the low half, the
    high half, and the slots the loop does not reach. *)
Lemma haar_buffer (N1 step : Z) (buffer data : row) :
  0 <= N1 ->
  let b := fst (haar_row N1 step (buffer, data)) in
  let H := Z.quot N1 2 in
  (forall x, 0 <= x < H -> b x = haar_low step data x)
  /\ (forall x, 0 <= x < H -> b (H + x) = haar_high step data x)
  /\ (forall k, ~ (0 <= k < 2 * H) -> b k = buffer k).
Proof.
  intros HN. cbn zeta. unfold haar_row. cbn [fst].
  assert (HH : 0 <= Z.quot N1 2) by (apply Z.quot_pos; lia).
  set (H := Z.quot N1 2) in *.
  loop_invariant
    (fun i (b : row) =>
       (forall x, 0 <= x < i -> b x = haar_low step data x)
       /\ (forall x, 0 <= x < i -> b (H + x) = haar_high step data x)
       /\ (forall k, ~ (0 <= k < i) -> ~ (H <= k < H + i) -> b k = buffer k)
       /\ 0 <= i <= H).
  - exact HH.
  - repeat split; intros; lia.
  - intros i b Hi (Hlo & Hhi & Hrest & _). repeat split; try lia.
    + intros x Hx. destruct (Z.eq_dec x i) as [->|Hne].
      * rewrite store_other by lia. rewrite store_same. reflexivity.
      * rewrite !store_other by lia. apply Hlo. lia.
    + intros x Hx. destruct (Z.eq_dec x i) as [->|Hne].
      * rewrite store_same. reflexivity.
      * rewrite !store_other by lia. apply Hhi. lia.
    + intros k Hk1 Hk2. rewrite !store_other by lia. apply Hrest; lia.
  - destruct Inv as (Hlo & Hhi & Hrest & _). repeat split; try assumption.
    intros k Hk. apply Hrest; lia.
Qed.

Lemma even_half (N1 : Z) :
  0 <= N1 -> Z.even N1 = true -> N1 = 2 * Z.quot N1 2 /\ 0 <= Z.quot N1 2.
Proof.
  intros HN He. rewrite Z.quot_div_nonneg by lia.
  apply Z.even_spec in He. destruct He as [h ->].
  replace (2 * h) with (h * 2) by lia. rewrite Z.div_mul by lia. lia.
Qed.

Lemma odd_half (N1 : Z) :
  0 <= N1 -> Z.odd N1 = true -> N1 = 2 * Z.quot N1 2 + 1 /\ 0 <= Z.quot N1 2.
Proof.
  intros HN Ho. rewrite Z.quot_div_nonneg by lia.
  apply Z.odd_spec in Ho. destruct Ho as [h ->].
  replace (2 * h + 1) with (1 + h * 2) by lia.
  rewrite Z.div_add by lia. change (1 / 2) with 0. lia.
Qed.

Lemma quot_half_nonneg (N1 : Z) : 0 <= N1 -> 0 <= Z.quot N1 2 /\ 2 * Z.quot N1 2 <= N1.
Proof.
  intros HN. rewrite Z.quot_div_nonneg by lia.
  pose proof (Z.mul_div_le N1 2 ltac:(lia)).
  pose proof (Z.div_pos N1 2 HN ltac:(lia)). lia.
Qed.

(** The row after [haar]: low half, then high half. *)
Lemma haar_row_low (N1 step : Z) (buffer data : row) (x : Z) :
  0 <= N1 -> step <> 0 -> 0 <= x < Z.quot N1 2 ->
  snd (haar_row N1 step (buffer, data)) (step * x) = haar_low step data x.
Proof.
  intros HN Hs Hx. pose proof (quot_half_nonneg HN) as [_ Hh].
  pose proof (haar_buffer step buffer data HN) as (Hlo & _ & _).
  cbn zeta in Hlo. unfold haar_row in *. cbn [fst snd] in *.
  rewrite copy_back_at by lia. apply Hlo. exact Hx.
Qed.

Lemma haar_row_high (N1 step : Z) (buffer data : row) (x : Z) :
  0 <= N1 -> step <> 0 -> 0 <= x < Z.quot N1 2 ->
  snd (haar_row N1 step (buffer, data)) (step * (Z.quot N1 2 + x))
  = haar_high step data x.
Proof.
  intros HN Hs Hx. pose proof (quot_half_nonneg HN) as [_ Hh].
  pose proof (haar_buffer step buffer data HN) as (_ & Hhi & _).
  cbn zeta in Hhi. unfold haar_row in *. cbn [fst snd] in *.
  rewrite copy_back_at by lia. apply Hhi. exact Hx.
Qed.

(** A slot of the scratch buffer that the first loop does not reach is
    copied back as the previous row left it. *)
Lemma haar_row_rest (N1 step : Z) (buffer data : row) (x : Z) :
  0 <= N1 -> step <> 0 -> 2 * Z.quot N1 2 <= x < N1 ->
  snd (haar_row N1 step (buffer, data)) (step * x) = buffer x.
Proof.
  intros HN Hs Hx. pose proof (quot_half_nonneg HN) as [Hh0 Hh].
  pose proof (haar_buffer step buffer data HN) as (_ & _ & Hrest).
  cbn zeta in Hrest. unfold haar_row in *. cbn [fst snd] in *.
  rewrite copy_back_at by lia. apply Hrest. lia.
Qed.

(** *** [ihaar] *)

Lemma ihaar_buffer (N1 step : Z) (buffer data : row) :
  0 <= N1 ->
  let b := fst (ihaar_row N1 step (buffer, data)) in
  let H := Z.quot N1 2 in
  (forall x, 0 <= x < H -> b (2 * x) = ihaar_even N1 step data x)
  /\ (forall x, 0 <= x < H -> b (2 * x + 1) = ihaar_odd N1 step data x)
  /\ (forall k, ~ (0 <= k < 2 * H) -> b k = buffer k).
Proof.
  intros HN. cbn zeta. unfold ihaar_row. cbn [fst].
  pose proof (quot_half_nonneg HN) as [HH _].
  set (H := Z.quot N1 2) in *.
  loop_invariant
    (fun i (b : row) =>
       (forall x, 0 <= x < i -> b (2 * x) = ihaar_even N1 step data x)
       /\ (forall x, 0 <= x < i -> b (2 * x + 1) = ihaar_odd N1 step data x)
       /\ (forall k, ~ (0 <= k < 2 * i) -> b k = buffer k)).
  - exact HH.
  - repeat split; intros; lia.
  - intros i b Hi (Hev & Hod & Hrest). repeat split.
    + intros x Hx. destruct (Z.eq_dec x i) as [->|Hne].
      * rewrite store_other by lia. rewrite store_same. reflexivity.
      * rewrite !store_other by lia. apply Hev. lia.
    + intros x Hx. destruct (Z.eq_dec x i) as [->|Hne].
      * rewrite store_same. reflexivity.
      * rewrite !store_other by lia. apply Hod. lia.
    + intros k Hk. rewrite !store_other by lia. apply Hrest; lia.
  - exact Inv.
Qed.

Lemma ihaar_row_even (N1 step : Z) (buffer data : row) (x : Z) :
  0 <= N1 -> step <> 0 -> 0 <= x < Z.quot N1 2 ->
  snd (ihaar_row N1 step (buffer, data)) (step * (2 * x))
  = ihaar_even N1 step data x.
Proof.
  intros HN Hs Hx. pose proof (quot_half_nonneg HN) as [_ Hh].
  pose proof (ihaar_buffer step buffer data HN) as (Hev & _ & _).
  cbn zeta in Hev. unfold ihaar_row in *. cbn [fst snd] in *.
  rewrite copy_back_at by lia. apply Hev. exact Hx.
Qed.

Lemma ihaar_row_odd (N1 step : Z) (buffer data : row) (x : Z) :
  0 <= N1 -> step <> 0 -> 0 <= x < Z.quot N1 2 ->
  snd (ihaar_row N1 step (buffer, data)) (step * (2 * x + 1))
  = ihaar_odd N1 step data x.
Proof.
  intros HN Hs Hx. pose proof (quot_half_nonneg HN) as [_ Hh].
  pose proof (ihaar_buffer step buffer data HN) as (_ & Hod & _).
  cbn zeta in Hod. unfold ihaar_row in *. cbn [fst snd] in *.
  rewrite copy_back_at by lia. apply Hod. exact Hx.
Qed.

(** *** Round trips on one row *)

Lemma haar_ihaar_row (N1 step : Z) (b1 b2 data : row) (x : Z) :
  0 <= N1 -> Z.even N1 = true -> step <> 0 -> 0 <= x < N1 ->
  snd (haar_row N1 step (b2, snd (ihaar_row N1 step (b1, data)))) (step * x)
  == data (step * x).
Proof.
  intros HN He Hs Hx. destruct (even_half HN He) as [HN1 HH].
  set (H := Z.quot N1 2) in *.
  assert (Hq : Z.quot (step * N1) 2 = step * H).
  { rewrite HN1. replace (step * (2 * H)) with (step * H * 2) by ring.
    apply Z.quot_mul. lia. }
  destruct (Z_lt_ge_dec x H) as [Hlt|Hge].
  - rewrite haar_row_low by (fold H; lia). unfold haar_low.
    replace (2 * x * step) with (step * (2 * x)) by ring.
    replace ((2 * x + 1) * step) with (step * (2 * x + 1)) by ring.
    rewrite ihaar_row_even, ihaar_row_odd by (fold H; lia).
    unfold ihaar_even, ihaar_odd.
    replace (x * step) with (step * x) by ring. field.
  - replace x with (H + (x - H)) by ring.
    rewrite haar_row_high by (fold H; lia). unfold haar_high.
    replace (2 * (x - H) * step) with (step * (2 * (x - H))) by ring.
    replace ((2 * (x - H) + 1) * step) with (step * (2 * (x - H) + 1)) by ring.
    rewrite ihaar_row_even, ihaar_row_odd by (fold H; lia).
    unfold ihaar_even, ihaar_odd. rewrite Hq.
    replace (step * H + (x - H) * step) with (step * (H + (x - H))) by ring.
    field.
Qed.

Lemma ihaar_haar_row (N1 step : Z) (b1 b2 data : row) (x : Z) :
  0 <= N1 -> Z.even N1 = true -> step <> 0 -> 0 <= x < N1 ->
  snd (ihaar_row N1 step (b2, snd (haar_row N1 step (b1, data)))) (step * x)
  == data (step * x).
Proof.
  intros HN He Hs Hx. destruct (even_half HN He) as [HN1 HH].
  set (H := Z.quot N1 2) in *.
  assert (Hq : Z.quot (step * N1) 2 = step * H).
  { rewrite HN1. replace (step * (2 * H)) with (step * H * 2) by ring.
    apply Z.quot_mul. lia. }
  assert (Hcase : exists h, 0 <= h < H /\ (x = 2 * h \/ x = 2 * h + 1)).
  { exists (x / 2).
    pose proof (Z.div_mod x 2 ltac:(lia)) as Hdm.
    pose proof (Z.mod_pos_bound x 2 ltac:(lia)) as Hm.
    split; [split; [apply Z.div_pos; lia | apply Z.div_lt_upper_bound; lia] | lia]. }
  destruct Hcase as (h & Hh & Hcase). clear Hx.
  destruct Hcase as [-> | ->].
  - rewrite ihaar_row_even by (fold H; lia). unfold ihaar_even. rewrite Hq.
    replace (h * step) with (step * h) by ring.
    replace (step * H + step * h) with (step * (H + h)) by ring.
    rewrite haar_row_low, haar_row_high by (fold H; lia).
    unfold haar_low, haar_high.
    replace (2 * h * step) with (step * (2 * h)) by ring. field.
  - rewrite ihaar_row_odd by (fold H; lia). unfold ihaar_odd. rewrite Hq.
    replace (h * step) with (step * h) by ring.
    replace (step * H + step * h) with (step * (H + h)) by ring.
    rewrite haar_row_low, haar_row_high by (fold H; lia).
    unfold haar_low, haar_high.
    replace ((2 * h + 1) * step) with (step * (2 * h + 1)) by ring. field.
Qed.

(** Row [y] of the result of a kernel. *)
Lemma kernel_row (f : Z -> Z -> row * row -> row * row) (P : row -> Prop)
    (a : array2) (y : nat) :
  P zeros ->
  (forall b d, P b -> P (fst (f (dim1 a) (stride1 a) (b, d)))) ->
  (y < List.length (rows a))%nat ->
  exists b, P b /\
    nth y (rows (kernel f a)) zeros
    = snd (f (dim1 a) (stride1 a) (b, nth y (rows a) zeros)).
Proof.
  intros H0 HP Hy. rewrite rows_kernel.
  apply row_loop_nth with (P := P); assumption.
Qed.

Lemma kernel_length (f : Z -> Z -> row * row -> row * row) (a : array2) :
  List.length (rows (kernel f a)) = List.length (rows a).
Proof. rewrite rows_kernel. apply row_loop_length. Qed.

(** *** [wavelet] *)

Lemma wavelet_buffer (coeffs : list Q) (ncoeffs N1 step : Z) (buffer data : row) :
  0 <= N1 ->
  let b := fst (wavelet_row coeffs ncoeffs N1 step (buffer, data)) in
  let H := Z.quot N1 2 in
  (forall x, 0 <= x < H -> b x = wavelet_low coeffs ncoeffs N1 step data x)
  /\ (forall x, 0 <= x < H ->
                b (H + x) = wavelet_high coeffs ncoeffs N1 step data x)
  /\ (forall k, ~ (0 <= k < 2 * H) -> b k = buffer k).
Proof.
  intros HN. cbn zeta. unfold wavelet_row. cbn [fst].
  pose proof (quot_half_nonneg HN) as [HH _].
  set (H := Z.quot N1 2) in *.
  loop_invariant
    (fun i (b : row) =>
       (forall x, 0 <= x < i -> b x = wavelet_low coeffs ncoeffs N1 step data x)
       /\ (forall x, 0 <= x < i ->
                     b (H + x) = wavelet_high coeffs ncoeffs N1 step data x)
       /\ (forall k, ~ (0 <= k < i) -> ~ (H <= k < H + i) -> b k = buffer k)
       /\ 0 <= i <= H).
  - exact HH.
  - repeat split; intros; lia.
  - intros i b Hi (Hlo & Hhi & Hrest & _).
    unfold wavelet_low, wavelet_high in *.
    destruct (wavelet_taps N1 step coeffs ncoeffs data i) as [[l h] e] eqn:E.
    repeat split; try lia.
    + intros x Hx. destruct (Z.eq_dec x i) as [->|Hne].
      * rewrite store_other by lia. rewrite store_same. now rewrite E.
      * rewrite !store_other by lia. apply Hlo. lia.
    + intros x Hx. destruct (Z.eq_dec x i) as [->|Hne].
      * rewrite store_same. now rewrite E.
      * rewrite !store_other by lia. apply Hhi. lia.
    + intros k Hk1 Hk2. rewrite !store_other by lia. apply Hrest; lia.
  - destruct Inv as (Hlo & Hhi & Hrest & _). repeat split; try assumption.
    intros k Hk. apply Hrest; lia.
Qed.

Lemma wavelet_row_low (coeffs : list Q) (ncoeffs N1 step : Z)
    (buffer data : row) (x : Z) :
  0 <= N1 -> step <> 0 -> 0 <= x < Z.quot N1 2 ->
  snd (wavelet_row coeffs ncoeffs N1 step (buffer, data)) (step * x)
  = wavelet_low coeffs ncoeffs N1 step data x.
Proof.
  intros HN Hs Hx. pose proof (quot_half_nonneg HN) as [_ Hh].
  pose proof (wavelet_buffer coeffs ncoeffs step buffer data HN) as (Hlo & _ & _).
  cbn zeta in Hlo. unfold wavelet_row in *. cbn [fst snd] in *.
  rewrite copy_back_at by lia. apply Hlo. exact Hx.
Qed.

Lemma wavelet_row_high (coeffs : list Q) (ncoeffs N1 step : Z)
    (buffer data : row) (x : Z) :
  0 <= N1 -> step <> 0 -> 0 <= x < Z.quot N1 2 ->
  snd (wavelet_row coeffs ncoeffs N1 step (buffer, data))
      (step * (Z.quot N1 2 + x))
  = wavelet_high coeffs ncoeffs N1 step data x.
Proof.
  intros HN Hs Hx. pose proof (quot_half_nonneg HN) as [_ Hh].
  pose proof (wavelet_buffer coeffs ncoeffs step buffer data HN) as (_ & Hhi & _).
  cbn zeta in Hhi. unfold wavelet_row in *. cbn [fst snd] in *.
  rewrite copy_back_at by lia. apply Hhi. exact Hx.
Qed.

Lemma wavelet_row_rest (coeffs : list Q) (ncoeffs N1 step : Z)
    (buffer data : row) (x : Z) :
  0 <= N1 -> step <> 0 -> 2 * Z.quot N1 2 <= x < N1 ->
  snd (wavelet_row coeffs ncoeffs N1 step (buffer, data)) (step * x) = buffer x.
Proof.
  intros HN Hs Hx. pose proof (quot_half_nonneg HN) as [Hh0 Hh].
  pose proof (wavelet_buffer coeffs ncoeffs step buffer data HN) as (_ & _ & Hrest).
  cbn zeta in Hrest. unfold wavelet_row in *. cbn [fst snd] in *.
  rewrite copy_back_at by lia. apply Hrest. lia.
Qed.

(** The innermost loop computes the two sums, and its flag follows the
    parity of the tap index. *)
Lemma wavelet_taps_sums (coeffs : list Q) (ncoeffs N1 step : Z) (data : row)
    (x : Z) :
  0 <= ncoeffs ->
  wavelet_taps N1 step coeffs ncoeffs data x
  = (sumQ (Z.to_nat ncoeffs)
          (fun ci => coeff coeffs (ncoeffs - ci - 1)
                     * _access data N1 (2 * x + ci) step)%Q,
     sumQ (Z.to_nat ncoeffs)
          (fun ci => (if Z.even ci then -1 else 1) * coeff coeffs ci
                     * _access data N1 (2 * x + ci) step)%Q,
     Z.even ncoeffs).
Proof.
  intros Hn. unfold wavelet_taps.
  loop_invariant
    (fun i (st : Q * Q * bool) =>
       st = (sumQ (Z.to_nat i)
               (fun ci => coeff coeffs (ncoeffs - ci - 1)
                          * _access data N1 (2 * x + ci) step)%Q,
             sumQ (Z.to_nat i)
               (fun ci => (if Z.even ci then -1 else 1) * coeff coeffs ci
                          * _access data N1 (2 * x + ci) step)%Q,
             Z.even i)
       /\ 0 <= i).
  - exact Hn.
  - split; [reflexivity | lia].
  - intros i st Hi [-> _]. split; [|lia].
    replace (Z.to_nat (i + 1)) with (S (Z.to_nat i)) by lia.
    cbn [sumQ]. rewrite Z2Nat.id by lia.
    replace (Z.even (i + 1)) with (negb (Z.even i))
      by (rewrite Z.add_1_r, Z.even_succ, <- Z.negb_even; reflexivity).
    reflexivity.
  - apply Inv.
Qed.

End WaveletFacts.

(** ** The composition of the two Daubechies transforms *)

Module RoundTripFacts.
Import Loops Mem Wavelet WaveletSpec RoundTrip LoopFacts MemFacts WaveletFacts.

Local Open Scope Z_scope.

(** *** Linear forms *)

Lemma lin_eval_app (f1 f2 : lform) (g : Z -> Q) :
  lin_eval (f1 ++ f2) g == lin_eval f1 g + lin_eval f2 g.
Proof.
  induction f1 as [|[c e] f1 IH]; cbn [lin_eval app]; [ring|]. rewrite IH. ring.
Qed.

Lemma lin_eval_ext (f : lform) (g g' : Z -> Q) :
  (forall e, g e == g' e) -> lin_eval f g == lin_eval f g'.
Proof.
  intros Hg. induction f as [|[c e] f IH]; cbn [lin_eval]; [reflexivity|].
  now rewrite IH, (Hg e).
Qed.

Lemma add_term_eval (c : Q) (e : Z) (f : lform) (g : Z -> Q) :
  lin_eval (add_term c e f) g == c * g e + lin_eval f g.
Proof.
  induction f as [|[c' e'] f IH]; cbn [add_term lin_eval]; [reflexivity|].
  destruct (Z.eqb_spec e e') as [->|Hne]; cbn [lin_eval].
  - rewrite (Qred_correct (c + c')). ring.
  - rewrite IH. ring.
Qed.

Lemma normalise_eval (f : lform) (g : Z -> Q) :
  lin_eval (normalise f) g == lin_eval f g.
Proof.
  induction f as [|[c e] f IH]; cbn [normalise lin_eval]; [reflexivity|].
  now rewrite add_term_eval, IH.
Qed.

Lemma abs_sum_nonneg (f : lform) : (0 <= abs_sum f)%Q.
Proof.
  induction f as [|[c e] f IH]; cbn [abs_sum]; [apply Qle_refl|].
  pose proof (Qabs_nonneg c) as Hc.
  replace 0%Q with (0 + 0)%Q by reflexivity. now apply Qplus_le_compat.
Qed.

Lemma lin_eval_bound (f : lform) (g : Z -> Q) (M : Q) :
  (forall e, Qabs (g e) <= M)%Q -> (Qabs (lin_eval f g) <= abs_sum f * M)%Q.
Proof.
  intros Hg. induction f as [|[c e] f IH]; cbn [lin_eval abs_sum].
  - rewrite Qmult_0_l. apply Qle_refl.
  - eapply Qle_trans; [apply Qabs_triangle|].
    rewrite Qmult_plus_distr_l. apply Qplus_le_compat; [|exact IH].
    rewrite Qabs_Qmult.
    rewrite (Qmult_comm (Qabs c) (Qabs (g e))), (Qmult_comm (Qabs c) M).
    apply Qmult_le_compat_r; [apply Hg | apply Qabs_nonneg].
Qed.

(** Two forms whose sum is the sample at index [0] of the first
    argument, up to their defect. *)
Lemma near_identity_left (f1 f2 : lform) (g1 g2 : Z -> Q) (M : Q) :
  (forall e, Qabs (g1 e) <= M)%Q -> (forall e, Qabs (g2 e) <= M)%Q ->
  (Qabs (lin_eval f1 g1 + lin_eval f2 g2 - g1 0%Z)
   <= (abs_sum (normalise ((-1, 0%Z) :: f1)) + abs_sum (normalise f2)) * M)%Q.
Proof.
  intros H1 H2.
  assert (E : (lin_eval f1 g1 + lin_eval f2 g2 - g1 0%Z
               == lin_eval (normalise ((-1, 0%Z) :: f1)) g1
                  + lin_eval (normalise f2) g2)%Q).
  { rewrite !normalise_eval. cbn [lin_eval]. ring. }
  rewrite E. eapply Qle_trans; [apply Qabs_triangle|].
  rewrite Qmult_plus_distr_l.
  apply Qplus_le_compat; apply lin_eval_bound; assumption.
Qed.

Lemma near_identity_right (f1 f2 : lform) (g1 g2 : Z -> Q) (M : Q) :
  (forall e, Qabs (g1 e) <= M)%Q -> (forall e, Qabs (g2 e) <= M)%Q ->
  (Qabs (lin_eval f1 g1 + lin_eval f2 g2 - g2 0%Z)
   <= (abs_sum (normalise f1) + abs_sum (normalise ((-1, 0%Z) :: f2))) * M)%Q.
Proof.
  intros H1 H2.
  assert (E : (lin_eval f1 g1 + lin_eval f2 g2 - g2 0%Z
               == lin_eval (normalise f1) g1
                  + lin_eval (normalise ((-1, 0%Z) :: f2)) g2)%Q).
  { rewrite !normalise_eval. cbn [lin_eval]. ring. }
  rewrite E. eapply Qle_trans; [apply Qabs_triangle|].
  rewrite Qmult_plus_distr_l.
  apply Qplus_le_compat; apply lin_eval_bound; assumption.
Qed.

(** *** Tap indices *)

Lemma range_succ (i : Z) : 0 <= i -> range (i + 1) = range i ++ [i].
Proof.
  intros Hi. unfold range.
  replace (Z.to_nat (i + 1)) with (S (Z.to_nat i)) by lia.
  rewrite seq_S, map_app. cbn [map Nat.add]. now rewrite Z2Nat.id by lia.
Qed.

Lemma range_in (n ci : Z) : In ci (range n) -> 0 <= ci < n.
Proof.
  unfold range. intros H. apply in_map_iff in H. destruct H as (j & <- & Hj).
  apply in_seq in Hj. lia.
Qed.

Lemma is_even_even (x : Z) : _is_even x = Z.even x.
Proof.
  unfold _is_even. change 1 with (Z.ones 1).
  rewrite Z.land_ones by lia. change (2 ^ 1) with 2.
  now rewrite <- Zeven_mod.
Qed.

(** *** The inner loops as linear forms *)

Lemma iwavelet_taps_forms (coeffs : list Q) (n N1 step : Z) (low high : row)
    (x : Z) :
  0 <= n ->
  fst (iwavelet_taps N1 step coeffs n low high x)
  == lin_eval (inv_form n (inv_low coeffs n) x (range n))
              (fun q => _access low (Z.quot N1 2) q step)
  /\ snd (iwavelet_taps N1 step coeffs n low high x)
     == lin_eval (inv_form n (inv_high coeffs n) x (range n))
                 (fun q => _access high (Z.quot N1 2) q step).
Proof.
  intros Hn. unfold iwavelet_taps.
  loop_invariant
    (fun i (st : Q * Q) =>
       (fst st == lin_eval (inv_form n (inv_low coeffs n) x (range i))
                           (fun q => _access low (Z.quot N1 2) q step)
        /\ snd st == lin_eval (inv_form n (inv_high coeffs n) x (range i))
                              (fun q => _access high (Z.quot N1 2) q step))
       /\ 0 <= i).
  - exact Hn.
  - split; [split; reflexivity | lia].
  - intros i [l h] Hi [[Hl Hh] Hi0]. cbn [fst snd] in Hl, Hh.
    split; [|lia]. rewrite range_succ by lia.
    unfold inv_form. rewrite !flat_map_app, !lin_eval_app.
    fold (inv_form n (inv_low coeffs n) x (range i)).
    fold (inv_form n (inv_high coeffs n) x (range i)).
    rewrite <- Hl, <- Hh. cbn [flat_map].
    destruct (negb (_is_even (x + i - n + 2)));
      cbn [fst snd app lin_eval]; unfold inv_low, inv_high; split; ring.
  - apply Inv.
Qed.

Lemma sumQ_form (w g : Z -> Q) (x : Z) (m : nat) :
  sumQ m (fun ci => w ci * g (2 * x + ci)%Z)%Q
  == lin_eval (fwd_form w x (map Z.of_nat (seq 0 m))) g.
Proof.
  induction m as [|m IH]; [reflexivity|].
  cbn [sumQ]. rewrite seq_S, map_app. unfold fwd_form in *.
  rewrite map_app, lin_eval_app, <- IH. cbn [map lin_eval Nat.add]. ring.
Qed.

Lemma wavelet_taps_forms (coeffs : list Q) (n N1 step : Z) (data : row) (x : Z) :
  0 <= n ->
  wavelet_low coeffs n N1 step data x
  == lin_eval (fwd_form (fwd_low coeffs n) x (range n))
              (fun p => _access data N1 p step)
  /\ wavelet_high coeffs n N1 step data x
     == lin_eval (fwd_form (fwd_high coeffs n) x (range n))
                 (fun p => _access data N1 p step).
Proof.
  intros Hn. unfold wavelet_low, wavelet_high.
  rewrite wavelet_taps_sums by exact Hn. cbn [fst snd]. unfold range. split.
  - apply (sumQ_form (fwd_low coeffs n) (fun p => _access data N1 p step)).
  - apply (sumQ_form (fwd_high coeffs n) (fun p => _access data N1 p step)).
Qed.

(** The row after [iwavelet]. *)
Lemma iwavelet_row_at (coeffs : list Q) (n N1 step : Z) (buffer data : row)
    (p : Z) :
  0 <= N1 -> step <> 0 -> 0 <= p < N1 ->
  snd (iwavelet_row coeffs n N1 step (buffer, data)) (step * p)
  = ((fst (iwavelet_taps N1 step coeffs n data
             (shift data (Z.quot (step * N1) 2)) p)
      + snd (iwavelet_taps N1 step coeffs n data
               (shift data (Z.quot (step * N1) 2)) p)) / 2)%Q.
Proof.
  intros HN Hs Hp. unfold iwavelet_row. cbn [snd].
  rewrite copy_back_at by assumption.
  rewrite (for_range_ext
             (fun x buf =>
                let '(l, h) := iwavelet_taps N1 step coeffs n data
                                 (shift data (Z.quot (step * N1) 2)) x in
                store buf x ((l + h) / 2)%Q)
             (fun x buf =>
                store buf x
                  ((fst (iwavelet_taps N1 step coeffs n data
                           (shift data (Z.quot (step * N1) 2)) x)
                    + snd (iwavelet_taps N1 step coeffs n data
                             (shift data (Z.quot (step * N1) 2)) x)) / 2)%Q)).
  - now rewrite (store_loop_at
                   (fun x => ((fst (iwavelet_taps N1 step coeffs n data
                                      (shift data (Z.quot (step * N1) 2)) x)
                               + snd (iwavelet_taps N1 step coeffs n data
                                        (shift data (Z.quot (step * N1) 2)) x))
                              / 2)%Q)) by exact Hp.
  - intros i t. now destruct (iwavelet_taps _ _ _ _ _ _ i).
Qed.

(** *** A forward tap over an inverse sum *)

Lemma odd_shift (x t : Z) :
  _is_even (2 * x + t) = _is_even t.
Proof.
  rewrite !is_even_even. rewrite Z.even_add, Z.even_mul. cbn.
  now destruct (Z.even t).
Qed.

Lemma odd_half_index (x t : Z) :
  _is_even t = false -> Z.quot (2 * x + t) 2 = half_index (x + (t - 1) / 2).
Proof.
  rewrite is_even_even. intros Ht. unfold half_index. f_equal.
  assert (Ho : Z.odd t = true) by (now rewrite <- Z.negb_even, Ht).
  apply Z.odd_spec in Ho. destruct Ho as [h ->].
  replace (2 * h + 1 - 1) with (h * 2) by ring. rewrite Z.div_mul by lia. ring.
Qed.

Lemma pair_form_eval (n : Z) (w1 w2 : Z -> Q) (A : Z -> Q) (x ci : Z)
    (cjs : list Z) :
  w1 ci * (lin_eval (inv_form n w2 (2 * x + ci) cjs) A / 2)
  == lin_eval (pair_form n w1 w2 ci cjs) (fun e => A (half_index (x + e))).
Proof.
  induction cjs as [|cj cjs IH].
  - cbn [inv_form pair_form flat_map lin_eval]. field.
  - unfold inv_form, pair_form in *. cbn [flat_map].
    rewrite !lin_eval_app, <- IH. clear IH.
    replace (2 * x + ci + cj - n + 2) with (2 * x + (ci + cj - n + 2)) by ring.
    rewrite odd_shift.
    destruct (_is_even (ci + cj - n + 2)) eqn:E; cbn [negb lin_eval].
    + field.
    + rewrite odd_half_index by exact E.
      replace (ci + cj - n + 2 - 1) with (ci + cj - n + 1) by ring. field.
Qed.

Lemma access_in_range (data : row) (N p step : Z) :
  0 <= p < N -> _access data N p step = data (p * step).
Proof.
  intros Hp. unfold _access.
  destruct (Z.ltb_spec p 0); [lia|]. destruct (Z.geb_spec p N); [lia|reflexivity].
Qed.

Lemma access_bound (data : row) (N step : Z) (M : Q) :
  (0 <= M)%Q ->
  (forall q, 0 <= q < N -> (Qabs (data (q * step)%Z) <= M)%Q) ->
  forall q, (Qabs (_access data N q step) <= M)%Q.
Proof.
  intros HM Hd q. unfold _access.
  destruct (Z.ltb_spec q 0); [exact HM|].
  destruct (Z.geb_spec q N); [exact HM|]. apply Hd. lia.
Qed.

Section Composition.

Variables (coeffs : list Q) (n N1 step : Z) (buffer data : row).
Hypothesis Hn : 0 <= n.
Hypothesis HN : 0 <= N1.
Hypothesis Hstep : step <> 0.

(** The two halves of the row that [iwavelet] reads. *)
Let AL : Z -> Q := fun q => _access data (Z.quot N1 2) q step.
Let AH : Z -> Q :=
  fun q => _access (shift data (Z.quot (step * N1) 2)) (Z.quot N1 2) q step.

(** The row that [iwavelet] leaves. *)
Let data1 : row := snd (iwavelet_row coeffs n N1 step (buffer, data)).

Lemma fwd_over_inv (w1 : Z -> Q) (x : Z) (cis : list Z) :
  (forall ci, In ci cis -> 0 <= 2 * x + ci < N1) ->
  lin_eval (fwd_form w1 x cis) (fun p => _access data1 N1 p step)
  == lin_eval (compose n w1 (inv_low coeffs n) cis)
              (fun e => AL (half_index (x + e)))
     + lin_eval (compose n w1 (inv_high coeffs n) cis)
                (fun e => AH (half_index (x + e))).
Proof.
  induction cis as [|ci cis IH]; intros Hin.
  - cbn [fwd_form map compose flat_map lin_eval]. ring.
  - unfold fwd_form, compose in *. cbn [map flat_map lin_eval].
    rewrite !lin_eval_app, IH by (intros c Hc; apply Hin; now right).
    clear IH.
    rewrite access_in_range by (apply Hin; now left).
    replace ((2 * x + ci) * step) with (step * (2 * x + ci)) by ring.
    unfold data1. rewrite iwavelet_row_at by (try assumption; apply Hin; now left).
    destruct (iwavelet_taps_forms coeffs N1 step data
                (shift data (Z.quot (step * N1) 2)) (2 * x + ci) Hn) as [El Eh].
    rewrite El, Eh.
    rewrite <- (pair_form_eval n w1 (inv_low coeffs n) AL x ci (range n)).
    rewrite <- (pair_form_eval n w1 (inv_high coeffs n) AH x ci (range n)).
    unfold AL, AH. field.
Qed.

End Composition.

Lemma half_index_nonneg (x : Z) : 0 <= x -> half_index (x + 0) = x.
Proof.
  intros Hx. unfold half_index. rewrite Z.add_0_r.
  rewrite Z.quot_div_nonneg by lia.
  replace (2 * x + 1) with (1 + x * 2) by ring.
  rewrite Z.div_add by lia. reflexivity.
Qed.

(** [wavelet] after [iwavelet] on one row, away from the end of each
    half: the result is within the defect of the coefficients, times the
    largest magnitude of the row. *)
Lemma wavelet_iwavelet_row (coeffs : list Q) (n N1 step : Z) (b1 b2 data : row)
    (x : Z) (M : Q) :
  0 < n -> 0 <= N1 -> Z.even N1 = true -> step <> 0 ->
  (forall p, 0 <= p < N1 -> (Qabs (data (step * p)%Z) <= M)%Q) ->
  0 <= x -> 2 * x + n <= N1 ->
  let data2 :=
    snd (wavelet_row coeffs n N1 step
           (b2, snd (iwavelet_row coeffs n N1 step (b1, data)))) in
  (Qabs (data2 (step * x)%Z - data (step * x)%Z) <= defect_low coeffs n * M)%Q
  /\ (Qabs (data2 (step * (Z.quot N1 2 + x))%Z
            - data (step * (Z.quot N1 2 + x))%Z)
      <= defect_high coeffs n * M)%Q.
Proof.
  intros Hn HN He Hs HM Hx Hxn. cbn zeta.
  destruct (even_half HN He) as [HN1 HH].
  set (H := Z.quot N1 2) in *.
  assert (Hq : Z.quot (step * N1) 2 = step * H).
  { rewrite HN1. replace (step * (2 * H)) with (step * H * 2) by ring.
    apply Z.quot_mul. lia. }
  assert (HM0 : (0 <= M)%Q).
  { eapply Qle_trans; [apply Qabs_nonneg | apply (HM x); lia]. }
  set (AL := fun q => _access data H q step).
  set (AH := fun q => _access (shift data (Z.quot (step * N1) 2)) H q step).
  assert (HAL : forall e, (Qabs (AL (half_index (x + e))) <= M)%Q).
  { intros e. apply access_bound; [exact HM0|]. intros q Hq0.
    replace (q * step) with (step * q) by ring. apply HM. lia. }
  assert (HAH : forall e, (Qabs (AH (half_index (x + e))) <= M)%Q).
  { intros e. apply access_bound; [exact HM0|]. intros q Hq0.
    unfold shift. rewrite Hq.
    replace (step * H + q * step) with (step * (H + q)) by ring. apply HM. lia. }
  assert (Hrange : forall ci, In ci (range n) -> 0 <= 2 * x + ci < N1).
  { intros ci Hci. apply range_in in Hci. lia. }
  assert (Hn0 : 0 <= n) by lia.
  destruct (wavelet_taps_forms coeffs N1 step
              (snd (iwavelet_row coeffs n N1 step (b1, data))) x
              Hn0) as [Elow Ehigh].
  pose proof (@fwd_over_inv coeffs n N1 step b1 data Hn0 HN Hs) as F.
  cbv zeta in F. fold H AL AH in F.
  split.
  - rewrite wavelet_row_low by (fold H; lia).
    rewrite Elow, (F (fwd_low coeffs n) x (range n) Hrange).
    assert (E0 : data (step * x) = AL (half_index (x + 0))).
    { rewrite half_index_nonneg by lia. unfold AL.
      rewrite access_in_range by lia. f_equal. ring. }
    rewrite E0. unfold defect_low.
    apply (near_identity_left _ _ (fun e => AL (half_index (x + e)))
             (fun e => AH (half_index (x + e)))); assumption.
  - rewrite wavelet_row_high by (fold H; lia).
    rewrite Ehigh, (F (fwd_high coeffs n) x (range n) Hrange).
    assert (E0 : data (step * (H + x)) = AH (half_index (x + 0))).
    { rewrite half_index_nonneg by lia. unfold AH.
      rewrite access_in_range by lia. unfold shift. rewrite Hq. f_equal. ring. }
    rewrite E0. unfold defect_high.
    apply (near_identity_right _ _ (fun e => AL (half_index (x + e)))
             (fun e => AH (half_index (x + e)))); assumption.
Qed.

(** *** The ten tables *)

Lemma dcoeffs_range (code : Z) (c : list Q) :
  Daubechies.dcoeffs code = Some c -> 0 <= code <= 9.
Proof.
  unfold Daubechies.dcoeffs. destruct code as [|p|p]; [lia| |discriminate].
  do 4 (try destruct p as [p|p|]); try discriminate; lia.
Qed.

Lemma round_trip_defect_low (k : Z) (c : list Q) :
  Daubechies.dcoeffs k = Some c ->
  (defect_low c (2 * (k + 1)) <= round_trip_defect k)%Q.
Proof.
  intros E. unfold round_trip_defect. rewrite E, Qred_correct.
  apply Q.le_max_l.
Qed.

Lemma round_trip_defect_high (k : Z) (c : list Q) :
  Daubechies.dcoeffs k = Some c ->
  (defect_high c (2 * (k + 1)) <= round_trip_defect k)%Q.
Proof.
  intros E. unfold round_trip_defect. rewrite E, Qred_correct.
  apply Q.le_max_r.
Qed.

Lemma round_trip_defect_small (k : Z) :
  (round_trip_defect k <= 2 # 1000000)%Q.
Proof.
  assert (Hc : 0 <= k <= 9 \/ Daubechies.dcoeffs k = None).
  { destruct (Daubechies.dcoeffs k) as [c|] eqn:E; [left|now right].
    now apply dcoeffs_range in E. }
  destruct Hc as [Hk|E].
  - assert (Hk' : k = 0 \/ k = 1 \/ k = 2 \/ k = 3 \/ k = 4 \/ k = 5 \/ k = 6
                  \/ k = 7 \/ k = 8 \/ k = 9) by lia.
    apply Qle_bool_iff.
    destruct Hk' as [->|[->|[->|[->|[->|[->|[->|[->|[->| ->]]]]]]]]];
      vm_compute; reflexivity.
  - unfold round_trip_defect. rewrite E. discriminate.
Qed.

Lemma round_trip_defect_haar : round_trip_defect 0 == 0.
Proof. vm_compute. reflexivity. Qed.

End RoundTripFacts.

(** ** The Haar and wavelet row transforms: claims *)

Module WaveletClaims.
Import Loops Mem Wavelet WaveletSpec Examples LoopFacts MemFacts WaveletFacts.

Local Open Scope Z_scope.

(** C4.  For every 2-D array with even row length, [haar] after [ihaar]
    and [ihaar] after [haar] restore every element of every row. *)
Theorem haar_ihaar_round_trip (a : array2) (y : nat) (x : Z) :
  0 <= dim1 a -> Z.even (dim1 a) = true -> stride1 a <> 0 ->
  0 <= x < dim1 a ->
  elem (haar (ihaar a)) y x == elem a y x
  /\ elem (ihaar (haar a)) y x == elem a y x.
Proof.
  intros HN He Hs Hx.
  destruct (Nat.lt_ge_cases y (List.length (rows a))) as [Hy|Hy].
  - assert (Hy1 : (y < List.length (rows (ihaar a)))%nat)
      by (unfold ihaar; now rewrite kernel_length).
    assert (Hy2 : (y < List.length (rows (haar a)))%nat)
      by (unfold haar; now rewrite kernel_length).
    split; unfold elem.
    + destruct (kernel_row haar_row (fun _ => True) (ihaar a) (y := y) I
                  (fun _ _ _ => I) Hy1) as (b2 & _ & E2).
      destruct (kernel_row ihaar_row (fun _ => True) a (y := y) I
                  (fun _ _ _ => I) Hy) as (b1 & _ & E1).
      unfold haar at 1. rewrite E2. unfold ihaar at 3. rewrite E1.
      cbn [stride1 dim1 ihaar haar kernel].
      apply haar_ihaar_row; assumption.
    + destruct (kernel_row ihaar_row (fun _ => True) (haar a) (y := y) I
                  (fun _ _ _ => I) Hy2) as (b2 & _ & E2).
      destruct (kernel_row haar_row (fun _ => True) a (y := y) I
                  (fun _ _ _ => I) Hy) as (b1 & _ & E1).
      unfold ihaar at 1. rewrite E2. unfold haar at 3. rewrite E1.
      cbn [stride1 dim1 ihaar haar kernel].
      apply ihaar_haar_row; assumption.
  - assert (L1 : List.length (rows (haar (ihaar a))) = List.length (rows a))
      by (unfold haar, ihaar; now rewrite !kernel_length).
    assert (L2 : List.length (rows (ihaar (haar a))) = List.length (rows a))
      by (unfold haar, ihaar; now rewrite !kernel_length).
    rewrite !elem_out_of_rows by lia. split; reflexivity.
Qed.

Lemma haar_ihaar_round_trip_witness :
  elem (haar (ihaar example_array)) 1 2 == elem example_array 1 2
  /\ elem (ihaar (haar example_array)) 1 2 == elem example_array 1 2.
Proof.
  apply (@haar_ihaar_round_trip example_array 1%nat 2);
    simpl; try reflexivity; lia.
Defined.

Lemma sumQ_ext (n : nat) (f g : Z -> Q) :
  (forall i, 0 <= i < Z.of_nat n -> f i == g i) -> sumQ n f == sumQ n g.
Proof.
  induction n as [|n IH]; intros Hfg; [reflexivity|].
  cbn [sumQ]. rewrite IH by (intros i Hi; apply Hfg; lia).
  rewrite (Hfg (Z.of_nat n)) by lia. reflexivity.
Qed.

Lemma access_sample (a : array2) (y : nat) (p : Z) :
  _access (nth y (rows a) zeros) (dim1 a) p (stride1 a) = sample a y p.
Proof.
  unfold _access, sample, elem.
  destruct (p <? 0); [reflexivity|].
  destruct (p >=? dim1 a); [reflexivity|]. cbn [orb].
  now rewrite Z.mul_comm.
Qed.

(** C2, as the code has it.  For every row and every coefficient vector,
    the forward transform computes
    [low[x] = sum_ci coeffs[ncoeffs-ci-1] * sample(2x+ci)] and
    [high[x] = sum_ci s(ci) * coeffs[ci] * sample(2x+ci)], where the
    alternating sign [s] is negative at [ci = 0], and a sample index
    below [0] or at or after [N1] contributes zero to both sums. *)
Theorem wavelet_recurrence
    (coeffs : list Q) (ncoeffs : Z) (a : array2) (y : nat) (x : Z) :
  0 <= ncoeffs -> 0 <= dim1 a -> stride1 a <> 0 ->
  (y < List.length (rows a))%nat ->
  0 <= x < Z.quot (dim1 a) 2 ->
  elem (wavelet coeffs ncoeffs a) y x == low_sum coeffs ncoeffs a y x
  /\ elem (wavelet coeffs ncoeffs a) y (Z.quot (dim1 a) 2 + x)
     == high_sum (-1) coeffs ncoeffs a y x
  /\ (forall p, p < 0 \/ dim1 a <= p ->
        _access (nth y (rows a) zeros) (dim1 a) p (stride1 a) = 0%Q).
Proof.
  intros Hn HN Hs Hy Hx.
  destruct (kernel_row (wavelet_row coeffs ncoeffs) (fun _ => True) a (y := y) I
              (fun _ _ _ => I) Hy) as (b & _ & E).
  split; [|split].
  - unfold elem, wavelet. rewrite E. cbn [stride1 kernel].
    rewrite wavelet_row_low by assumption.
    unfold wavelet_low. rewrite wavelet_taps_sums by exact Hn. cbn [fst].
    unfold low_sum. apply sumQ_ext. intros ci _.
    now rewrite access_sample.
  - unfold elem, wavelet. rewrite E. cbn [stride1 kernel].
    rewrite wavelet_row_high by assumption.
    unfold wavelet_high. rewrite wavelet_taps_sums by exact Hn. cbn [fst snd].
    unfold high_sum. apply sumQ_ext. intros ci _.
    rewrite access_sample. unfold alt_sign.
    destruct (Z.even ci); reflexivity.
  - intros p Hp. rewrite access_sample. unfold sample.
    destruct (Z.ltb_spec p 0); [reflexivity|].
    destruct (Z.geb_spec p (dim1 a)); [reflexivity|lia].
Qed.

Lemma wavelet_recurrence_witness :
  elem (wavelet Daubechies.D4 4 example_array) 1 0
  == low_sum Daubechies.D4 4 example_array 1 0
  /\ elem (wavelet Daubechies.D4 4 example_array) 1 (Z.quot 4 2 + 0)
     == high_sum (-1) Daubechies.D4 4 example_array 1 0
  /\ (forall p, p < 0 \/ 4 <= p ->
        _access (nth 1 (rows example_array) zeros) 4 p 1 = 0%Q).
Proof.
  apply (@wavelet_recurrence Daubechies.D4 4 example_array 1%nat 0).
  - lia.
  - simpl; lia.
  - simpl; lia.
  - simpl; lia.
  - change (Z.quot (dim1 example_array) 2) with 2. lia.
Defined.

(** C2, as stated, fails: on the row [1, 0] with the coefficients
    [{1, 1}], [high[0]] is [-1], and the sum whose sign starts positive is
    [1]. *)
Lemma wavelet_high_sign_not_positive :
  let a := mkArray2 2 1 [of_list 0%Q [1; 0]%Q] in
  ~ (elem (wavelet Daubechies.D2 2 a) 0 (Z.quot 2 2 + 0)
     == high_sum 1 Daubechies.D2 2 a 0 0).
Proof.
  cbn zeta. intros H. vm_compute in H. discriminate H.
Qed.

(** The slot [N1 - 1] of the scratch buffer stays as [resize] left it
    when [N1] is odd. *)
Lemma haar_keeps_last_slot (N1 step : Z) (b d : row) :
  0 <= N1 -> Z.odd N1 = true ->
  b (N1 - 1) = 0%Q -> fst (haar_row N1 step (b, d)) (N1 - 1) = 0%Q.
Proof.
  intros HN Ho Hb. destruct (odd_half HN Ho) as [HN1 _].
  pose proof (haar_buffer step b d HN) as (_ & _ & Hrest). cbn zeta in Hrest.
  rewrite Hrest by lia. exact Hb.
Qed.

Lemma wavelet_keeps_last_slot (coeffs : list Q) (ncoeffs N1 step : Z) (b d : row) :
  0 <= N1 -> Z.odd N1 = true ->
  b (N1 - 1) = 0%Q ->
  fst (wavelet_row coeffs ncoeffs N1 step (b, d)) (N1 - 1) = 0%Q.
Proof.
  intros HN Ho Hb. destruct (odd_half HN Ho) as [HN1 _].
  pose proof (wavelet_buffer coeffs ncoeffs step b d HN) as (_ & _ & Hrest).
  cbn zeta in Hrest. rewrite Hrest by lia. exact Hb.
Qed.

Lemma haar_last_sample_unused : last_sample_unused haar.
Proof.
  intros a a' y HN Ho Hs Hd Hst Hlen Hy Hagree x Hx.
  destruct (odd_half HN Ho) as [HN1 HH].
  assert (Hy' : (y < List.length (rows a'))%nat) by lia.
  destruct (kernel_row haar_row (fun b : row => b (dim1 a - 1) = 0%Q) a (y := y)
              eq_refl (fun b d => @haar_keeps_last_slot _ _ b d HN Ho) Hy)
    as (b & Hb & E).
  destruct (kernel_row haar_row (fun b : row => b (dim1 a - 1) = 0%Q) a' (y := y)
              eq_refl
              ltac:(rewrite Hd; intros b0 d0; apply haar_keeps_last_slot; assumption)
              Hy')
    as (b' & Hb' & E').
  unfold elem in *. unfold haar. rewrite E, E'. cbn [stride1 kernel].
  rewrite Hst, Hd in *. clear E E'.
  set (d := nth y (rows a) zeros) in *. set (d' := nth y (rows a') zeros) in *.
  set (H := Z.quot (dim1 a) 2) in *.
  assert (Hlow : forall x0, 0 <= x0 < H ->
                   haar_low (stride1 a) d' x0 = haar_low (stride1 a) d x0
                   /\ haar_high (stride1 a) d' x0 = haar_high (stride1 a) d x0).
  { intros x0 Hx0. unfold haar_low, haar_high.
    replace (2 * x0 * stride1 a) with (stride1 a * (2 * x0)) by ring.
    replace ((2 * x0 + 1) * stride1 a) with (stride1 a * (2 * x0 + 1)) by ring.
    rewrite !Hagree by lia. split; reflexivity. }
  destruct (Z_lt_ge_dec x H) as [Hlt|Hge].
  - rewrite !haar_row_low by (fold H; lia). now rewrite (proj1 (Hlow x ltac:(lia))).
  - destruct (Z_lt_ge_dec x (2 * H)) as [Hlt2|Hge2].
    + replace x with (H + (x - H)) by ring.
      rewrite !haar_row_high by (fold H; lia).
      now rewrite (proj2 (Hlow (x - H) ltac:(lia))).
    + rewrite !haar_row_rest by (fold H; lia).
      replace x with (dim1 a - 1) by lia. now rewrite Hb, Hb'.
Qed.

(** C10, as the code has it.  For every 2-D array whose row length [N1]
    is odd, [haar] and [wavelet] write zero, the value-initialised slot
    of the scratch buffer, into the last element of every row; and in
    [haar] only the first [N1 - 1] samples of a row take part. *)
Theorem odd_row_length_last_element
    (coeffs : list Q) (ncoeffs : Z) (a : array2) (y : nat) :
  0 <= dim1 a -> Z.odd (dim1 a) = true -> stride1 a <> 0 ->
  (y < List.length (rows a))%nat ->
  elem (haar a) y (dim1 a - 1) = 0%Q
  /\ elem (wavelet coeffs ncoeffs a) y (dim1 a - 1) = 0%Q
  /\ last_sample_unused haar.
Proof.
  intros HN Ho Hs Hy. destruct (odd_half HN Ho) as [HN1 HH].
  split; [|split; [|exact haar_last_sample_unused]].
  - destruct (kernel_row haar_row (fun b : row => b (dim1 a - 1) = 0%Q) a (y := y)
                eq_refl (fun b d => @haar_keeps_last_slot _ _ b d HN Ho) Hy)
      as (b & Hb & E).
    unfold elem, haar. rewrite E. cbn [stride1 kernel].
    rewrite haar_row_rest by lia. exact Hb.
  - destruct (kernel_row (wavelet_row coeffs ncoeffs)
                (fun b : row => b (dim1 a - 1) = 0%Q) a (y := y) eq_refl
                (fun b d => @wavelet_keeps_last_slot coeffs ncoeffs _ _ b d HN Ho) Hy)
      as (b & Hb & E).
    unfold elem, wavelet. rewrite E. cbn [stride1 kernel].
    rewrite wavelet_row_rest by lia. exact Hb.
Qed.

Lemma odd_row_length_last_element_witness :
  elem (haar odd_array) 0 (3 - 1) = 0%Q
  /\ elem (wavelet Daubechies.D4 4 odd_array) 0 (3 - 1) = 0%Q
  /\ last_sample_unused haar.
Proof.
  apply (@odd_row_length_last_element Daubechies.D4 4 odd_array 0%nat);
    simpl; try reflexivity; lia.
Defined.

(** C10, as stated, fails for [wavelet]: with four coefficients and a row
    of three samples, the sum for [low[0]] reads sample [2], the last
    one. *)
Lemma wavelet_reads_last_sample :
  ~ last_sample_unused (wavelet Daubechies.D4 4).
Proof.
  intros H.
  specialize (H (mkArray2 3 1 [of_list 0%Q [0; 0; 0]%Q])
                (mkArray2 3 1 [of_list 0%Q [0; 0; 1]%Q]) 0%nat).
  cbn [dim1 stride1 rows] in H.
  assert (Hagree : forall x, 0 <= x < 3 - 1 ->
            elem (mkArray2 3 1 [of_list 0%Q [0; 0; 1]%Q]) 0 x
            = elem (mkArray2 3 1 [of_list 0%Q [0; 0; 0]%Q]) 0 x).
  { intros x Hx. assert (Hc : x = 0 \/ x = 1) by lia.
    destruct Hc as [-> | ->]; reflexivity. }
  specialize (H ltac:(lia) eq_refl ltac:(lia) eq_refl eq_refl eq_refl
                ltac:(simpl; lia) Hagree 0 ltac:(lia)).
  vm_compute in H. discriminate H.
Qed.

(** C3, as the code has it.  For every order code [k] in [0 .. 9] and
    every 2-D array with even row length, the inverse Daubechies
    transform followed by the forward one restores the elements of each
    half of a row except its last [k]: the low element [x] and the high
    element [N1/2 + x] for [x < N1/2 - k], up to the defect of the
    coefficient table times the largest magnitude [M] of the row.  The
    defect is at most [2e-6], and zero for [k = 0], where every element
    is restored. *)
Theorem daubechies_round_trip_interior
    (k : Z) (c : list Q) (a : array2) (y : nat) (x : Z) (M : Q) :
  Daubechies.dcoeffs k = Some c ->
  0 <= dim1 a -> Z.even (dim1 a) = true -> stride1 a <> 0 ->
  (y < List.length (rows a))%nat ->
  (forall p, 0 <= p < dim1 a -> (Qabs (elem a y p) <= M)%Q) ->
  0 <= x < Z.quot (dim1 a) 2 - k ->
  let r := wavelet c (2 * (k + 1)) (iwavelet c (2 * (k + 1)) a) in
  (Qabs (elem r y x - elem a y x) <= RoundTrip.round_trip_defect k * M)%Q
  /\ (Qabs (elem r y (Z.quot (dim1 a) 2 + x) - elem a y (Z.quot (dim1 a) 2 + x))
      <= RoundTrip.round_trip_defect k * M)%Q
  /\ (RoundTrip.round_trip_defect k <= 2 # 1000000)%Q
  /\ (k = 0 -> RoundTrip.round_trip_defect k == 0).
Proof.
  intros Hc HN He Hs Hy HM Hx. cbn zeta.
  assert (Hk : 0 <= k <= 9) by (eapply RoundTripFacts.dcoeffs_range; exact Hc).
  assert (HM0 : (0 <= M)%Q).
  { eapply Qle_trans; [apply Qabs_nonneg | apply (HM x)].
    destruct (even_half HN He). lia. }
  destruct (even_half HN He) as [HN1 HH].
  assert (Hy1 : (y < List.length (rows (iwavelet c (2 * (k + 1)) a)))%nat)
    by (unfold iwavelet; now rewrite kernel_length).
  destruct (kernel_row (wavelet_row c (2 * (k + 1))) (fun _ => True)
              (iwavelet c (2 * (k + 1)) a) (y := y) I (fun _ _ _ => I) Hy1)
    as (b2 & _ & E2).
  destruct (kernel_row (iwavelet_row c (2 * (k + 1))) (fun _ => True) a (y := y) I
              (fun _ _ _ => I) Hy) as (b1 & _ & E1).
  pose proof (@RoundTripFacts.wavelet_iwavelet_row c (2 * (k + 1)) (dim1 a)
                (stride1 a) b1 b2 (nth y (rows a) zeros) x M
                ltac:(lia) HN He Hs HM ltac:(lia) ltac:(lia)) as [Hlow Hhigh].
  cbv zeta in Hlow, Hhigh.
  assert (Er : nth y (rows (wavelet c (2 * (k + 1)) (iwavelet c (2 * (k + 1)) a)))
                 zeros
               = snd (wavelet_row c (2 * (k + 1)) (dim1 a) (stride1 a)
                        (b2, snd (iwavelet_row c (2 * (k + 1)) (dim1 a) (stride1 a)
                                    (b1, nth y (rows a) zeros))))).
  { unfold wavelet. rewrite E2. unfold iwavelet. rewrite E1. reflexivity. }
  unfold elem.
  change (stride1 (wavelet c (2 * (k + 1)) (iwavelet c (2 * (k + 1)) a)))
    with (stride1 a).
  rewrite Er.
  repeat split.
  - eapply Qle_trans; [exact Hlow|].
    apply Qmult_le_compat_r; [|exact HM0].
    now apply RoundTripFacts.round_trip_defect_low.
  - eapply Qle_trans; [exact Hhigh|].
    apply Qmult_le_compat_r; [|exact HM0].
    now apply RoundTripFacts.round_trip_defect_high.
  - apply RoundTripFacts.round_trip_defect_small.
  - intros ->. apply RoundTripFacts.round_trip_defect_haar.
Qed.

Lemma example_array_bound (p : Z) :
  0 <= p < dim1 example_array -> (Qabs (elem example_array 1 p) <= 8)%Q.
Proof.
  intros Hp. change (dim1 example_array) with 4 in Hp.
  assert (Hc : p = 0 \/ p = 1 \/ p = 2 \/ p = 3) by lia.
  destruct Hc as [->|[->|[->| ->]]]; vm_compute; discriminate.
Qed.

Lemma daubechies_round_trip_interior_witness :
  let r := wavelet Daubechies.D4 (2 * (1 + 1))
             (iwavelet Daubechies.D4 (2 * (1 + 1)) example_array) in
  (Qabs (elem r 1 0 - elem example_array 1 0)
   <= RoundTrip.round_trip_defect 1 * 8)%Q
  /\ (Qabs (elem r 1 (Z.quot (dim1 example_array) 2 + 0)
            - elem example_array 1 (Z.quot (dim1 example_array) 2 + 0))
      <= RoundTrip.round_trip_defect 1 * 8)%Q
  /\ (RoundTrip.round_trip_defect 1 <= 2 # 1000000)%Q
  /\ (1 = 0 -> RoundTrip.round_trip_defect 1 == 0).
Proof.
  apply (@daubechies_round_trip_interior 1 Daubechies.D4 example_array 1%nat 0 8).
  - reflexivity.
  - simpl; lia.
  - reflexivity.
  - simpl; lia.
  - simpl; lia.
  - exact example_array_bound.
  - change (Z.quot (dim1 example_array) 2) with 2. lia.
Defined.

(** C3, as stated, fails at the end of each half of a row: with the
    order code [1] and a row of eight elements that is [1] at index [3]
    (the last low element) and [0] elsewhere, the round trip leaves less
    than [1/2] at index [3]. *)
Lemma daubechies_round_trip_fails_at_row_end :
  ~ (Qabs (elem (wavelet Daubechies.D4 4 (iwavelet Daubechies.D4 4 impulse_array))
                0 3
           - elem impulse_array 0 3) <= 1 # 2)%Q.
Proof.
  intros H. apply Qle_bool_iff in H. vm_compute in H. discriminate H.
Qed.

End WaveletClaims.

(** ** The neighbourhood filters *)

Module FilterFacts.
Import Loops Mem Filters LoopFacts MemFacts.

Local Open Scope Z_scope.

Lemma seq_last (n : nat) : seq 0 (S n) = seq 0 n ++ [n].
Proof. rewrite seq_S. reflexivity. Qed.

(** A loop that folds the taps [0 .. N2-1] into an accumulator visits
    the valid taps in order. *)
Lemma tap_loop {T R : Type} (fiter : filter_iterator T) (i : Z)
    (term : Z -> T -> R) (add : R -> R -> R) (zero : R) :
  for_range 0 (size fiter)
    (fun j acc => match retrieve fiter i j with
                  | Some val => add acc (term j val)
                  | None => acc
                  end)
    zero
  = fold_left add
      (flat_map (fun j => match retrieve fiter i (Z.of_nat j) with
                          | Some val => [term (Z.of_nat j) val]
                          | None => []
                          end)
                (seq 0 (Z.to_nat (size fiter))))
      zero.
Proof.
  destruct (Z_lt_ge_dec (size fiter) 0) as [Hneg|Hpos].
  - rewrite for_range_empty by lia.
    replace (Z.to_nat (size fiter)) with O by lia. reflexivity.
  - set (terms := fun n : nat =>
          flat_map (fun j => match retrieve fiter i (Z.of_nat j) with
                             | Some val => [term (Z.of_nat j) val]
                             | None => []
                             end) (seq 0 n)).
    change (flat_map _ _) with (terms (Z.to_nat (size fiter))).
    match goal with
    | |- for_range 0 ?hi ?body ?s = _ =>
        assert (Inv : (fun k acc => acc = fold_left add (terms (Z.to_nat k)) zero
                                    /\ 0 <= k) hi (for_range 0 hi body s))
    end.
    { apply (for_range_inv
               (fun k acc => acc = fold_left add (terms (Z.to_nat k)) zero /\ 0 <= k)).
      - lia.
      - split; [reflexivity | lia].
      - intros k acc Hk [-> Hk0]. split; [|lia].
        replace (Z.to_nat (k + 1)) with (S (Z.to_nat k)) by lia.
        unfold terms. rewrite seq_last, flat_map_app, fold_left_app.
        cbn [flat_map]. rewrite Z2Nat.id by lia.
        destruct (retrieve fiter i k); reflexivity. }
    apply Inv.
Qed.

(** *** Sorting, and a conforming [nth_element] *)

Lemma insert_perm (x : Z) (l : list Z) : Permutation (insert x l) (x :: l).
Proof.
  induction l as [|y l IH]; simpl; [reflexivity|].
  destruct (x <=? y); [reflexivity|].
  rewrite IH. apply perm_swap.
Qed.

Lemma isort_perm (l : list Z) : Permutation (isort l) l.
Proof.
  induction l as [|x l IH]; simpl; [reflexivity|].
  rewrite insert_perm. now constructor.
Qed.

Lemma ascending_cons (x : Z) (l : list Z) :
  (forall y, In y l -> x <= y) -> ascending l -> ascending (x :: l).
Proof.
  intros Hx Hl i j Hij. destruct i as [|i], j as [|j]; simpl in *; try lia.
  - apply Hx. apply nth_In. lia.
  - apply Hl. lia.
Qed.

Lemma ascending_tail (x : Z) (l : list Z) : ascending (x :: l) -> ascending l.
Proof. intros H i j Hij. apply (H (S i) (S j)). simpl. lia. Qed.

Lemma ascending_head (x : Z) (l : list Z) :
  ascending (x :: l) -> forall y, In y l -> x <= y.
Proof.
  intros H y Hy. destruct (In_nth l y 0 Hy) as (j & Hj & <-).
  apply (H O (S j)). simpl. lia.
Qed.

Lemma insert_ascending (x : Z) (l : list Z) :
  ascending l -> ascending (insert x l).
Proof.
  induction l as [|y l IH]; intros Hl; simpl.
  - intros i j Hij. simpl in Hij.
    replace j with O by lia. replace i with O by lia. lia.
  - destruct (Z.leb_spec x y) as [Hle|Hgt].
    + apply ascending_cons; [|exact Hl].
      intros z [<-|Hz]; [exact Hle|].
      pose proof (ascending_head Hl z Hz). lia.
    + apply ascending_cons.
      * intros z Hz.
        apply (Permutation_in _ (insert_perm x l)) in Hz.
        destruct Hz as [<-|Hz]; [lia|]. apply (ascending_head Hl z Hz).
      * apply IH. apply (ascending_tail Hl).
Qed.

Lemma isort_ascending (l : list Z) : ascending (isort l).
Proof.
  induction l as [|x l IH]; simpl.
  - intros i j Hij. simpl in Hij. lia.
  - now apply insert_ascending.
Qed.

Lemma to_list_length {V : Type} (m : mem V) (n : nat) :
  List.length (to_list m n) = n.
Proof. unfold to_list. now rewrite length_map, length_seq. Qed.

Lemma to_list_nth {V : Type} (m : mem V) (n i : nat) (d : V) :
  (i < n)%nat -> nth i (to_list m n) d = m (Z.of_nat i).
Proof.
  intros Hi. unfold to_list.
  rewrite (nth_indep _ d (m (Z.of_nat 0))) by (now rewrite length_map, length_seq).
  rewrite (map_nth (fun i => m (Z.of_nat i))). now rewrite seq_nth.
Qed.

Lemma to_list_of_nth (l : list Z) (m : mem Z) :
  (forall i, (i < List.length l)%nat -> m (Z.of_nat i) = nth i l 0) ->
  to_list m (List.length l) = l.
Proof.
  intros H. apply (nth_ext _ _ 0 0).
  - apply to_list_length.
  - intros i Hi. rewrite to_list_length in Hi.
    rewrite to_list_nth by exact Hi. now apply H.
Qed.

Lemma nth_element_sorting_conforms : nth_element_conforms nth_element_sorting.
Proof.
  intros m k n Hn.
  assert (Hlen : List.length (isort (to_list m (Z.to_nat n))) = Z.to_nat n).
  { rewrite (Permutation_length (isort_perm _)). apply to_list_length. }
  split; [|split].
  - intros i Hi. unfold nth_element_sorting.
    destruct (Z.leb_spec 0 i), (Z.ltb_spec i n); cbn [andb]; try reflexivity; lia.
  - assert (E : to_list (nth_element_sorting m k n)
                       (List.length (isort (to_list m (Z.to_nat n))))
                 = isort (to_list m (Z.to_nat n))).
    { apply to_list_of_nth. intros i Hi. unfold nth_element_sorting.
      destruct (Z.leb_spec 0 (Z.of_nat i)), (Z.ltb_spec (Z.of_nat i) n);
        cbn [andb]; try lia.
      now rewrite Nat2Z.id. }
    rewrite Hlen in E. rewrite E. apply isort_perm.
  - intros Hk i j Hi Hj. unfold nth_element_sorting.
    destruct (Z.leb_spec 0 i), (Z.ltb_spec i n); cbn [andb]; try lia.
    destruct (Z.leb_spec 0 j), (Z.ltb_spec j n); cbn [andb]; try lia.
    apply isort_ascending. rewrite Hlen. lia.
Qed.

(** *** The element a conforming [nth_element] selects *)

Lemma count_app (p : Z -> bool) (l1 l2 : list Z) :
  count p (l1 ++ l2) = (count p l1 + count p l2)%nat.
Proof. induction l1 as [|x l1 IH]; simpl; [reflexivity|]. rewrite IH. lia. Qed.

Lemma count_perm (p : Z -> bool) (l1 l2 : list Z) :
  Permutation l1 l2 -> count p l1 = count p l2.
Proof.
  induction 1 as [| x l1 l2 _ IH | x y l | l1 l2 l3 _ IH1 _ IH2]; simpl; lia.
Qed.

Lemma count_le_length (p : Z -> bool) (l : list Z) :
  (count p l <= List.length l)%nat.
Proof. induction l as [|x l IH]; simpl; [lia|]. destruct (p x); lia. Qed.

Lemma count_all (p : Z -> bool) (l : list Z) :
  (forall x, In x l -> p x = true) -> count p l = List.length l.
Proof.
  induction l as [|x l IH]; intros H; simpl; [reflexivity|].
  rewrite (H x) by now left. rewrite IH by (intros; apply H; now right). lia.
Qed.

Lemma count_none (p : Z -> bool) (l : list Z) :
  (forall x, In x l -> p x = false) -> count p l = O.
Proof.
  induction l as [|x l IH]; intros H; simpl; [reflexivity|].
  rewrite (H x) by now left. rewrite IH by (intros; apply H; now right). lia.
Qed.

Lemma in_firstn_nth (l : list Z) (K : nat) (x : Z) :
  In x (firstn K l) -> exists i, (i < K)%nat /\ (i < List.length l)%nat /\ nth i l 0 = x.
Proof.
  revert K. induction l as [|y l IH]; intros K H.
  - rewrite firstn_nil in H. destruct H.
  - destruct K as [|K]; [destruct H|]. simpl in H. destruct H as [<-|H].
    + exists O. simpl. repeat split; lia.
    + destruct (IH K H) as (i & Hi & Hl & E). exists (S i). simpl.
      repeat split; first [lia | exact E].
Qed.

Lemma in_skipn_nth (l : list Z) (K : nat) (x : Z) :
  In x (skipn K l) -> exists i, (K <= i < List.length l)%nat /\ nth i l 0 = x.
Proof.
  revert K. induction l as [|y l IH]; intros K H.
  - rewrite skipn_nil in H. destruct H.
  - destruct K as [|K].
    + change (skipn 0 (y :: l)) with (y :: l) in H.
      destruct (In_nth _ _ 0 H) as (i & Hi & E).
      exists i. split; [lia | exact E].
    + simpl in H. destruct (IH K H) as (i & Hi & E). exists (S i). simpl.
      split; [lia | exact E].
Qed.

(** A list of which position [K] splits the small values from the large
    ones holds at [K] what the sorted list holds there. *)
Lemma partitioned_nth (l s : list Z) (K : nat) :
  Permutation l s -> ascending s -> (K < List.length l)%nat ->
  (forall i j, (i <= K)%nat -> (K <= j < List.length l)%nat ->
               nth i l 0 <= nth j l 0) ->
  nth K l 0 = nth K s 0.
Proof.
  intros Hperm Hasc HK Hpart.
  assert (Hlen : List.length s = List.length l)
    by (symmetry; now apply Permutation_length).
  set (v := nth K l 0).
  set (below := fun x : Z => x <? v).
  set (upto := fun x : Z => x <=? v).
  assert (Hlt : (count below l <= K)%nat).
  { rewrite <- (firstn_skipn K l), count_app.
    rewrite (count_none below (skipn K l)).
    - pose proof (count_le_length below (firstn K l)).
      rewrite length_firstn in H. lia.
    - intros x Hx. apply in_skipn_nth in Hx. destruct Hx as (j & Hj & <-).
      unfold below. apply Z.ltb_ge. apply Hpart; lia. }
  assert (Hle : (K + 1 <= count upto l)%nat).
  { rewrite <- (firstn_skipn (K + 1) l), count_app.
    rewrite (count_all upto (firstn (K + 1) l)).
    - rewrite length_firstn. lia.
    - intros x Hx. apply in_firstn_nth in Hx. destruct Hx as (i & Hi & _ & <-).
      unfold upto. apply Z.leb_le. apply Hpart; lia. }
  rewrite (count_perm below Hperm) in Hlt.
  rewrite (count_perm upto Hperm) in Hle.
  apply Z.le_antisymm.
  - destruct (Z_le_gt_dec v (nth K s 0)) as [H|H]; [exact H|exfalso].
    assert ((K + 1 <= count below s)%nat); [|lia].
    rewrite <- (firstn_skipn (K + 1) s), count_app.
    rewrite (count_all below (firstn (K + 1) s)).
    + rewrite length_firstn. lia.
    + intros x Hx. apply in_firstn_nth in Hx. destruct Hx as (i & Hi & Hil & <-).
      unfold below. apply Z.ltb_lt. pose proof (Hasc i K ltac:(lia)). lia.
  - destruct (Z_le_gt_dec (nth K s 0) v) as [H|H]; [exact H|exfalso].
    assert ((count upto s <= K)%nat); [|lia].
    rewrite <- (firstn_skipn K s), count_app.
    rewrite (count_none upto (skipn K s)).
    + pose proof (count_le_length upto (firstn K s)).
      rewrite length_firstn in H0. lia.
    + intros x Hx. apply in_skipn_nth in Hx. destruct Hx as (j & Hj & <-).
      unfold upto. apply Z.leb_gt. pose proof (Hasc K j ltac:(lia)). lia.
Qed.

Lemma conforming_selects (nth_element : mem Z -> Z -> Z -> mem Z)
    (m : mem Z) (k n : Z) :
  nth_element_conforms nth_element -> 0 <= k < n ->
  nth_element m k n k = element_of_rank k (to_list m (Z.to_nat n)).
Proof.
  intros Hc Hk. destruct (Hc m k n ltac:(lia)) as (_ & Hperm & Hord).
  specialize (Hord Hk). unfold element_of_rank.
  replace (nth_element m k n k)
    with (nth (Z.to_nat k) (to_list (nth_element m k n) (Z.to_nat n)) 0)
    by (rewrite to_list_nth by lia; now rewrite Z2Nat.id by lia).
  apply partitioned_nth.
  - eapply Permutation_trans; [exact Hperm|]. symmetry. apply isort_perm.
  - apply isort_ascending.
  - rewrite to_list_length. lia.
  - rewrite to_list_length. intros i j Hi Hj.
    rewrite !to_list_nth by lia. apply Hord; lia.
Qed.

(** *** The scratch array of [rank_filter] *)

(** After the collecting loop the first [n] slots hold the valid tap
    values in tap order, and the other slots are as they were. *)
Lemma collect_spec (fiter : filter_iterator Z) (i : Z) (nb : mem Z) :
  snd (collect fiter i nb) = Z.of_nat (List.length (valid_taps fiter i))
  /\ to_list (fst (collect fiter i nb)) (List.length (valid_taps fiter i))
     = valid_taps fiter i
  /\ (forall c, ~ (0 <= c < snd (collect fiter i nb)) ->
                fst (collect fiter i nb) c = nb c).
Proof.
  unfold collect, valid_taps.
  destruct (Z_lt_ge_dec (size fiter) 0) as [Hneg|Hpos].
  { rewrite for_range_empty by lia.
    replace (Z.to_nat (size fiter)) with O by lia. cbn. repeat split. }
  set (vt := fun n : nat =>
         flat_map (fun j => match retrieve fiter i (Z.of_nat j) with
                            | Some v => [v]
                            | None => []
                            end) (seq 0 n)).
  change (flat_map _ _) with (vt (Z.to_nat (size fiter))).
  match goal with
  | |- context [for_range 0 ?hi ?body ?s] =>
      assert (Inv : (fun j (st : mem Z * Z) =>
                       (snd st = Z.of_nat (List.length (vt (Z.to_nat j)))
                        /\ (forall t, (t < List.length (vt (Z.to_nat j)))%nat ->
                                      fst st (Z.of_nat t) = nth t (vt (Z.to_nat j)) 0)
                        /\ (forall c, ~ (0 <= c < snd st) -> fst st c = nb c))
                       /\ 0 <= j) hi (for_range 0 hi body s))
  end.
  { apply (for_range_inv
             (fun j (st : mem Z * Z) =>
                (snd st = Z.of_nat (List.length (vt (Z.to_nat j)))
                 /\ (forall t, (t < List.length (vt (Z.to_nat j)))%nat ->
                               fst st (Z.of_nat t) = nth t (vt (Z.to_nat j)) 0)
                 /\ (forall c, ~ (0 <= c < snd st) -> fst st c = nb c))
                /\ 0 <= j)).
    - lia.
    - cbn. repeat split; intros; lia.
    - intros j [m n] Hj [(Hn & Hin & Hout) Hj0]. cbn [fst snd] in *.
      split; [|lia].
      assert (Hs : vt (Z.to_nat (j + 1))
                   = vt (Z.to_nat j)
                     ++ match retrieve fiter i j with
                        | Some v => [v]
                        | None => []
                        end).
      { replace (Z.to_nat (j + 1)) with (S (Z.to_nat j)) by lia.
        unfold vt. rewrite seq_last, flat_map_app. cbn [flat_map].
        rewrite Z2Nat.id by lia. now rewrite app_nil_r. }
      rewrite Hs. clear Hs.
      destruct (retrieve fiter i j) as [v|]; cbn [fst snd].
      + rewrite length_app. cbn [List.length]. repeat split.
        * lia.
        * intros t Ht.
          destruct (Nat.eq_dec t (List.length (vt (Z.to_nat j)))) as [->|Hne].
          -- rewrite <- Hn, store_same. now rewrite nth_middle.
          -- rewrite store_other by lia. rewrite app_nth1 by lia.
             apply Hin. lia.
        * intros c Hc. rewrite store_other by lia. apply Hout. lia.
      + rewrite app_nil_r. repeat split; assumption. }
  destruct Inv as [(Hn & Hin & Hout) _].
  repeat split; [exact Hn | | exact Hout].
  apply to_list_of_nth. exact Hin.
Qed.

(** The value stored at position [i]: the slot [rank] of the scratch
    array after [nth_element], whatever the scratch array held when the
    position was reached. *)
Lemma rank_filter_at (nth_element : mem Z -> Z -> Z -> mem Z) (junk : mem Z)
    (N : Z) (fiter : filter_iterator Z) (rank : Z) (res : mem Z) (i : Z) :
  0 <= i < N -> 0 <= rank < size fiter ->
  exists scratch,
    rank_filter nth_element junk N fiter rank res i
    = nth_element
        (fst (collect fiter i scratch))
        (if negb (snd (collect fiter i scratch) =? size fiter)
         then scaled_rank (snd (collect fiter i scratch)) rank (size fiter)
         else rank)
        (snd (collect fiter i scratch))
        rank.
Proof.
  intros Hi Hr. unfold rank_filter.
  destruct (Z.ltb_spec rank 0); [lia|].
  destruct (Z.geb_spec rank (size fiter)); [lia|]. cbn [orb].
  set (value := fun (x : Z) (scratch : mem Z) =>
         nth_element
           (fst (collect fiter x scratch))
           (if negb (snd (collect fiter x scratch) =? size fiter)
            then scaled_rank (snd (collect fiter x scratch)) rank (size fiter)
            else rank)
           (snd (collect fiter x scratch))
           rank).
  match goal with
  | |- exists _, fst (for_range 0 N ?body ?s) i = _ =>
      assert (Inv : (fun k (st : mem Z * mem Z) =>
                       forall x, 0 <= x < k ->
                                 exists scratch, fst st x = value x scratch) N
                      (for_range 0 N body s))
  end.
  { apply (for_range_inv
             (fun k (st : mem Z * mem Z) =>
                forall x, 0 <= x < k -> exists scratch, fst st x = value x scratch)).
    - lia.
    - intros; lia.
    - intros k [out nb] Hk IH x Hx. cbn [fst] in IH.
      destruct (collect fiter k nb) as [nb1 n] eqn:E. cbn [fst].
      destruct (Z.eq_dec x k) as [->|Hne].
      + exists nb. rewrite store_same. unfold value. rewrite E. reflexivity.
      + rewrite store_other by lia. apply IH. lia. }
  destruct (Inv i Hi) as (scratch & E). exists scratch. rewrite E. reflexivity.
Qed.

(** Where every tap is valid the value stored is the element of rank
    [rank] of the window. *)
Lemma rank_filter_all_valid (nth_element : mem Z -> Z -> Z -> mem Z)
    (junk : mem Z) (N : Z) (fiter : filter_iterator Z) (rank : Z)
    (res : mem Z) (i : Z) :
  nth_element_conforms nth_element ->
  0 <= i < N -> 0 <= rank < size fiter ->
  Z.of_nat (List.length (valid_taps fiter i)) = size fiter ->
  rank_filter nth_element junk N fiter rank res i
  = element_of_rank rank (valid_taps fiter i).
Proof.
  intros Hc Hi Hr Hall.
  destruct (rank_filter_at nth_element junk fiter res Hi Hr) as (scratch & ->).
  destruct (collect_spec fiter i scratch) as (Hn & Hl & _).
  rewrite Hn, Hall, Z.eqb_refl. cbn [negb].
  rewrite conforming_selects by (try exact Hc; lia).
  rewrite <- Hall, Nat2Z.id, Hl. reflexivity.
Qed.

(** *** [rank_filter] at the first position *)

Lemma rank_filter_first (nth_element : mem Z -> Z -> Z -> mem Z) (junk : mem Z)
    (N : Z) (fiter : filter_iterator Z) (rank : Z) (res : mem Z) :
  0 < N -> 0 <= rank < size fiter ->
  rank_filter nth_element junk N fiter rank res 0
  = nth_element
      (fst (collect fiter 0 junk))
      (if negb (snd (collect fiter 0 junk) =? size fiter)
       then scaled_rank (snd (collect fiter 0 junk)) rank (size fiter)
       else rank)
      (snd (collect fiter 0 junk))
      rank.
Proof.
  intros HN Hr. unfold rank_filter.
  destruct (Z.ltb_spec rank 0); [lia|].
  destruct (Z.geb_spec rank (size fiter)); [lia|]. cbn [orb].
  set (v := nth_element _ _ _ rank).
  match goal with
  | |- fst (for_range 0 N ?body ?s) 0 = v =>
      assert (Inv : (fun k (st : mem Z * mem Z) =>
                       (k = 0 -> snd st = junk) /\ (1 <= k -> fst st 0 = v)) N
                      (for_range 0 N body s))
  end.
  { apply (for_range_inv
             (fun k (st : mem Z * mem Z) =>
                (k = 0 -> snd st = junk) /\ (1 <= k -> fst st 0 = v))).
    - lia.
    - split; [reflexivity | lia].
    - intros k [out nb] Hk [Hjunk IH]. cbn [fst snd] in *.
      split; [lia|]. intros _.
      destruct (collect fiter k nb) as [nb1 n] eqn:E. cbn [fst].
      destruct (Z.eq_dec k 0) as [->|Hne].
      + rewrite store_same. unfold v.
        rewrite Hjunk in E by reflexivity. rewrite E. reflexivity.
      + rewrite store_other by lia. apply IH. lia. }
  apply Inv. lia.
Qed.

End FilterFacts.

(** ** The neighbourhood filters: claims *)

Module FilterClaims.
Import Loops Mem Filters Examples LoopFacts MemFacts FilterFacts.

Local Open Scope Z_scope.

(** C7.  At every primary position [convolve] adds up the products
    [weight(j) * value(j)] of the valid taps in [double], whatever the
    element type [T], and converts the sum to [T] only to store it. *)
Theorem convolve_accumulates_in_double
    (T double : Type) (dzero : double) (dadd dmul : double -> double -> double)
    (to_double : T -> double) (of_double : double -> T)
    (N : Z) (fiter : filter_iterator T) (result : mem T) (i : Z) :
  0 <= i < N ->
  convolve dzero dadd dmul to_double of_double N fiter result i
  = of_double (double_sum dzero dadd (weighted_terms dmul to_double fiter i)).
Proof.
  intros Hi. unfold convolve.
  rewrite (store_loop_at
             (fun i => of_double (convolve_acc dzero dadd dmul to_double fiter i)))
    by exact Hi.
  f_equal. unfold convolve_acc, double_sum, weighted_terms.
  apply (tap_loop fiter i (fun j val => dmul (to_double val) (to_double (tap fiter j)))).
Qed.

Lemma convolve_accumulates_in_double_witness :
  convolve 0%Q Qplus Qmult inject_Z uint8_of_double 5 example_fiter
           (fun _ => 0) 0
  = uint8_of_double
      (double_sum 0%Q Qplus (weighted_terms Qmult inject_Z example_fiter 0)).
Proof.
  apply (@convolve_accumulates_in_double Z Q 0%Q Qplus Qmult inject_Z
           uint8_of_double 5 example_fiter (fun _ => 0) 0).
  lia.
Defined.

(** C5.  With [rank < 0] or [rank >= N2], [rank_filter] returns at once:
    no element of the output is written. *)
Theorem rank_filter_invalid_rank
    (nth_element : mem Z -> Z -> Z -> mem Z) (junk : mem Z)
    (N : Z) (fiter : filter_iterator Z) (rank : Z) (res : mem Z) :
  rank < 0 \/ rank >= size fiter ->
  rank_filter nth_element junk N fiter rank res = res.
Proof.
  intros Hr. unfold rank_filter.
  destruct (Z.ltb_spec rank 0); [reflexivity|].
  destruct (Z.geb_spec rank (size fiter)); [reflexivity|]. lia.
Qed.

Lemma rank_filter_invalid_rank_witness :
  rank_filter nth_element_sorting (fun _ => 0) 5 example_fiter 3 (fun _ => 42)
  = (fun _ => 42).
Proof.
  apply (@rank_filter_invalid_rank nth_element_sorting (fun _ => 0) 5
           example_fiter 3 (fun _ => 42)).
  right. simpl. lia.
Defined.

(** Whatever the element type, the value stored is the sum, in the
    arithmetic of that type, of the squares of the differences. *)
Lemma template_match_at (T : Type) (A : arith T) (N : Z)
    (fiter : filter_iterator T) (res : mem T) (i : Z) :
  0 <= i < N ->
  template_match A N fiter res i
  = fold_left (tadd A)
      (flat_map (fun j => match retrieve fiter i (Z.of_nat j) with
                          | Some val =>
                              [tmul A (delta A val (tap fiter (Z.of_nat j)))
                                      (delta A val (tap fiter (Z.of_nat j)))]
                          | None => []
                          end)
                (seq 0 (Z.to_nat (size fiter))))
      (tzero A).
Proof.
  intros Hi. unfold template_match.
  rewrite (store_loop_at (fun i => template_acc A fiter i)) by exact Hi.
  unfold template_acc.
  apply (tap_loop fiter i
           (fun j val => tmul A (delta A val (tap fiter j))
                                (delta A val (tap fiter j)))).
Qed.

(** The branch on the larger operand: the difference of two [w]-bit
    values is their distance, with no wrap-around. *)
Lemma delta_unsigned (w val tj : Z) :
  0 <= val < 2 ^ w -> 0 <= tj < 2 ^ w ->
  delta (unsigned w) val tj = Z.abs (val - tj).
Proof.
  intros Hv Ht. unfold delta, unsigned, wrap. cbn [tgt tsub].
  destruct (Z.gtb_spec val tj); rewrite Z.mod_small by lia; lia.
Qed.

Lemma sum_list_snoc (l : list Z) (x : Z) : sum_list (l ++ [x]) = sum_list l + x.
Proof. unfold sum_list. now rewrite fold_left_app. Qed.

Lemma template_acc_unsigned (w : Z) (fiter : filter_iterator Z) (i : Z) :
  0 <= w ->
  (forall j val, 0 <= j < size fiter -> retrieve fiter i j = Some val ->
                 0 <= val < 2 ^ w /\ 0 <= tap fiter j < 2 ^ w) ->
  template_acc (unsigned w) fiter i
  = wrap w (sum_list (squared_differences fiter i)).
Proof.
  intros Hw Hrange. unfold template_acc, squared_differences.
  destruct (Z_lt_ge_dec (size fiter) 0) as [Hneg|Hpos].
  { rewrite for_range_empty by lia.
    replace (Z.to_nat (size fiter)) with O by lia.
    cbn [seq flat_map]. unfold sum_list, wrap, unsigned.
    cbn [fold_left tzero]. now rewrite Zmod_0_l. }
  set (sq := fun n : nat =>
         flat_map (fun j => match retrieve fiter i (Z.of_nat j) with
                            | Some val => [(val - tap fiter (Z.of_nat j)) ^ 2]
                            | None => []
                            end) (seq 0 n)).
  change (flat_map _ _) with (sq (Z.to_nat (size fiter))).
  match goal with
  | |- for_range 0 ?hi ?body ?s = _ =>
      assert (Inv : (fun k acc => acc = wrap w (sum_list (sq (Z.to_nat k)))
                                  /\ 0 <= k) hi (for_range 0 hi body s))
  end.
  { apply (for_range_inv
             (fun k acc => acc = wrap w (sum_list (sq (Z.to_nat k))) /\ 0 <= k)).
    - lia.
    - split; [|lia]. unfold sq. cbn [Z.to_nat seq flat_map].
      unfold sum_list, wrap, unsigned. cbn [fold_left tzero].
      now rewrite Zmod_0_l.
    - intros k acc Hk [-> Hk0]. split; [|lia].
      replace (Z.to_nat (k + 1)) with (S (Z.to_nat k)) by lia.
      assert (Hs : sq (S (Z.to_nat k))
                   = sq (Z.to_nat k)
                     ++ match retrieve fiter i k with
                        | Some val => [(val - tap fiter k) ^ 2]
                        | None => []
                        end).
      { unfold sq. rewrite seq_last, flat_map_app. cbn [flat_map].
        rewrite Z2Nat.id by lia. now rewrite app_nil_r. }
      rewrite Hs. clear Hs.
      destruct (retrieve fiter i k) as [val|] eqn:E.
      + destruct (Hrange k val Hk E) as [Hv Ht].
        rewrite delta_unsigned by assumption.
        rewrite sum_list_snoc.
        unfold unsigned, wrap. cbn [tadd tmul].
        rewrite Zplus_mod_idemp_l, Zplus_mod_idemp_r.
        f_equal. f_equal. rewrite Z.pow_2_r. apply Z.abs_square.
      + now rewrite app_nil_r. }
  apply Inv.
Qed.

(** C8.  At every primary position [template_match] writes the sum over
    the valid taps of [(value(j) - tap(j))^2]; the difference is taken on
    the side of the larger operand, so that for an unsigned [w]-bit
    element type it is the distance [|value(j) - tap(j)|] without
    wrap-around; and the sum is accumulated in the element type itself:
    the value stored is the sum modulo [2^w]. *)
Theorem template_match_unsigned
    (w N : Z) (fiter : filter_iterator Z) (res : mem Z) (i : Z) :
  0 <= w -> 0 <= i < N ->
  (forall j val, 0 <= j < size fiter -> retrieve fiter i j = Some val ->
                 0 <= val < 2 ^ w /\ 0 <= tap fiter j < 2 ^ w) ->
  template_match (unsigned w) N fiter res i
  = wrap w (sum_list (squared_differences fiter i))
  /\ (forall j val, 0 <= j < size fiter -> retrieve fiter i j = Some val ->
        delta (unsigned w) val (tap fiter j) = Z.abs (val - tap fiter j)).
Proof.
  intros Hw Hi Hrange. split.
  - unfold template_match.
    rewrite (store_loop_at (fun i => template_acc (unsigned w) fiter i)) by exact Hi.
    now apply template_acc_unsigned.
  - intros j val Hj E. destruct (Hrange j val Hj E). now apply delta_unsigned.
Qed.

Lemma match_fiter_range (j val : Z) :
  0 <= j < size match_fiter -> retrieve match_fiter 1 j = Some val ->
  0 <= val < 2 ^ 8 /\ 0 <= tap match_fiter j < 2 ^ 8.
Proof.
  intros Hj. change (size match_fiter) with 3 in Hj.
  assert (Hc : j = 0 \/ j = 1 \/ j = 2) by lia.
  destruct Hc as [-> | [-> | ->]]; intros E; vm_compute in E;
    inversion E; subst val; vm_compute; repeat split; discriminate.
Qed.

Lemma template_match_unsigned_witness :
  template_match (unsigned 8) 3 match_fiter (fun _ => 0) 1
  = wrap 8 (sum_list (squared_differences match_fiter 1))
  /\ (forall j val, 0 <= j < size match_fiter ->
        retrieve match_fiter 1 j = Some val ->
        delta (unsigned 8) val (tap match_fiter j)
        = Z.abs (val - tap match_fiter j)).
Proof.
  apply (@template_match_unsigned 8 3 match_fiter (fun _ => 0) 1).
  - lia.
  - lia.
  - exact match_fiter_range.
Defined.

(** A conforming [nth_element] called with [nth = first] on [5, 7, 7]
    leaves [7] in the slot after the first. *)
Lemma nth_element_on_edge (nth_element : mem Z -> Z -> Z -> mem Z) (junk : mem Z) :
  nth_element_conforms nth_element ->
  nth_element (store (store (store junk 0 5) 1 7) 2 7) 0 3 1 = 7.
Proof.
  intros Hc.
  set (m := store (store (store junk 0 5) 1 7) 2 7).
  destruct (Hc m 0 3 ltac:(lia)) as (_ & Hperm & Hord).
  specialize (Hord ltac:(lia)).
  set (m' := nth_element m 0 3) in *.
  change (to_list m' (Z.to_nat 3)) with [m' 0; m' 1; m' 2] in Hperm.
  change (to_list m (Z.to_nat 3)) with [5; 7; 7] in Hperm.
  pose proof (Hord 0 1 ltac:(lia) ltac:(lia)) as H01.
  pose proof (Hord 0 2 ltac:(lia) ltac:(lia)) as H02.
  assert (Hin : forall v, In v [m' 0; m' 1; m' 2] -> v = 5 \/ v = 7).
  { intros v Hv. apply (Permutation_in _ Hperm) in Hv. simpl in Hv.
    destruct Hv as [<-|[<-|[<-|[]]]]; lia. }
  pose proof (Hin (m' 0) ltac:(simpl; tauto)) as H0.
  pose proof (Hin (m' 1) ltac:(simpl; tauto)) as H1.
  pose proof (Hin (m' 2) ltac:(simpl; tauto)) as H2.
  pose proof (Permutation_count_occ Z.eq_dec [m' 0; m' 1; m' 2] [5; 7; 7])
    as [Hcount _].
  specialize (Hcount Hperm 5). cbn [count_occ] in Hcount.
  destruct H1 as [H1|H1]; [|exact H1]. exfalso.
  assert (H0' : m' 0 = 5) by lia.
  rewrite H0', H1 in Hcount.
  destruct (Z.eq_dec 5 5) as [_|Hne]; [|contradiction].
  destruct (Z.eq_dec 7 5) as [Heq|_]; [discriminate Heq|].
  destruct (Z.eq_dec (m' 2) 5); discriminate Hcount.
Qed.

(** C1 at a position next to the border.  The array is [5,7,7,7,7], the
    filter has five taps and the rank is [1].  At position [0] three taps
    are valid, the scaled rank is [0], and the element of that rank among
    the valid values is [5]; whatever conforming [nth_element] is used
    and whatever the scratch array held, [rank_filter] stores [7], read
    from the slot [neighbours[rank]]. *)
Theorem rank_filter_reads_slot_of_rank
    (nth_element : mem Z -> Z -> Z -> mem Z) (junk res : mem Z) :
  nth_element_conforms nth_element ->
  valid_taps edge_fiter 0 = [5; 7; 7]
  /\ scaled_rank 3 1 (size edge_fiter) = 0
  /\ element_of_rank 0 (valid_taps edge_fiter 0) = 5
  /\ rank_filter nth_element junk 5 edge_fiter 1 res 0 = 7.
Proof.
  intros Hc. repeat split; try reflexivity.
  rewrite rank_filter_first by (cbn; lia).
  change (collect edge_fiter 0 junk)
    with (store (store (store junk 0 5) 1 7) 2 7, 3).
  cbn [fst snd].
  change (if negb (3 =? size edge_fiter)
          then scaled_rank 3 1 (size edge_fiter) else 1) with 0.
  now apply nth_element_on_edge.
Qed.

(** On a constant array the slot read can lie beyond the values
    collected: with one valid tap and rank [1], the value stored is what
    the scratch array held before the call. *)
Lemma rank_filter_constant_array
    (nth_element : mem Z -> Z -> Z -> mem Z) (junk res : mem Z) :
  nth_element_conforms nth_element ->
  valid_taps constant_fiter 0 = [5]
  /\ rank_filter nth_element junk 1 constant_fiter 1 res 0 = junk 1.
Proof.
  intros Hc. split; [reflexivity|].
  rewrite rank_filter_first by (cbn; lia).
  change (collect constant_fiter 0 junk) with (store junk 0 5, 1).
  cbn [fst snd].
  destruct (Hc (store junk 0 5)
               (if negb (1 =? size constant_fiter)
                then scaled_rank 1 1 (size constant_fiter) else 1)
               1 ltac:(lia)) as (Hout & _ & _).
  rewrite Hout by lia. apply store_other. lia.
Qed.

Lemma rank_filter_reads_slot_of_rank_witness :
  valid_taps edge_fiter 0 = [5; 7; 7]
  /\ scaled_rank 3 1 (size edge_fiter) = 0
  /\ element_of_rank 0 (valid_taps edge_fiter 0) = 5
  /\ rank_filter nth_element_sorting (fun _ => 0) 5 edge_fiter 1 (fun _ => 0) 0
     = 7.
Proof.
  apply (@rank_filter_reads_slot_of_rank nth_element_sorting
           (fun _ => 0) (fun _ => 0)).
  exact nth_element_sorting_conforms.
Defined.

End FilterClaims.

(** ** The wrappers: claims *)

Module PyClaims.
Import Mem Wavelet Daubechies Py Examples.

Local Open Scope Z_scope.


Section Wrappers.

Variable at_integer_type : kernel_template -> npy_type -> array2 -> array2.



End Wrappers.



(** C9, as the code has it.  With an order code outside [0 .. 9],
    [daubechies] and [idaubechies] fail with the error that [dcoeffs]
    sets, the [RuntimeError] carrying [TypeErrorMsg], and the array is
    as it was: no kernel has run. *)
Theorem daubechies_invalid_code
    (at_integer_type : kernel_template -> npy_type -> array2 -> array2)
    (array : PyObject array2) (code : Z) :
  code < 0 \/ 9 < code ->
  py_daubechies at_integer_type array code
  = (array, Raised (RuntimeError TypeErrorMsg))
  /\ py_idaubechies at_integer_type array code
     = (array, Raised (RuntimeError TypeErrorMsg)).
Proof.
  intros Hcode.
  assert (Hnone : dcoeffs code = None).
  { destruct (dcoeffs code) as [c|] eqn:E; [|reflexivity].
    apply RoundTripFacts.dcoeffs_range in E. lia. }
  unfold py_daubechies, py_idaubechies.
  destruct array as [|a]; [split; reflexivity|].
  rewrite Hnone. destruct (negb (PyArray_NDIM a =? 2)); split; reflexivity.
Qed.

Lemma daubechies_invalid_code_witness :
  let array := Array (mkPyArray 2 NPY_DOUBLE true example_array) in
  let at_integer_type :=
    fun (_ : kernel_template) (_ : npy_type) (c : array2) => c in
  py_daubechies at_integer_type array 10
  = (array, Raised (RuntimeError TypeErrorMsg))
  /\ py_idaubechies at_integer_type array 10
     = (array, Raised (RuntimeError TypeErrorMsg)).
Proof.
  apply (@daubechies_invalid_code
           (fun (_ : kernel_template) (_ : npy_type) (c : array2) => c)
           (Array (mkPyArray 2 NPY_DOUBLE true example_array)) 10).
  right. lia.
Defined.

(** C9, as stated, fails: the error of an order code out of range is
    not a distinct invalid-argument error.  No classification of the
    error values can put the failure of the code [10] on a 2-D array of
    [double] under [InvalidArgument] and the failure of a valid code on
    an argument that is not an array under [TypeMismatch]: the two calls
    leave the same error. *)
Lemma daubechies_invalid_code_is_the_type_error :
  let at_integer_type :=
    fun (_ : kernel_template) (_ : npy_type) (c : array2) => c in
  ~ exists kind : PyErr -> error_kind,
      (forall e, snd (py_daubechies at_integer_type NotArray 0) = Raised e ->
                 kind e = TypeMismatch)
      /\ (forall e, snd (py_daubechies at_integer_type
                           (Array (mkPyArray 2 NPY_DOUBLE true example_array))
                           10) = Raised e ->
                    kind e = InvalidArgument).
Proof.
  cbn zeta. intros (kind & Htype & Hcode).
  specialize (Htype (RuntimeError TypeErrorMsg) eq_refl).
  specialize (Hcode (RuntimeError TypeErrorMsg) eq_refl).
  rewrite Htype in Hcode. discriminate Hcode.
Qed.

End PyClaims.

(** ** The row transforms: further properties *)

Module WaveletExtras.
Import Loops Mem Wavelet WaveletSpec RoundTrip InverseSpec Shared Examples.
Import LoopFacts MemFacts WaveletFacts RoundTripFacts.

Local Open Scope Z_scope.

(** Row [y] of the result of a kernel, for [y] within the array. *)
Lemma kernel_row_any (f : Z -> Z -> row * row -> row * row) (a : array2) (y : nat) :
  (y < List.length (rows a))%nat ->
  exists b,
    nth y (rows (kernel f a)) zeros
    = snd (f (dim1 a) (stride1 a) (b, nth y (rows a) zeros)).
Proof.
  intros Hy.
  destruct (kernel_row f (fun _ => True) a (y := y) I (fun _ _ _ => I) Hy)
    as (b & _ & E).
  now exists b.
Qed.

(** X1.  [haar] on a row: element [x] of the first half is the sum of
    the samples [2x] and [2x+1], and element [x] of the second half is
    their difference, sample [2x+1] minus sample [2x]; no factor is
    applied. *)
Theorem haar_sum_and_difference (a : array2) (y : nat) (x : Z) :
  0 <= dim1 a -> stride1 a <> 0 -> (y < List.length (rows a))%nat ->
  0 <= x < Z.quot (dim1 a) 2 ->
  elem (haar a) y x = (elem a y (2 * x) + elem a y (2 * x + 1))%Q
  /\ elem (haar a) y (Z.quot (dim1 a) 2 + x)
     = (elem a y (2 * x + 1) - elem a y (2 * x))%Q.
Proof.
  intros HN Hs Hy Hx. destruct (kernel_row_any haar_row a Hy) as (b & E).
  unfold elem, haar. rewrite E. cbn [stride1 kernel].
  rewrite haar_row_low, haar_row_high by assumption.
  unfold haar_low, haar_high.
  replace (2 * x * stride1 a) with (stride1 a * (2 * x)) by ring.
  replace ((2 * x + 1) * stride1 a) with (stride1 a * (2 * x + 1)) by ring.
  split; reflexivity.
Qed.

Lemma haar_sum_and_difference_witness :
  elem (haar example_array) 1 1
  = (elem example_array 1 (2 * 1) + elem example_array 1 (2 * 1 + 1))%Q
  /\ elem (haar example_array) 1 (Z.quot (dim1 example_array) 2 + 1)
     = (elem example_array 1 (2 * 1 + 1) - elem example_array 1 (2 * 1))%Q.
Proof.
  apply (@haar_sum_and_difference example_array 1%nat 1).
  - simpl; lia.
  - simpl; lia.
  - simpl; lia.
  - change (Z.quot (dim1 example_array) 2) with 2. lia.
Defined.

(** X2.  [ihaar] on a row of even length: with [l] element [x] of the
    first half and [h] element [x] of the second half, the elements
    [2x] and [2x+1] of the result are [(l - h)/2] and [(l + h)/2]. *)
Theorem ihaar_half_sum_and_difference (a : array2) (y : nat) (x : Z) :
  0 <= dim1 a -> Z.even (dim1 a) = true -> stride1 a <> 0 ->
  (y < List.length (rows a))%nat ->
  0 <= x < Z.quot (dim1 a) 2 ->
  elem (ihaar a) y (2 * x)
  = ((elem a y x - elem a y (Z.quot (dim1 a) 2 + x)) / 2)%Q
  /\ elem (ihaar a) y (2 * x + 1)
     = ((elem a y x + elem a y (Z.quot (dim1 a) 2 + x)) / 2)%Q.
Proof.
  intros HN He Hs Hy Hx. destruct (even_half HN He) as [HN1 HH].
  destruct (kernel_row_any ihaar_row a Hy) as (b & E).
  unfold elem, ihaar. rewrite E. cbn [stride1 kernel].
  rewrite ihaar_row_even, ihaar_row_odd by assumption.
  unfold ihaar_even, ihaar_odd.
  assert (Hq : Z.quot (stride1 a * dim1 a) 2 = stride1 a * Z.quot (dim1 a) 2).
  { rewrite HN1 at 1.
    replace (stride1 a * (2 * Z.quot (dim1 a) 2))
      with (stride1 a * Z.quot (dim1 a) 2 * 2) by ring.
    apply Z.quot_mul. lia. }
  rewrite Hq.
  replace (x * stride1 a) with (stride1 a * x) by ring.
  replace (stride1 a * Z.quot (dim1 a) 2 + stride1 a * x)
    with (stride1 a * (Z.quot (dim1 a) 2 + x)) by ring.
  split; reflexivity.
Qed.

Lemma ihaar_half_sum_and_difference_witness :
  elem (ihaar example_array) 1 (2 * 1)
  = ((elem example_array 1 1
      - elem example_array 1 (Z.quot (dim1 example_array) 2 + 1)) / 2)%Q
  /\ elem (ihaar example_array) 1 (2 * 1 + 1)
     = ((elem example_array 1 1
         + elem example_array 1 (Z.quot (dim1 example_array) 2 + 1)) / 2)%Q.
Proof.
  apply (@ihaar_half_sum_and_difference example_array 1%nat 1).
  - simpl; lia.
  - reflexivity.
  - simpl; lia.
  - simpl; lia.
  - change (Z.quot (dim1 example_array) 2) with 2. lia.
Defined.

(** *** [haar] as the transform of the coefficients [{1, 1}] *)

Lemma haar_tail_zero (N1 step : Z) (b d : row) :
  0 <= N1 -> tail_zero N1 b -> tail_zero N1 (fst (haar_row N1 step (b, d))).
Proof.
  intros HN Hb k Hk.
  pose proof (haar_buffer step b d HN) as (_ & _ & Hrest). cbn zeta in Hrest.
  rewrite Hrest by exact Hk. now apply Hb.
Qed.

Lemma wavelet_tail_zero (coeffs : list Q) (n N1 step : Z) (b d : row) :
  0 <= N1 -> tail_zero N1 b ->
  tail_zero N1 (fst (wavelet_row coeffs n N1 step (b, d))).
Proof.
  intros HN Hb k Hk.
  pose proof (wavelet_buffer coeffs n step b d HN) as (_ & _ & Hrest).
  cbn zeta in Hrest. rewrite Hrest by exact Hk. now apply Hb.
Qed.

Lemma wavelet_D2_taps (N1 step : Z) (d : row) (x : Z) :
  0 <= x -> 2 * x + 1 < N1 ->
  wavelet_low Daubechies.D2 2 N1 step d x == haar_low step d x
  /\ wavelet_high Daubechies.D2 2 N1 step d x == haar_high step d x.
Proof.
  intros Hx Hx1. unfold wavelet_low, wavelet_high.
  rewrite wavelet_taps_sums by lia. cbn [fst snd].
  change (Z.to_nat 2) with 2%nat. cbn [sumQ Z.of_nat Pos.of_succ_nat Pos.succ].
  rewrite !access_in_range by lia.
  replace (2 * x + 0) with (2 * x) by ring.
  unfold haar_low, haar_high.
  change (coeff Daubechies.D2 (2 - 0 - 1)) with 1%Q.
  change (coeff Daubechies.D2 (2 - 1 - 1)) with 1%Q.
  change (coeff Daubechies.D2 0) with 1%Q.
  change (coeff Daubechies.D2 1) with 1%Q.
  change (Z.even 0) with true. change (Z.even 1) with false.
  split; ring.
Qed.

(** X3.  [haar] is the forward transform of the table of order code
    [0]: for every row length, even or odd, [haar] and [wavelet] with
    the coefficients [{1, 1}] produce the same array. *)
Theorem haar_is_wavelet_D2 (a : array2) (y : nat) (x : Z) :
  0 <= dim1 a -> stride1 a <> 0 -> 0 <= x < dim1 a ->
  elem (haar a) y x == elem (wavelet Daubechies.D2 2 a) y x.
Proof.
  intros HN Hs Hx.
  destruct (Nat.lt_ge_cases y (List.length (rows a))) as [Hy|Hy].
  - assert (H0 : tail_zero (dim1 a) zeros) by (intros k _; reflexivity).
    destruct (kernel_row haar_row (tail_zero (dim1 a)) a (y := y) H0
                (fun b d => @haar_tail_zero _ _ b d HN) Hy) as (b & Hb & E).
    destruct (kernel_row (wavelet_row Daubechies.D2 2) (tail_zero (dim1 a)) a
                (y := y) H0
                (fun b d => @wavelet_tail_zero Daubechies.D2 2 _ _ b d HN) Hy)
      as (b' & Hb' & E').
    unfold elem, haar, wavelet. rewrite E, E'. cbn [stride1 kernel].
    destruct (quot_half_nonneg HN) as [HH Hle].
    set (H := Z.quot (dim1 a) 2) in *.
    destruct (Z_lt_ge_dec x H) as [Hlt|Hge].
    + rewrite haar_row_low, wavelet_row_low by (fold H; lia).
      assert (Hx0 : 0 <= x) by lia.
      assert (Hx1 : 2 * x + 1 < dim1 a) by lia.
      destruct (wavelet_D2_taps (stride1 a) (nth y (rows a) zeros) Hx0 Hx1)
        as [El _].
      symmetry. exact El.
    + destruct (Z_lt_ge_dec x (2 * H)) as [Hlt2|Hge2].
      * replace x with (H + (x - H)) by ring.
        rewrite haar_row_high, wavelet_row_high by (fold H; lia).
        assert (Hx0 : 0 <= x - H) by lia.
        assert (Hx1 : 2 * (x - H) + 1 < dim1 a) by lia.
        destruct (wavelet_D2_taps (stride1 a) (nth y (rows a) zeros) Hx0 Hx1)
          as [_ Eh].
        symmetry. exact Eh.
      * rewrite haar_row_rest, wavelet_row_rest by (fold H; lia).
        rewrite Hb, Hb' by (fold H; lia). reflexivity.
  - rewrite !elem_out_of_rows; [reflexivity| |];
      unfold haar, wavelet; rewrite kernel_length; assumption.
Qed.

Lemma haar_is_wavelet_D2_witness :
  elem (haar odd_array) 0 1 == elem (wavelet Daubechies.D2 2 odd_array) 0 1.
Proof.
  apply (@haar_is_wavelet_D2 odd_array 0%nat 1).
  - change (dim1 odd_array) with 3. lia.
  - change (stride1 odd_array) with 1. lia.
  - change (dim1 odd_array) with 3. lia.
Defined.

(** *** What the kernels leave alone *)

Lemma copy_back_frame (N1 step : Z) (buffer data : row) (k : Z) :
  0 <= N1 -> step <> 0 ->
  (forall x, 0 <= x < N1 -> k <> step * x) ->
  copy_back N1 step buffer data k = data k.
Proof. intros HN Hs Hk. now apply copy_back_spec. Qed.

(** One row step writes only the elements of its row. *)
Lemma row_steps_frame (coeffs : list Q) (n N1 step : Z) (buffer data : row)
    (k : Z) :
  0 <= N1 -> step <> 0 ->
  (forall x, 0 <= x < N1 -> k <> step * x) ->
  snd (haar_row N1 step (buffer, data)) k = data k
  /\ snd (ihaar_row N1 step (buffer, data)) k = data k
  /\ snd (wavelet_row coeffs n N1 step (buffer, data)) k = data k
  /\ snd (iwavelet_row coeffs n N1 step (buffer, data)) k = data k.
Proof.
  intros HN Hs Hk.
  unfold haar_row, ihaar_row, wavelet_row, iwavelet_row. cbn [snd].
  repeat split; now apply copy_back_frame.
Qed.

(** The row loop on the shared memory, for a row step that writes only
    the elements of its row. *)
Lemma kernel_shared_frame (f : Z -> Z -> row * row -> row * row)
    (N0 N1 step : Z) (row_offset : Z -> Z) (m : mem Q) (c : Z) :
  (forall buffer data k,
      (forall x, 0 <= x < N1 -> k <> step * x) ->
      snd (f N1 step (buffer, data)) k = data k) ->
  (forall y x, 0 <= y < N0 -> 0 <= x < N1 -> c <> row_offset y + step * x) ->
  kernel_shared f N0 N1 step row_offset m c = m c.
Proof.
  intros Hf Hc. unfold kernel_shared.
  destruct (Z_lt_ge_dec N0 0) as [Hneg|Hpos].
  { now rewrite for_range_empty by lia. }
  loop_invariant (fun (y : Z) (st : row * mem Q) => snd st c = m c).
  - lia.
  - reflexivity.
  - intros y [buffer mm] Hy IH. cbn [snd] in IH.
    destruct (f N1 step (buffer, shift mm (row_offset y))) as [b' d'] eqn:E.
    cbn [snd].
    replace d' with (snd (f N1 step (buffer, shift mm (row_offset y))))
      by (rewrite E; reflexivity).
    rewrite Hf.
    + unfold shift. replace (row_offset y + (c - row_offset y)) with c by ring.
      exact IH.
    + intros x Hx E'. apply (Hc y x Hy Hx). lia.
  - exact Inv.
Qed.

(** X5.  On the memory that the rows of an array share, the four
    kernels write only the elements of the array: a cell that is the
    element [x] of no row [y], [0 <= y < N0] and [0 <= x < N1] (a cell
    in the gap between two elements of a strided row, or outside the
    array), holds after the call what it held before. *)
Theorem kernels_write_only_elements
    (coeffs : list Q) (n : Z) (N0 N1 step : Z) (row_offset : Z -> Z)
    (m : mem Q) (c : Z) :
  0 <= N1 -> step <> 0 ->
  (forall y x, 0 <= y < N0 -> 0 <= x < N1 -> c <> row_offset y + step * x) ->
  kernel_shared haar_row N0 N1 step row_offset m c = m c
  /\ kernel_shared ihaar_row N0 N1 step row_offset m c = m c
  /\ kernel_shared (wavelet_row coeffs n) N0 N1 step row_offset m c = m c
  /\ kernel_shared (iwavelet_row coeffs n) N0 N1 step row_offset m c = m c.
Proof.
  intros HN Hs Hc.
  repeat split; apply kernel_shared_frame; try exact Hc;
    intros buffer data k Hk;
    now apply (row_steps_frame coeffs n buffer data HN Hs Hk).
Qed.

Lemma kernels_write_only_elements_witness :
  kernel_shared haar_row 2 2 3 (fun y => 6 * y) gapped_memory 4
  = gapped_memory 4
  /\ kernel_shared ihaar_row 2 2 3 (fun y => 6 * y) gapped_memory 4
     = gapped_memory 4
  /\ kernel_shared (wavelet_row Daubechies.D4 4) 2 2 3 (fun y => 6 * y)
                   gapped_memory 4
     = gapped_memory 4
  /\ kernel_shared (iwavelet_row Daubechies.D4 4) 2 2 3 (fun y => 6 * y)
                   gapped_memory 4
     = gapped_memory 4.
Proof.
  apply (@kernels_write_only_elements Daubechies.D4 4 2 2 3 (fun y => 6 * y)
           gapped_memory 4).
  - lia.
  - lia.
  - intros y x Hy Hx. lia.
Defined.

(** *** The inverse recurrence *)

Lemma odd_tap (t : Z) : negb (_is_even t) = Z.odd t.
Proof. rewrite is_even_even. apply Z.negb_even. Qed.

Lemma iwavelet_taps_sums (coeffs : list Q) (n N1 step : Z) (low high : row)
    (x : Z) :
  0 <= n ->
  fst (iwavelet_taps N1 step coeffs n low high x)
  == inverse_sum (inv_low coeffs n)
                 (fun q => _access low (Z.quot N1 2) q step) n x
  /\ snd (iwavelet_taps N1 step coeffs n low high x)
     == inverse_sum (inv_high coeffs n)
                    (fun q => _access high (Z.quot N1 2) q step) n x.
Proof.
  intros Hn. unfold iwavelet_taps, inverse_sum.
  loop_invariant
    (fun i (st : Q * Q) =>
       (fst st
        == sumQ (Z.to_nat i)
             (fun ci =>
                if Z.odd (x + ci - n + 2)
                then inv_low coeffs n ci
                     * _access low (Z.quot N1 2) (Z.quot (x + ci - n + 2) 2) step
                else 0)%Q
        /\ snd st
           == sumQ (Z.to_nat i)
                (fun ci =>
                   if Z.odd (x + ci - n + 2)
                   then inv_high coeffs n ci
                        * _access high (Z.quot N1 2) (Z.quot (x + ci - n + 2) 2) step
                   else 0)%Q)
       /\ 0 <= i).
  - exact Hn.
  - split; [split; reflexivity | lia].
  - intros i [l h] Hi [[Hl Hh] Hi0]. cbn [fst snd] in Hl, Hh.
    split; [|lia].
    replace (Z.to_nat (i + 1)) with (S (Z.to_nat i)) by lia.
    cbn [sumQ]. rewrite Z2Nat.id by lia. rewrite <- Hl, <- Hh.
    rewrite odd_tap.
    destruct (Z.odd (x + i - n + 2)); cbn [fst snd];
      unfold inv_low, inv_high; split; ring.
  - apply Inv.
Qed.

Lemma sumQ_ext_eq (n : nat) (f g : Z -> Q) :
  (forall i, f i == g i) -> sumQ n f == sumQ n g.
Proof.
  intros Hfg. induction n as [|n IH]; [reflexivity|].
  cbn [sumQ]. now rewrite IH, (Hfg (Z.of_nat n)).
Qed.

Lemma access_low_half (a : array2) (y : nat) (q : Z) :
  _access (nth y (rows a) zeros) (Z.quot (dim1 a) 2) q (stride1 a)
  = low_half a y q.
Proof.
  unfold _access, low_half, elem.
  destruct (q <? 0); [reflexivity|].
  destruct (q >=? Z.quot (dim1 a) 2); [reflexivity|]. cbn [orb].
  now rewrite Z.mul_comm.
Qed.

Lemma access_high_half (a : array2) (y : nat) (q : Z) :
  0 <= dim1 a -> Z.even (dim1 a) = true ->
  _access (shift (nth y (rows a) zeros) (Z.quot (stride1 a * dim1 a) 2))
          (Z.quot (dim1 a) 2) q (stride1 a)
  = high_half a y q.
Proof.
  intros HN He. destruct (even_half HN He) as [HN1 _].
  unfold _access, high_half, elem, shift.
  destruct (q <? 0); [reflexivity|].
  destruct (q >=? Z.quot (dim1 a) 2); [reflexivity|]. cbn [orb].
  f_equal. rewrite HN1 at 1.
  replace (stride1 a * (2 * Z.quot (dim1 a) 2))
    with (stride1 a * Z.quot (dim1 a) 2 * 2) by ring.
  rewrite Z.quot_mul by lia. ring.
Qed.

Lemma iwavelet_elem_sums
    (coeffs : list Q) (n : Z) (a : array2) (y : nat) (x : Z) :
  0 <= n -> 0 <= dim1 a -> Z.even (dim1 a) = true -> stride1 a <> 0 ->
  (y < List.length (rows a))%nat ->
  0 <= x < dim1 a ->
  elem (iwavelet coeffs n a) y x
  == (inverse_sum (inv_low coeffs n) (low_half a y) n x
      + inverse_sum (inv_high coeffs n) (high_half a y) n x) / 2.
Proof.
  intros Hn HN He Hs Hy Hx.
  destruct (kernel_row_any (iwavelet_row coeffs n) a Hy) as (b & E).
  unfold elem, iwavelet. rewrite E. cbn [stride1 kernel].
  rewrite iwavelet_row_at by assumption.
  destruct (iwavelet_taps_sums coeffs (dim1 a) (stride1 a)
              (nth y (rows a) zeros)
              (shift (nth y (rows a) zeros) (Z.quot (stride1 a * dim1 a) 2))
              x Hn) as [El Eh].
  rewrite El, Eh. unfold inverse_sum.
  rewrite (sumQ_ext_eq (Z.to_nat n) _
             (fun ci => if Z.odd (x + ci - n + 2)
                        then inv_low coeffs n ci
                             * low_half a y (Z.quot (x + ci - n + 2) 2)
                        else 0)%Q)
    by (intros i; now rewrite access_low_half).
  rewrite (sumQ_ext_eq (Z.to_nat n)
             (fun ci => if Z.odd (x + ci - n + 2)
                        then inv_high coeffs n ci
                             * _access _ (Z.quot (dim1 a) 2)
                                       (Z.quot (x + ci - n + 2) 2) (stride1 a)
                        else 0)%Q
             (fun ci => if Z.odd (x + ci - n + 2)
                        then inv_high coeffs n ci
                             * high_half a y (Z.quot (x + ci - n + 2) 2)
                        else 0)%Q)
    by (intros i; now rewrite access_high_half).
  reflexivity.
Qed.

(** X6.  The inverse transform on a row of even length: sample [x] of
    the result is half the sum of two sums over the taps [ci] for which
    [x + ci - ncoeffs + 2] is odd, one of [coeffs[ci]] times the entry
    of the low half and one of the signed [coeffs[ncoeffs-ci-1]] times
    the entry of the high half, the entry being that odd number halved
    towards zero; entries outside a half count as zero. *)
Theorem iwavelet_recurrence
    (coeffs : list Q) (n : Z) (a : array2) (y : nat) (x : Z) :
  0 <= n -> 0 <= dim1 a -> Z.even (dim1 a) = true -> stride1 a <> 0 ->
  (y < List.length (rows a))%nat ->
  0 <= x < dim1 a ->
  elem (iwavelet coeffs n a) y x
  == (inverse_sum (inv_low coeffs n) (low_half a y) n x
      + inverse_sum (inv_high coeffs n) (high_half a y) n x) / 2.
Proof. exact (@iwavelet_elem_sums coeffs n a y x). Qed.

Lemma iwavelet_recurrence_witness :
  elem (iwavelet Daubechies.D4 4 example_array) 1 0
  == (inverse_sum (inv_low Daubechies.D4 4) (low_half example_array 1) 4 0
      + inverse_sum (inv_high Daubechies.D4 4) (high_half example_array 1) 4 0)
     / 2.
Proof.
  apply (@iwavelet_recurrence Daubechies.D4 4 example_array 1%nat 0).
  - lia.
  - cbn [dim1 example_array]. lia.
  - reflexivity.
  - cbn [stride1 example_array]. lia.
  - cbn [rows example_array List.length]. lia.
  - cbn [dim1 example_array]. lia.
Defined.

(** *** [ihaar] as the inverse transform of the coefficients [{1, 1}] *)

Lemma half_of_odd (h : Z) : 0 <= h -> Z.quot (2 * h + 1) 2 = h.
Proof.
  intros Hh. rewrite Z.quot_div_nonneg by lia.
  replace (2 * h + 1) with (1 + h * 2) by ring.
  rewrite Z.div_add by lia. reflexivity.
Qed.

Lemma inverse_sum_D2_even (wl lo : Z -> Q) (h : Z) :
  0 <= h ->
  inverse_sum wl lo 2 (2 * h) == wl 1 * lo h.
Proof.
  intros Hh. unfold inverse_sum. change (Z.to_nat 2) with 2%nat.
  cbn [sumQ Z.of_nat Pos.of_succ_nat Pos.succ].
  replace (2 * h + 0 - 2 + 2) with (2 * h) by ring.
  replace (2 * h + 1 - 2 + 2) with (2 * h + 1) by ring.
  rewrite Z.odd_mul. cbn [Z.odd andb].
  replace (Z.odd (2 * h + 1)) with true
    by (symmetry; rewrite Z.add_1_r, Z.odd_succ, Z.even_mul; reflexivity).
  rewrite half_of_odd by exact Hh. ring.
Qed.

Lemma inverse_sum_D2_odd (wl lo : Z -> Q) (h : Z) :
  0 <= h ->
  inverse_sum wl lo 2 (2 * h + 1) == wl 0 * lo h.
Proof.
  intros Hh. unfold inverse_sum. change (Z.to_nat 2) with 2%nat.
  cbn [sumQ Z.of_nat Pos.of_succ_nat Pos.succ].
  replace (2 * h + 1 + 0 - 2 + 2) with (2 * h + 1) by ring.
  replace (2 * h + 1 + 1 - 2 + 2) with (2 * (h + 1)) by ring.
  rewrite Z.odd_mul. cbn [Z.odd andb].
  replace (Z.odd (2 * h + 1)) with true
    by (symmetry; rewrite Z.add_1_r, Z.odd_succ, Z.even_mul; reflexivity).
  rewrite half_of_odd by exact Hh. ring.
Qed.

(** X4.  [ihaar] is the inverse transform of the table of order code
    [0]: on every array of even row length, [ihaar] and [iwavelet] with
    the coefficients [{1, 1}] produce the same array. *)
Theorem ihaar_is_iwavelet_D2 (a : array2) (y : nat) (x : Z) :
  0 <= dim1 a -> Z.even (dim1 a) = true -> stride1 a <> 0 ->
  0 <= x < dim1 a ->
  elem (ihaar a) y x == elem (iwavelet Daubechies.D2 2 a) y x.
Proof.
  intros HN He Hs Hx.
  destruct (Nat.lt_ge_cases y (List.length (rows a))) as [Hy|Hy].
  - rewrite (@iwavelet_elem_sums Daubechies.D2 2 a y x) by (try assumption; lia).
    destruct (even_half HN He) as [HN1 HH].
    assert (Hcase : exists h, 0 <= h < Z.quot (dim1 a) 2
                              /\ (x = 2 * h \/ x = 2 * h + 1)).
    { exists (x / 2).
      pose proof (Z.div_mod x 2 ltac:(lia)) as Hdm.
      pose proof (Z.mod_pos_bound x 2 ltac:(lia)) as Hm.
      split; [split; [apply Z.div_pos; lia | apply Z.div_lt_upper_bound; lia]
             | lia]. }
    destruct Hcase as (h & Hh & Hcase).
    destruct (kernel_row_any ihaar_row a Hy) as (b & E).
    assert (Hq : Z.quot (stride1 a * dim1 a) 2 = stride1 a * Z.quot (dim1 a) 2).
    { rewrite HN1 at 1.
      replace (stride1 a * (2 * Z.quot (dim1 a) 2))
        with (stride1 a * Z.quot (dim1 a) 2 * 2) by ring.
      apply Z.quot_mul. lia. }
    assert (Hlo : low_half a y h = nth y (rows a) zeros (h * stride1 a)).
    { unfold low_half, elem.
      destruct (Z.ltb_spec h 0); [lia|].
      destruct (Z.geb_spec h (Z.quot (dim1 a) 2)); [lia|]. cbn [orb].
      f_equal. ring. }
    assert (Hhi : high_half a y h
                  = nth y (rows a) zeros
                        (Z.quot (stride1 a * dim1 a) 2 + h * stride1 a)).
    { unfold high_half, elem.
      destruct (Z.ltb_spec h 0); [lia|].
      destruct (Z.geb_spec h (Z.quot (dim1 a) 2)); [lia|]. cbn [orb].
      f_equal. rewrite Hq. ring. }
    destruct Hcase as [-> | ->].
    + rewrite !inverse_sum_D2_even by lia. rewrite Hlo, Hhi.
      unfold elem at 1. unfold ihaar. rewrite E. cbn [stride1 kernel].
      rewrite ihaar_row_even by lia. unfold ihaar_even.
      change (inv_low Daubechies.D2 2 1) with 1%Q.
      change (inv_high Daubechies.D2 2 1) with ((-1) * 1)%Q.
      field.
    + rewrite !inverse_sum_D2_odd by lia. rewrite Hlo, Hhi.
      unfold elem at 1. unfold ihaar. rewrite E. cbn [stride1 kernel].
      rewrite ihaar_row_odd by lia. unfold ihaar_odd.
      change (inv_low Daubechies.D2 2 0) with 1%Q.
      change (inv_high Daubechies.D2 2 0) with (1 * 1)%Q.
      field.
  - rewrite !elem_out_of_rows; [reflexivity| |];
      unfold ihaar, iwavelet; rewrite kernel_length; assumption.
Qed.

Lemma ihaar_is_iwavelet_D2_witness :
  elem (ihaar example_array) 1 3
  == elem (iwavelet Daubechies.D2 2 example_array) 1 3.
Proof.
  apply (@ihaar_is_iwavelet_D2 example_array 1%nat 3).
  - cbn [dim1 example_array]. lia.
  - reflexivity.
  - cbn [stride1 example_array]. lia.
  - cbn [dim1 example_array]. lia.
Defined.

(** *** Linearity *)

Lemma combine_rows_length (alpha : Q) (ra rb : list row) :
  List.length rb = List.length ra ->
  List.length (combine_rows alpha ra rb) = List.length ra.
Proof.
  revert rb. induction ra as [|r ra IH]; intros [|r' rb] H; simpl in *;
    try reflexivity; try discriminate. f_equal. apply IH. lia.
Qed.

Lemma combine_rows_nth (alpha : Q) (ra rb : list row) (y : nat) :
  List.length rb = List.length ra -> (y < List.length ra)%nat ->
  nth y (combine_rows alpha ra rb) zeros
  = (fun k => alpha * nth y ra zeros k + nth y rb zeros k)%Q.
Proof.
  revert rb y. induction ra as [|r ra IH]; intros [|r' rb] y H Hy; simpl in *;
    try lia; try discriminate.
  destruct y as [|y]; [reflexivity|]. apply IH; lia.
Qed.

Lemma sumQ_linear (n : nat) (alpha : Q) (w f g h : Z -> Q) :
  (forall i, h i == alpha * f i + g i) ->
  sumQ n (fun i => w i * h i)%Q
  == alpha * sumQ n (fun i => w i * f i)%Q + sumQ n (fun i => w i * g i)%Q.
Proof.
  intros Hh. induction n as [|n IH]; cbn [sumQ]; [ring|].
  rewrite IH, (Hh (Z.of_nat n)). ring.
Qed.

Lemma access_linear (alpha : Q) (r r' : row) (N step p : Z) :
  _access (fun k => alpha * r k + r' k)%Q N p step
  == alpha * _access r N p step + _access r' N p step.
Proof.
  unfold _access. destruct (p <? 0); [ring|]. destruct (p >=? N); [ring|].
  reflexivity.
Qed.

Lemma wavelet_taps_linear (coeffs : list Q) (n N1 step : Z) (alpha : Q)
    (r r' : row) (x : Z) :
  0 <= n ->
  wavelet_low coeffs n N1 step (fun k => alpha * r k + r' k)%Q x
  == alpha * wavelet_low coeffs n N1 step r x + wavelet_low coeffs n N1 step r' x
  /\ wavelet_high coeffs n N1 step (fun k => alpha * r k + r' k)%Q x
     == alpha * wavelet_high coeffs n N1 step r x
        + wavelet_high coeffs n N1 step r' x.
Proof.
  intros Hn. unfold wavelet_low, wavelet_high.
  rewrite !wavelet_taps_sums by exact Hn. cbn [fst snd]. split.
  - apply (@sumQ_linear (Z.to_nat n) alpha
             (fun ci => coeff coeffs (n - ci - 1))
             (fun ci => _access r N1 (2 * x + ci) step)
             (fun ci => _access r' N1 (2 * x + ci) step)
             (fun ci => _access (fun k => alpha * r k + r' k)%Q N1
                                (2 * x + ci) step)).
    intros i. apply access_linear.
  - apply (@sumQ_linear (Z.to_nat n) alpha
             (fun ci => (if Z.even ci then -1 else 1) * coeff coeffs ci)%Q
             (fun ci => _access r N1 (2 * x + ci) step)
             (fun ci => _access r' N1 (2 * x + ci) step)
             (fun ci => _access (fun k => alpha * r k + r' k)%Q N1
                                (2 * x + ci) step)).
    intros i. apply access_linear.
Qed.

Lemma inverse_sum_linear (alpha : Q) (w f g h : Z -> Q) (n x : Z) :
  (forall q, h q == alpha * f q + g q) ->
  inverse_sum w h n x == alpha * inverse_sum w f n x + inverse_sum w g n x.
Proof.
  intros Hh. unfold inverse_sum.
  induction (Z.to_nat n) as [|m IH]; cbn [sumQ]; [ring|].
  rewrite IH. destruct (Z.odd (x + Z.of_nat m - n + 2)); [|ring].
  rewrite Hh. ring.
Qed.

(** X7.  The forward and the inverse transform are linear: the transform
    of [alpha * a + b] is [alpha] times the transform of [a] plus the
    transform of [b], element by element, for arrays of one shape. *)
Theorem transforms_are_linear
    (coeffs : list Q) (n : Z) (alpha : Q) (a b : array2) (y : nat) (x : Z) :
  0 <= n -> 0 <= dim1 a -> stride1 a <> 0 ->
  dim1 b = dim1 a -> stride1 b = stride1 a ->
  List.length (rows b) = List.length (rows a) ->
  0 <= x < dim1 a ->
  elem (wavelet coeffs n (axpy alpha a b)) y x
  == alpha * elem (wavelet coeffs n a) y x + elem (wavelet coeffs n b) y x
  /\ elem (iwavelet coeffs n (axpy alpha a b)) y x
     == alpha * elem (iwavelet coeffs n a) y x + elem (iwavelet coeffs n b) y x.
Proof.
  intros Hn HN Hs Hd Hst Hlen Hx.
  assert (Hlab : List.length (rows (axpy alpha a b)) = List.length (rows a))
    by (apply combine_rows_length; exact Hlen).
  destruct (Nat.lt_ge_cases y (List.length (rows a))) as [Hy|Hy].
  - assert (Hyb : (y < List.length (rows b))%nat) by lia.
    assert (Hyab : (y < List.length (rows (axpy alpha a b)))%nat) by lia.
    assert (Erow : nth y (rows (axpy alpha a b)) zeros
                   = (fun k => alpha * nth y (rows a) zeros k
                               + nth y (rows b) zeros k)%Q)
      by (apply combine_rows_nth; assumption).
    assert (HNb : 0 <= dim1 b) by lia.
    split.
    + assert (H0 : tail_zero (dim1 a) zeros) by (intros k _; reflexivity).
      assert (H0b : tail_zero (dim1 b) zeros) by (intros k _; reflexivity).
      destruct (kernel_row (wavelet_row coeffs n) (tail_zero (dim1 a)) a
                  (y := y) H0
                  (fun b0 d => @wavelet_tail_zero coeffs n _ _ b0 d HN) Hy)
        as (ba & Hba & Ea).
      destruct (kernel_row (wavelet_row coeffs n) (tail_zero (dim1 b)) b
                  (y := y) H0b
                  (fun b0 d => @wavelet_tail_zero coeffs n _ _ b0 d HNb) Hyb)
        as (bb & Hbb & Eb).
      destruct (kernel_row (wavelet_row coeffs n) (tail_zero (dim1 a))
                  (axpy alpha a b) (y := y) H0
                  (fun b0 d => @wavelet_tail_zero coeffs n _ _ b0 d HN) Hyab)
        as (bab & Hbab & Eab).
      unfold elem, wavelet. rewrite Ea, Eb, Eab.
      cbn [stride1 dim1 kernel axpy]. rewrite Hd, Hst in *. rewrite Erow.
      destruct (quot_half_nonneg HN) as [HH Hle].
      set (H := Z.quot (dim1 a) 2) in *.
      destruct (Z_lt_ge_dec x H) as [Hlt|Hge].
      * rewrite !wavelet_row_low by (fold H; lia).
        apply wavelet_taps_linear. exact Hn.
      * destruct (Z_lt_ge_dec x (2 * H)) as [Hlt2|Hge2].
        -- replace x with (H + (x - H)) by ring.
           rewrite !wavelet_row_high by (fold H; lia).
           apply wavelet_taps_linear. exact Hn.
        -- rewrite !wavelet_row_rest by (fold H; lia).
           rewrite Hba, Hbb, Hbab by (fold H; lia). ring.
    + destruct (kernel_row_any (iwavelet_row coeffs n) a Hy) as (ba & Ea).
      destruct (kernel_row_any (iwavelet_row coeffs n) b Hyb) as (bb & Eb).
      destruct (kernel_row_any (iwavelet_row coeffs n) (axpy alpha a b) Hyab)
        as (bab & Eab).
      unfold elem, iwavelet. rewrite Ea, Eb, Eab.
      cbn [stride1 dim1 kernel axpy]. rewrite Hd, Hst. rewrite Erow.
      rewrite !iwavelet_row_at by assumption.
      set (off := Z.quot (stride1 a * dim1 a) 2).
      destruct (iwavelet_taps_sums coeffs (dim1 a) (stride1 a)
                  (fun k => alpha * nth y (rows a) zeros k
                            + nth y (rows b) zeros k)%Q
                  (shift (fun k => alpha * nth y (rows a) zeros k
                                   + nth y (rows b) zeros k)%Q off) x Hn)
        as [Elab Ehab].
      destruct (iwavelet_taps_sums coeffs (dim1 a) (stride1 a)
                  (nth y (rows a) zeros) (shift (nth y (rows a) zeros) off) x Hn)
        as [Ela Eha].
      destruct (iwavelet_taps_sums coeffs (dim1 a) (stride1 a)
                  (nth y (rows b) zeros) (shift (nth y (rows b) zeros) off) x Hn)
        as [Elb Ehb].
      rewrite Elab, Ehab, Ela, Eha, Elb, Ehb.
      rewrite (@inverse_sum_linear alpha (inv_low coeffs n)
                 (fun q => _access (nth y (rows a) zeros) (Z.quot (dim1 a) 2) q
                                   (stride1 a))
                 (fun q => _access (nth y (rows b) zeros) (Z.quot (dim1 a) 2) q
                                   (stride1 a))
                 (fun q => _access (fun k => alpha * nth y (rows a) zeros k
                                             + nth y (rows b) zeros k)%Q
                                   (Z.quot (dim1 a) 2) q (stride1 a)) n x)
        by (intros q; apply access_linear).
      rewrite (@inverse_sum_linear alpha (inv_high coeffs n)
                 (fun q => _access (shift (nth y (rows a) zeros) off)
                                   (Z.quot (dim1 a) 2) q (stride1 a))
                 (fun q => _access (shift (nth y (rows b) zeros) off)
                                   (Z.quot (dim1 a) 2) q (stride1 a))
                 (fun q => _access
                             (shift (fun k => alpha * nth y (rows a) zeros k
                                              + nth y (rows b) zeros k)%Q off)
                             (Z.quot (dim1 a) 2) q (stride1 a)) n x)
        by (intros q;
            apply (@access_linear alpha (shift (nth y (rows a) zeros) off)
                     (shift (nth y (rows b) zeros) off))).
      field.
  - rewrite !elem_out_of_rows; [split; ring | | | | | |];
      unfold wavelet, iwavelet; rewrite kernel_length; lia.
Qed.

Lemma transforms_are_linear_witness :
  elem (wavelet Daubechies.D4 4 (axpy 2 example_array example_array)) 1 0
  == 2 * elem (wavelet Daubechies.D4 4 example_array) 1 0
     + elem (wavelet Daubechies.D4 4 example_array) 1 0
  /\ elem (iwavelet Daubechies.D4 4 (axpy 2 example_array example_array)) 1 0
     == 2 * elem (iwavelet Daubechies.D4 4 example_array) 1 0
        + elem (iwavelet Daubechies.D4 4 example_array) 1 0.
Proof.
  apply (@transforms_are_linear Daubechies.D4 4 2 example_array example_array
           1%nat 0).
  - lia.
  - cbn [dim1 example_array]. lia.
  - cbn [stride1 example_array]. lia.
  - reflexivity.
  - reflexivity.
  - reflexivity.
  - cbn [dim1 example_array]. lia.
Defined.

(** *** The forward transform followed by the inverse one *)

Lemma near_identity_one (f : lform) (g : Z -> Q) (M : Q) :
  (forall e, Qabs (g e) <= M)%Q ->
  (Qabs (lin_eval f g - g 0%Z)
   <= abs_sum (normalise (((-1)%Q, 0%Z) :: f)) * M)%Q.
Proof.
  intros Hg.
  assert (E : (lin_eval f g - g 0%Z
               == lin_eval (normalise (((-1)%Q, 0%Z) :: f)) g)%Q).
  { rewrite normalise_eval. cbn [lin_eval]. ring. }
  rewrite E. now apply lin_eval_bound.
Qed.

Lemma rev_pair_eval (coeffs : list Q) (n ci q x : Z) (S : Z -> Q)
    (cjs : list Z) :
  2 * q = x + ci - n + 1 ->
  (inv_low coeffs n ci * lin_eval (fwd_form (fwd_low coeffs n) q cjs) S
   + inv_high coeffs n ci * lin_eval (fwd_form (fwd_high coeffs n) q cjs) S) / 2
  == lin_eval (rev_pair coeffs n ci cjs) (fun e => S (x + e)).
Proof.
  intros Hq. induction cjs as [|cj cjs IH].
  - cbn [fwd_form map rev_pair lin_eval]. field.
  - unfold fwd_form, rev_pair in *. cbn [map lin_eval]. rewrite <- IH.
    replace (x + (ci + cj - n + 1)) with (2 * q + cj) by lia. field.
Qed.

Section Reverse.

Variables (coeffs : list Q) (n N1 step : Z) (buffer data : row).
Hypothesis Hn : 0 <= n.
Hypothesis Hn2 : Z.even n = true.
Hypothesis HN : 0 <= N1.
Hypothesis HNe : Z.even N1 = true.
Hypothesis Hstep : step <> 0.

(** The row that [wavelet] leaves, and its two halves as [iwavelet]
    reads them. *)
Let data1 : row := snd (wavelet_row coeffs n N1 step (buffer, data)).
Let AL1 : Z -> Q := fun q => _access data1 (Z.quot N1 2) q step.
Let AH1 : Z -> Q :=
  fun q => _access (shift data1 (Z.quot (step * N1) 2)) (Z.quot N1 2) q step.
Let S : Z -> Q := fun p => _access data N1 p step.

Lemma halves_after_wavelet (q : Z) :
  0 <= q < Z.quot N1 2 ->
  AL1 q == lin_eval (fwd_form (fwd_low coeffs n) q (range n)) S
  /\ AH1 q == lin_eval (fwd_form (fwd_high coeffs n) q (range n)) S.
Proof.
  intros Hq. destruct (even_half HN HNe) as [HN1 HH].
  assert (Hoff : Z.quot (step * N1) 2 = step * Z.quot N1 2).
  { rewrite HN1 at 1.
    replace (step * (2 * Z.quot N1 2)) with (step * Z.quot N1 2 * 2) by ring.
    apply Z.quot_mul. lia. }
  destruct (wavelet_taps_forms coeffs N1 step data q Hn) as [El Eh].
  unfold AL1, AH1, data1. rewrite !access_in_range by lia. unfold shift.
  rewrite Hoff.
  replace (q * step) with (step * q) by ring.
  replace (step * Z.quot N1 2 + step * q) with (step * (Z.quot N1 2 + q)) by ring.
  rewrite wavelet_row_low, wavelet_row_high by assumption.
  split; assumption.
Qed.

Lemma inv_over_fwd (x : Z) (cis : list Z) :
  (forall ci, In ci cis -> 0 <= ci < n) ->
  n - 2 <= x < N1 ->
  (lin_eval (inv_form n (inv_low coeffs n) x cis) AL1
   + lin_eval (inv_form n (inv_high coeffs n) x cis) AH1) / 2
  == lin_eval (rev_terms coeffs n (Z.odd x) cis) (fun e => S (x + e)).
Proof.
  intros Hcis Hx. destruct (even_half HN HNe) as [HN1 HH].
  induction cis as [|ci cis IH].
  - cbn [inv_form rev_terms flat_map lin_eval]. field.
  - unfold inv_form, rev_terms in *. cbn [flat_map].
    rewrite !lin_eval_app, <- IH by (intros c Hc; apply Hcis; now right).
    clear IH. assert (Hci : 0 <= ci < n) by (apply Hcis; now left).
    rewrite odd_tap.
    assert (Hpar : Z.odd (x + ci - n + 2) = negb (Bool.eqb (Z.odd ci) (Z.odd x))).
    { replace (x + ci - n + 2) with (x + ci + (2 - n)) by ring.
      rewrite !Z.odd_add, Z.odd_sub. rewrite <- (Z.negb_even n), Hn2.
      cbn. destruct (Z.odd x), (Z.odd ci); reflexivity. }
    rewrite Hpar.
    destruct (Bool.eqb (Z.odd ci) (Z.odd x)) eqn:E; cbn [negb lin_eval].
    + field.
    + assert (Ho : Z.odd (x + ci - n + 2) = true) by (rewrite Hpar; reflexivity).
      apply Z.odd_spec in Ho. destruct Ho as [q Hq].
      assert (Hq0 : 0 <= q < Z.quot N1 2) by lia.
      rewrite Hq, half_of_odd by lia.
      destruct (halves_after_wavelet Hq0) as [El Eh]. rewrite El, Eh.
      rewrite <- (@rev_pair_eval coeffs n ci q x S (range n)) by lia.
      field.
Qed.

End Reverse.

(** [iwavelet] after [wavelet] on one row, away from its start. *)
Lemma iwavelet_wavelet_row (coeffs : list Q) (n N1 step : Z) (b1 b2 data : row)
    (x : Z) (M : Q) :
  0 <= n -> Z.even n = true -> 0 <= N1 -> Z.even N1 = true -> step <> 0 ->
  (forall p, 0 <= p < N1 -> (Qabs (data (step * p)%Z) <= M)%Q) ->
  n - 2 <= x < N1 -> 0 <= x ->
  (Qabs (snd (iwavelet_row coeffs n N1 step
                (b2, snd (wavelet_row coeffs n N1 step (b1, data))))
             (step * x)%Z
         - data (step * x)%Z)
   <= rev_defect coeffs n (Z.odd x) * M)%Q.
Proof.
  intros Hn Hn2 HN He Hs HM Hx Hx0.
  assert (HM0 : (0 <= M)%Q).
  { eapply Qle_trans; [apply Qabs_nonneg | apply (HM x); lia]. }
  rewrite iwavelet_row_at by (try assumption; lia).
  destruct (iwavelet_taps_forms coeffs N1 step
              (snd (wavelet_row coeffs n N1 step (b1, data)))
              (shift (snd (wavelet_row coeffs n N1 step (b1, data)))
                     (Z.quot (step * N1) 2)) x Hn) as [El Eh].
  rewrite El, Eh.
  pose proof (@inv_over_fwd coeffs n N1 step b1 data Hn Hn2 HN He Hs x (range n))
    as F.
  cbv zeta in F. rewrite F; [|intros ci Hci; apply range_in in Hci; lia | lia].
  assert (E0 : data (step * x) = _access data N1 (x + 0) step).
  { rewrite Z.add_0_r, access_in_range by lia. f_equal. ring. }
  rewrite E0. unfold rev_defect, rev_form.
  apply (near_identity_one _ (fun e => _access data N1 (x + e) step)).
  intros e. apply access_bound; [exact HM0|]. intros q Hq.
  replace (q * step) with (step * q) by ring. now apply HM.
Qed.

Lemma rev_defect_le (k : Z) (c : list Q) (b : bool) :
  Daubechies.dcoeffs k = Some c ->
  (rev_defect c (2 * (k + 1)) b <= reverse_round_trip_defect k)%Q.
Proof.
  intros E. unfold reverse_round_trip_defect. rewrite E, Qred_correct.
  destruct b; [apply Q.le_max_r | apply Q.le_max_l].
Qed.

Lemma reverse_round_trip_defect_small (k : Z) :
  (reverse_round_trip_defect k <= 2 # 1000000)%Q.
Proof.
  assert (Hc : 0 <= k <= 9 \/ Daubechies.dcoeffs k = None).
  { destruct (Daubechies.dcoeffs k) as [c|] eqn:E; [left|now right].
    now apply dcoeffs_range in E. }
  destruct Hc as [Hk|E].
  - assert (Hk' : k = 0 \/ k = 1 \/ k = 2 \/ k = 3 \/ k = 4 \/ k = 5 \/ k = 6
                  \/ k = 7 \/ k = 8 \/ k = 9) by lia.
    apply Qle_bool_iff.
    destruct Hk' as [->|[->|[->|[->|[->|[->|[->|[->|[->| ->]]]]]]]]];
      vm_compute; reflexivity.
  - unfold reverse_round_trip_defect. rewrite E. discriminate.
Qed.

(** X8.  For every order code [k] in [0 .. 9] and every 2-D array with
    even row length, the forward Daubechies transform followed by the
    inverse one restores the elements [x] of a row with
    [2k <= x < N1], up to the defect of the coefficient table (at most
    [2e-6], and zero for [k = 0]) times the largest magnitude [M] of the
    row.  (For the first [2k] elements of a row the inverse transform
    reads entries before the start of a half, which count as zero.) *)
Theorem daubechies_reverse_round_trip
    (k : Z) (c : list Q) (a : array2) (y : nat) (x : Z) (M : Q) :
  Daubechies.dcoeffs k = Some c ->
  0 <= dim1 a -> Z.even (dim1 a) = true -> stride1 a <> 0 ->
  (y < List.length (rows a))%nat ->
  (forall p, 0 <= p < dim1 a -> (Qabs (elem a y p) <= M)%Q) ->
  2 * k <= x < dim1 a ->
  (Qabs (elem (iwavelet c (2 * (k + 1)) (wavelet c (2 * (k + 1)) a)) y x
         - elem a y x)
   <= reverse_round_trip_defect k * M)%Q
  /\ (reverse_round_trip_defect k <= 2 # 1000000)%Q
  /\ (k = 0 -> reverse_round_trip_defect k == 0).
Proof.
  intros Hc HN He Hs Hy HM Hx.
  assert (Hk : 0 <= k <= 9) by (eapply dcoeffs_range; exact Hc).
  assert (HM0 : (0 <= M)%Q).
  { eapply Qle_trans; [apply Qabs_nonneg | apply (HM x)]. lia. }
  assert (Hy1 : (y < List.length (rows (wavelet c (2 * (k + 1)) a)))%nat)
    by (unfold wavelet; now rewrite kernel_length).
  destruct (kernel_row_any (iwavelet_row c (2 * (k + 1)))
              (wavelet c (2 * (k + 1)) a) Hy1) as (b2 & E2).
  destruct (kernel_row_any (wavelet_row c (2 * (k + 1))) a Hy) as (b1 & E1).
  assert (Er : nth y (rows (iwavelet c (2 * (k + 1)) (wavelet c (2 * (k + 1)) a)))
                 zeros
               = snd (iwavelet_row c (2 * (k + 1)) (dim1 a) (stride1 a)
                        (b2, snd (wavelet_row c (2 * (k + 1)) (dim1 a) (stride1 a)
                                    (b1, nth y (rows a) zeros))))).
  { unfold iwavelet. rewrite E2. unfold wavelet. rewrite E1. reflexivity. }
  repeat split.
  - unfold elem.
    change (stride1 (iwavelet c (2 * (k + 1)) (wavelet c (2 * (k + 1)) a)))
      with (stride1 a).
    rewrite Er.
    eapply Qle_trans.
    + apply (@iwavelet_wavelet_row c (2 * (k + 1)) (dim1 a) (stride1 a) b1 b2
               (nth y (rows a) zeros) x M); try assumption; try lia.
      rewrite Z.even_mul. reflexivity.
    + apply Qmult_le_compat_r; [|exact HM0]. now apply rev_defect_le.
  - apply reverse_round_trip_defect_small.
  - intros ->. vm_compute. reflexivity.
Qed.

Lemma example_row_bound (p : Z) :
  0 <= p < dim1 example_array -> (Qabs (elem example_array 1 p) <= 8)%Q.
Proof.
  intros Hp. change (dim1 example_array) with 4 in Hp.
  assert (Hc : p = 0 \/ p = 1 \/ p = 2 \/ p = 3) by lia.
  destruct Hc as [->|[->|[->| ->]]]; vm_compute; discriminate.
Qed.

Lemma daubechies_reverse_round_trip_witness :
  (Qabs (elem (iwavelet Daubechies.D4 (2 * (1 + 1))
                 (wavelet Daubechies.D4 (2 * (1 + 1)) example_array)) 1 2
         - elem example_array 1 2)
   <= reverse_round_trip_defect 1 * 8)%Q
  /\ (reverse_round_trip_defect 1 <= 2 # 1000000)%Q
  /\ (1 = 0 -> reverse_round_trip_defect 1 == 0).
Proof.
  apply (@daubechies_reverse_round_trip 1 Daubechies.D4 example_array 1%nat 2 8).
  - reflexivity.
  - cbn [dim1 example_array]. lia.
  - reflexivity.
  - cbn [stride1 example_array]. lia.
  - cbn [rows example_array List.length]. lia.
  - exact example_row_bound.
  - cbn [dim1 example_array]. lia.
Defined.

(** *** The forward transform of a constant row *)

Lemma sumQ_scale (n : nat) (w : Z -> Q) (v : Q) :
  sumQ n (fun i => w i * v)%Q == (sumQ n w * v)%Q.
Proof.
  induction n as [|n IH]; cbn [sumQ]; [ring|]. rewrite IH. ring.
Qed.

Lemma wavelet_taps_constant (coeffs : list Q) (n N1 step : Z) (data : row)
    (x : Z) (v : Q) :
  0 <= n -> 0 <= x -> 2 * x + n <= N1 ->
  (forall p, 0 <= p < N1 -> data (step * p)%Z == v) ->
  wavelet_low coeffs n N1 step data x
  == (weight_sum (fwd_low coeffs n) n * v)%Q
  /\ wavelet_high coeffs n N1 step data x
     == (weight_sum (fwd_high coeffs n) n * v)%Q.
Proof.
  intros Hn Hx Hin Hv. unfold wavelet_low, wavelet_high, weight_sum.
  rewrite wavelet_taps_sums by exact Hn. cbn [fst snd].
  assert (Ha : forall ci, 0 <= ci < Z.of_nat (Z.to_nat n) ->
                 _access data N1 (2 * x + ci) step == v).
  { intros ci Hci. rewrite access_in_range by lia.
    rewrite Z.mul_comm. apply Hv. lia. }
  split.
  - rewrite <- sumQ_scale. apply WaveletClaims.sumQ_ext. intros ci Hci.
    rewrite (Ha ci Hci). reflexivity.
  - rewrite <- sumQ_scale. apply WaveletClaims.sumQ_ext. intros ci Hci.
    rewrite (Ha ci Hci). reflexivity.
Qed.

Lemma constant_defect_small (k : Z) : (constant_defect k <= 2 # 1000000)%Q.
Proof.
  assert (Hc : 0 <= k <= 9 \/ Daubechies.dcoeffs k = None).
  { destruct (Daubechies.dcoeffs k) as [c|] eqn:E; [left|now right].
    now apply dcoeffs_range in E. }
  destruct Hc as [Hk|E].
  - assert (Hk' : k = 0 \/ k = 1 \/ k = 2 \/ k = 3 \/ k = 4 \/ k = 5 \/ k = 6
                  \/ k = 7 \/ k = 8 \/ k = 9) by lia.
    apply Qle_bool_iff.
    destruct Hk' as [->|[->|[->|[->|[->|[->|[->|[->|[->| ->]]]]]]]]];
      vm_compute; reflexivity.
  - unfold constant_defect. rewrite E. discriminate.
Qed.

(** X18.  On a row whose samples all equal [v], the forward Daubechies
    transform of order code [k] gives, at every index [x] whose taps
    all fall inside the row ([2x + 2(k+1) <= N1]), the low output [2v]
    and the high output [0] within [2e-6 * |v|], the rounding of the
    tabulated coefficients; for [k = 0], whose coefficients are [1] and
    [1], the two outputs are [2v] and [0]. *)
Theorem wavelet_of_constant_row
    (k : Z) (c : list Q) (a : array2) (y : nat) (x : Z) (v : Q) :
  Daubechies.dcoeffs k = Some c ->
  0 <= dim1 a -> stride1 a <> 0 -> (y < List.length (rows a))%nat ->
  (forall p, 0 <= p < dim1 a -> elem a y p == v) ->
  0 <= x -> 2 * x + 2 * (k + 1) <= dim1 a ->
  (Qabs (elem (wavelet c (2 * (k + 1)) a) y x - 2 * v)
   <= (2 # 1000000) * Qabs v)%Q
  /\ (Qabs (elem (wavelet c (2 * (k + 1)) a) y (Z.quot (dim1 a) 2 + x))
      <= (2 # 1000000) * Qabs v)%Q
  /\ (k = 0 ->
      elem (wavelet c (2 * (k + 1)) a) y x == (2 * v)%Q
      /\ elem (wavelet c (2 * (k + 1)) a) y (Z.quot (dim1 a) 2 + x) == 0%Q).
Proof.
  intros Hc HN Hs Hy Hv Hx Hin.
  assert (Hk : 0 <= k <= 9) by (eapply dcoeffs_range; exact Hc).
  destruct (quot_half_nonneg HN) as [Hh0 Hh1].
  assert (Hxh : 0 <= x < Z.quot (dim1 a) 2).
  { split; [exact Hx|]. rewrite Z.quot_div_nonneg by lia.
    apply Z.lt_le_trans with (x + 1); [lia|].
    apply Z.div_le_lower_bound; lia. }
  destruct (kernel_row_any (wavelet_row c (2 * (k + 1))) a Hy) as (b & E).
  destruct (@wavelet_taps_constant c (2 * (k + 1)) (dim1 a) (stride1 a)
              (nth y (rows a) zeros) x v) as [El Eh]; try lia.
  { intros p Hp. apply Hv. exact Hp. }
  assert (Elow : elem (wavelet c (2 * (k + 1)) a) y x
                 == (weight_sum (fwd_low c (2 * (k + 1))) (2 * (k + 1)) * v)%Q).
  { unfold elem, wavelet. rewrite E. cbn [stride1 kernel].
    rewrite wavelet_row_low by assumption. exact El. }
  assert (Ehigh : elem (wavelet c (2 * (k + 1)) a) y (Z.quot (dim1 a) 2 + x)
                  == (weight_sum (fwd_high c (2 * (k + 1))) (2 * (k + 1)) * v)%Q).
  { unfold elem, wavelet. rewrite E. cbn [stride1 kernel].
    rewrite wavelet_row_high by assumption. exact Eh. }
  assert (Dl : (Qabs (weight_sum (fwd_low c (2 * (k + 1))) (2 * (k + 1)) - 2)
                <= 2 # 1000000)%Q).
  { eapply Qle_trans; [|apply (constant_defect_small k)].
    unfold constant_defect. rewrite Hc, Qred_correct. apply Q.le_max_l. }
  assert (Dh : (Qabs (weight_sum (fwd_high c (2 * (k + 1))) (2 * (k + 1)))
                <= 2 # 1000000)%Q).
  { eapply Qle_trans; [|apply (constant_defect_small k)].
    unfold constant_defect. rewrite Hc, Qred_correct. apply Q.le_max_r. }
  split; [|split].
  - rewrite Elow.
    setoid_replace
      (weight_sum (fwd_low c (2 * (k + 1))) (2 * (k + 1)) * v - 2 * v)%Q
      with ((weight_sum (fwd_low c (2 * (k + 1))) (2 * (k + 1)) - 2) * v)%Q
      by ring.
    rewrite Qabs_Qmult. apply Qmult_le_compat_r; [exact Dl|apply Qabs_nonneg].
  - rewrite Ehigh.
    rewrite Qabs_Qmult. apply Qmult_le_compat_r; [exact Dh|apply Qabs_nonneg].
  - intros E0. subst k.
    change (Daubechies.dcoeffs 0) with (Some Daubechies.D2) in Hc.
    injection Hc as <-.
    assert (Wl : weight_sum (fwd_low Daubechies.D2 (2 * (0 + 1))) (2 * (0 + 1))
                 == 2%Q) by reflexivity.
    assert (Wh : weight_sum (fwd_high Daubechies.D2 (2 * (0 + 1))) (2 * (0 + 1))
                 == 0%Q) by reflexivity.
    rewrite Elow, Ehigh, Wl, Wh. split; ring.
Qed.

Lemma flat_array_constant (p : Z) :
  0 <= p < dim1 flat_array -> elem flat_array 0 p == 3%Q.
Proof.
  intros Hp. change (dim1 flat_array) with 6 in Hp.
  assert (Hc : p = 0 \/ p = 1 \/ p = 2 \/ p = 3 \/ p = 4 \/ p = 5) by lia.
  destruct Hc as [->|[->|[->|[->|[->| ->]]]]]; reflexivity.
Qed.

Lemma wavelet_of_constant_row_witness :
  (Qabs (elem (wavelet Daubechies.D4 (2 * (1 + 1)) flat_array) 0 1 - 2 * 3)
   <= (2 # 1000000) * Qabs 3)%Q
  /\ (Qabs (elem (wavelet Daubechies.D4 (2 * (1 + 1)) flat_array) 0
                 (Z.quot (dim1 flat_array) 2 + 1))
      <= (2 # 1000000) * Qabs 3)%Q
  /\ (1 = 0 ->
      elem (wavelet Daubechies.D4 (2 * (1 + 1)) flat_array) 0 1 == (2 * 3)%Q
      /\ elem (wavelet Daubechies.D4 (2 * (1 + 1)) flat_array) 0
              (Z.quot (dim1 flat_array) 2 + 1) == 0%Q).
Proof.
  apply (@wavelet_of_constant_row 1 Daubechies.D4 flat_array 0%nat 1 3%Q).
  - reflexivity.
  - cbn [dim1 flat_array]. lia.
  - cbn [stride1 flat_array]. lia.
  - cbn [rows flat_array List.length]. lia.
  - exact flat_array_constant.
  - lia.
  - cbn [dim1 flat_array]. lia.
Defined.

(** *** [ihaar] on a row of odd length *)

(** Half of a stride of magnitude two or more lies strictly between
    zero and the stride, so that adding it to an element's offset gives
    the offset of no element. *)
Lemma half_stride_between (step m p : Z) :
  2 <= Z.abs step -> step * m + Z.quot step 2 <> step * p.
Proof.
  intros Hs E.
  assert (Hq : Z.quot step 2 = step * (p - m)) by (rewrite Z.mul_sub_distr_l; lia).
  destruct (Z_lt_ge_dec step 0) as [Hneg|Hpos].
  - assert (Hq' : Z.quot step 2 = - (- step / 2)).
    { rewrite <- (Z.opp_involutive step) at 1.
      rewrite Z.quot_opp_l by lia. now rewrite Z.quot_div_nonneg by lia. }
    assert (Hd : 1 <= - step / 2 < - step).
    { split; [apply Z.div_le_lower_bound; lia
             | apply Z.div_lt_upper_bound; lia]. }
    destruct (Z.eq_dec (p - m) 0) as [E0|Hne]; [rewrite E0 in Hq; lia|nia].
  - assert (Hd : 1 <= step / 2 < step).
    { split; [apply Z.div_le_lower_bound; lia
             | apply Z.div_lt_upper_bound; lia]. }
    rewrite Z.quot_div_nonneg in Hq by lia.
    destruct (Z.eq_dec (p - m) 0) as [E0|Hne]; [rewrite E0 in Hq; lia|nia].
Qed.

(** X19.  The row step of [ihaar] on a row of odd length whose stride
    has magnitude two or more.  [data] is the memory as the row loop
    finds it when it reaches the row, addressed from [array.data(y)].
    The high half is addressed from [data + step*N1/2], which is half a
    stride past an element: the value paired with element [x] of the
    low half is read from a cell that is the offset of no element of
    the row (a cell between two of its elements, which may hold an
    element of another row). *)
Theorem ihaar_odd_row_reads_between_elements
    (N1 step : Z) (buffer data : row) (x : Z) :
  0 <= N1 -> Z.odd N1 = true -> 2 <= Z.abs step ->
  0 <= x < Z.quot N1 2 ->
  snd (ihaar_row N1 step (buffer, data)) (step * (2 * x))
  = ((data (step * x)%Z
      - data (Z.quot (step * N1) 2 + x * step)%Z) / 2)%Q
  /\ snd (ihaar_row N1 step (buffer, data)) (step * (2 * x + 1))
     = ((data (step * x)%Z
         + data (Z.quot (step * N1) 2 + x * step)%Z) / 2)%Q
  /\ (forall p, Z.quot (step * N1) 2 + x * step <> step * p).
Proof.
  intros HN Ho Hs Hx.
  assert (Hs0 : step <> 0) by lia.
  split; [|split].
  - rewrite ihaar_row_even by assumption. unfold ihaar_even.
    now rewrite (Z.mul_comm x).
  - rewrite ihaar_row_odd by assumption. unfold ihaar_odd.
    now rewrite (Z.mul_comm x).
  - intros p. destruct (odd_half HN Ho) as [HN1 Hh].
    assert (Hq : Z.quot (step * N1) 2 = Z.quot step 2 + step * Z.quot N1 2).
    { rewrite HN1 at 1.
      replace (step * (2 * Z.quot N1 2 + 1))
        with (step + step * Z.quot N1 2 * 2) by ring.
      apply Z.quot_add; [lia|]. nia. }
    rewrite Hq.
    replace (Z.quot step 2 + step * Z.quot N1 2 + x * step)
      with (step * (Z.quot N1 2 + x) + Z.quot step 2) by ring.
    now apply half_stride_between.
Qed.

Lemma ihaar_odd_row_reads_between_elements_witness :
  snd (ihaar_row 3 2 (zeros, column_major_memory)) (2 * (2 * 0))
  = ((column_major_memory (2 * 0)%Z
      - column_major_memory (Z.quot (2 * 3) 2 + 0 * 2)%Z) / 2)%Q
  /\ snd (ihaar_row 3 2 (zeros, column_major_memory)) (2 * (2 * 0 + 1))
     = ((column_major_memory (2 * 0)%Z
         + column_major_memory (Z.quot (2 * 3) 2 + 0 * 2)%Z) / 2)%Q
  /\ (forall p, Z.quot (2 * 3) 2 + 0 * 2 <> 2 * p).
Proof.
  apply (@ihaar_odd_row_reads_between_elements 3 2 zeros column_major_memory 0).
  - lia.
  - reflexivity.
  - cbn. lia.
  - change (Z.quot 3 2) with 1. lia.
Defined.

(** [haar] on a contiguous 2 x 4 array: seen from the first row, cell
    [4] is the first element of the second row, and it is rewritten. *)
Example haar_on_contiguous_memory :
  map Qred
      (to_list (kernel_shared haar_row 2 4 1 (fun y => 4 * y)
                              (of_list 0%Q [1; 2; 3; 4; 5; 6; 7; 8]%Q))
               8)
  = [3; 7; 1; 1; 11; 15; 1; 1]%Q.
Proof. vm_compute. reflexivity. Qed.

(** [ihaar] on the column-major 2 x 3 array: the second row reads, for
    its high half, the cell that the copy-back of the first row has
    already overwritten, and becomes [2, 2, 0]. *)
Example ihaar_on_column_major_memory :
  map Qred
      (to_list (kernel_shared ihaar_row 2 3 2 (fun y => y) column_major_memory)
               6)
  = [-2; 2; 3; 2; 0; 0]%Q.
Proof. vm_compute. reflexivity. Qed.

Lemma ihaar_tail_zero (N1 step : Z) (b d : row) :
  0 <= N1 -> tail_zero N1 b -> tail_zero N1 (fst (ihaar_row N1 step (b, d))).
Proof.
  intros HN Hb k Hk.
  pose proof (ihaar_buffer step b d HN) as (_ & _ & Hrest). cbn zeta in Hrest.
  rewrite Hrest by exact Hk. now apply Hb.
Qed.

(** X20.  [ihaar] on a row of odd length writes zero into the last
    element of the row: the loop fills the first [N1 - 1] slots of the
    scratch buffer, and the copy-back loop stores the slot [N1 - 1],
    which no row ever writes. *)
Theorem ihaar_odd_row_last_element (a : array2) (y : nat) :
  0 <= dim1 a -> Z.odd (dim1 a) = true -> stride1 a <> 0 ->
  (y < List.length (rows a))%nat ->
  elem (ihaar a) y (dim1 a - 1) = 0%Q.
Proof.
  intros HN Ho Hs Hy. destruct (odd_half HN Ho) as [HN1 HH].
  assert (H0 : tail_zero (dim1 a) zeros) by (intros k _; reflexivity).
  destruct (kernel_row ihaar_row (tail_zero (dim1 a)) a (y := y) H0
              (fun b d => @ihaar_tail_zero _ _ b d HN) Hy) as (b & Hb & E).
  unfold elem, ihaar. rewrite E. cbn [stride1 kernel].
  unfold ihaar_row. cbn [snd].
  rewrite copy_back_at by (try assumption; lia).
  apply (@ihaar_tail_zero (dim1 a) (stride1 a) b (nth y (rows a) zeros) HN Hb).
  lia.
Qed.

Lemma ihaar_odd_row_last_element_witness :
  elem (ihaar gapped_array) 0 (dim1 gapped_array - 1) = 0%Q.
Proof.
  apply (@ihaar_odd_row_last_element gapped_array 0%nat).
  - cbn [dim1 gapped_array]. lia.
  - reflexivity.
  - cbn [stride1 gapped_array]. lia.
  - cbn [rows gapped_array List.length]. lia.
Defined.

End WaveletExtras.

(** ** The neighbourhood filters: further properties *)

Module FilterExtras.
Import Loops Mem Filters Examples LoopFacts MemFacts FilterFacts.

Local Open Scope Z_scope.

(** *** [rank_filter] where it selects the right element *)

(** The element at index [K] of the sorted values is one of the values;
    fewer than [K + 1] values lie below it, and more than [K] values do
    not exceed it. *)
Lemma rank_in_sorted (l : list Z) (K : nat) :
  (K < List.length l)%nat ->
  In (nth K (isort l) 0) l
  /\ le (count (fun x => x <? nth K (isort l) 0) l) K
  /\ lt K (count (fun x => x <=? nth K (isort l) 0) l).
Proof.
  intros HK.
  pose proof (isort_perm l) as Hperm.
  pose proof (isort_ascending l) as Hasc.
  assert (Hlen : List.length (isort l) = List.length l)
    by now apply Permutation_length.
  set (s := isort l) in *. set (v := nth K s 0).
  set (below := fun x : Z => x <? v).
  set (upto := fun x : Z => x <=? v).
  repeat split.
  - apply (Permutation_in _ Hperm). apply nth_In. lia.
  - rewrite <- (count_perm below Hperm).
    rewrite <- (firstn_skipn K s), count_app.
    rewrite (count_none below (skipn K s)).
    + pose proof (count_le_length below (firstn K s)) as H.
      rewrite length_firstn in H. lia.
    + intros x Hx. apply in_skipn_nth in Hx. destruct Hx as (j & Hj & <-).
      unfold below. apply Z.ltb_ge. apply Hasc. lia.
  - rewrite <- (count_perm upto Hperm).
    rewrite <- (firstn_skipn (K + 1) s), count_app.
    rewrite (count_all upto (firstn (K + 1) s)).
    + rewrite length_firstn. lia.
    + intros x Hx. apply in_firstn_nth in Hx. destruct Hx as (i & Hi & _ & <-).
      unfold upto. apply Z.leb_le. apply Hasc. lia.
Qed.

(** X9.  With a conforming [std::nth_element], [rank_filter] stores the
    element of rank [rank] of the valid tap values (one of the values,
    with at most [rank] values below it and more than [rank] values not
    above it) at every position where all the taps are valid, and, for
    [rank = 0], at every position with at least one valid tap. *)
Theorem rank_filter_order_statistic
    (nth_element : mem Z -> Z -> Z -> mem Z) (junk : mem Z)
    (N : Z) (fiter : filter_iterator Z) (rank : Z) (res : mem Z) (i : Z) :
  nth_element_conforms nth_element ->
  0 <= i < N -> 0 <= rank < size fiter ->
  Z.of_nat (List.length (valid_taps fiter i)) = size fiter
  \/ (rank = 0 /\ valid_taps fiter i <> []) ->
  rank_filter nth_element junk N fiter rank res i
  = element_of_rank rank (valid_taps fiter i)
  /\ In (rank_filter nth_element junk N fiter rank res i) (valid_taps fiter i)
  /\ Z.of_nat (count (fun x => x <? rank_filter nth_element junk N fiter rank res i)
                     (valid_taps fiter i)) <= rank
  /\ rank < Z.of_nat (count (fun x => x <=? rank_filter nth_element junk N fiter
                                                        rank res i)
                            (valid_taps fiter i)).
Proof.
  intros Hc Hi Hr Hcase.
  assert (Hlen : 0 <= rank < Z.of_nat (List.length (valid_taps fiter i))).
  { destruct Hcase as [E|[-> Hne]]; [lia|].
    destruct (valid_taps fiter i); [contradiction|]. cbn [List.length]. lia. }
  assert (E : rank_filter nth_element junk N fiter rank res i
              = element_of_rank rank (valid_taps fiter i)).
  { destruct (rank_filter_at nth_element junk fiter res Hi Hr) as (scratch & ->).
    destruct (collect_spec fiter i scratch) as (Hn & Hl & _).
    rewrite Hn.
    assert (Hk : (if negb (Z.of_nat (List.length (valid_taps fiter i))
                           =? size fiter)
                  then scaled_rank (Z.of_nat (List.length (valid_taps fiter i)))
                                   rank (size fiter)
                  else rank) = rank).
    { destruct Hcase as [Ea|[-> _]].
      - rewrite Ea, Z.eqb_refl. reflexivity.
      - unfold scaled_rank. rewrite Z.mul_0_r.
        destruct (negb _); [|reflexivity]. apply Z.quot_0_l. lia. }
    rewrite Hk, conforming_selects by (try exact Hc; lia).
    rewrite Nat2Z.id, Hl. reflexivity. }
  rewrite E. unfold element_of_rank.
  destruct (@rank_in_sorted (valid_taps fiter i) (Z.to_nat rank)) as (Hin & Hb & Hu);
    [lia|].
  repeat split; [exact Hin | lia | lia].
Qed.

Lemma rank_filter_order_statistic_witness :
  rank_filter nth_element_sorting (fun _ => 0) 5 edge_fiter 0 (fun _ => 0) 0
  = element_of_rank 0 (valid_taps edge_fiter 0)
  /\ In (rank_filter nth_element_sorting (fun _ => 0) 5 edge_fiter 0
           (fun _ => 0) 0)
        (valid_taps edge_fiter 0)
  /\ Z.of_nat (count (fun x => x <? rank_filter nth_element_sorting (fun _ => 0)
                                       5 edge_fiter 0 (fun _ => 0) 0)
                     (valid_taps edge_fiter 0)) <= 0
  /\ 0 < Z.of_nat (count (fun x => x <=? rank_filter nth_element_sorting
                                         (fun _ => 0) 5 edge_fiter 0
                                         (fun _ => 0) 0)
                         (valid_taps edge_fiter 0)).
Proof.
  apply (@rank_filter_order_statistic nth_element_sorting (fun _ => 0) 5
           edge_fiter 0 (fun _ => 0) 0).
  - exact nth_element_sorting_conforms.
  - lia.
  - simpl. lia.
  - right. split; [reflexivity|]. vm_compute. discriminate.
Defined.

(** *** [rank_filter] where it reads what it has not collected *)

(** X10.  At the first position, when no more than [rank] taps are
    valid, the value [rank_filter] stores is the slot [rank] of the
    scratch array as [new T[N2]] left it: memory the call never wrote. *)
Theorem rank_filter_reads_unwritten_slot
    (nth_element : mem Z -> Z -> Z -> mem Z) (junk : mem Z)
    (N : Z) (fiter : filter_iterator Z) (rank : Z) (res : mem Z) :
  nth_element_conforms nth_element ->
  0 < N -> 0 <= rank < size fiter ->
  Z.of_nat (List.length (valid_taps fiter 0)) <= rank ->
  rank_filter nth_element junk N fiter rank res 0 = junk rank.
Proof.
  intros Hc HN Hr Hfew.
  rewrite rank_filter_first by assumption.
  destruct (collect_spec fiter 0 junk) as (Hn & _ & Hout).
  destruct (Hc (fst (collect fiter 0 junk))
               (if negb (snd (collect fiter 0 junk) =? size fiter)
                then scaled_rank (snd (collect fiter 0 junk)) rank (size fiter)
                else rank)
               (snd (collect fiter 0 junk))) as (Hsame & _ & _).
  { rewrite Hn. lia. }
  rewrite Hsame by (rewrite Hn; lia).
  apply Hout. rewrite Hn. lia.
Qed.

Lemma rank_filter_reads_unwritten_slot_witness :
  rank_filter nth_element_sorting (fun _ => 42) 1 constant_fiter 1
              (fun _ => 0) 0
  = (fun _ : Z => 42) 1.
Proof.
  apply (@rank_filter_reads_unwritten_slot nth_element_sorting (fun _ => 42) 1
           constant_fiter 1 (fun _ => 0)).
  - exact nth_element_sorting_conforms.
  - lia.
  - simpl. lia.
  - simpl. lia.
Defined.

(** *** [template_match] and exact matches *)

Lemma sum_list_cons (x : Z) (l : list Z) : sum_list (x :: l) = x + sum_list l.
Proof.
  unfold sum_list. cbn [fold_left].
  assert (H : forall a, fold_left Z.add l a = a + fold_left Z.add l 0).
  { induction l as [|y l IH]; intros a; cbn [fold_left]; [lia|].
    rewrite (IH (a + y)), (IH (0 + y)). lia. }
  rewrite (H (0 + x)). lia.
Qed.

Lemma sum_list_nonneg (l : list Z) :
  (forall x, In x l -> 0 <= x) ->
  0 <= sum_list l /\ (sum_list l = 0 -> forall x, In x l -> x = 0).
Proof.
  induction l as [|y l IH]; intros Hpos.
  - split; [reflexivity|]. intros _ x [].
  - rewrite sum_list_cons.
    destruct IH as [H0 Hz]; [intros x Hx; apply Hpos; now right|].
    pose proof (Hpos y (or_introl eq_refl)) as Hy.
    split; [lia|]. intros E x [<-|Hx]; [lia|]. apply Hz; [lia|exact Hx].
Qed.

Lemma squared_differences_in (fiter : filter_iterator Z) (i x : Z) :
  In x (squared_differences fiter i)
  <-> exists j val, 0 <= j < size fiter /\ retrieve fiter i j = Some val
                    /\ x = (val - tap fiter j) ^ 2.
Proof.
  unfold squared_differences. rewrite in_flat_map. split.
  - intros (j & Hj & Hx). apply in_seq in Hj.
    destruct (retrieve fiter i (Z.of_nat j)) as [val|] eqn:E; [|destruct Hx].
    destruct Hx as [<-|[]]. exists (Z.of_nat j), val.
    repeat split; first [lia | exact E].
  - intros (j & val & Hj & E & ->). exists (Z.to_nat j). split.
    + apply in_seq. lia.
    + rewrite Z2Nat.id by lia. rewrite E. now left.
Qed.

(** X11.  For an unsigned [w]-bit element type, [template_match] stores
    [0] at a position where every valid tap equals the template value;
    and where the sum of the squared differences is below [2^w], a
    stored [0] is found only at such a position. *)
Theorem template_match_zero_iff_match
    (w N : Z) (fiter : filter_iterator Z) (res : mem Z) (i : Z) :
  0 <= w -> 0 <= i < N ->
  (forall j val, 0 <= j < size fiter -> retrieve fiter i j = Some val ->
                 0 <= val < 2 ^ w /\ 0 <= tap fiter j < 2 ^ w) ->
  ((forall j val, 0 <= j < size fiter -> retrieve fiter i j = Some val ->
                  val = tap fiter j) ->
   template_match (unsigned w) N fiter res i = 0)
  /\ (sum_list (squared_differences fiter i) < 2 ^ w ->
      template_match (unsigned w) N fiter res i = 0 ->
      forall j val, 0 <= j < size fiter -> retrieve fiter i j = Some val ->
                    val = tap fiter j).
Proof.
  intros Hw Hi Hrange.
  assert (E : template_match (unsigned w) N fiter res i
              = wrap w (sum_list (squared_differences fiter i))).
  { unfold template_match.
    rewrite (store_loop_at (fun i => template_acc (unsigned w) fiter i))
      by exact Hi.
    now apply FilterClaims.template_acc_unsigned. }
  assert (Hsq : forall x, In x (squared_differences fiter i) -> 0 <= x).
  { intros x Hx. apply squared_differences_in in Hx.
    destruct Hx as (j & val & _ & _ & ->). apply Z.pow_even_nonneg.
    now exists 1. }
  destruct (sum_list_nonneg _ Hsq) as [H0 Hz].
  rewrite E. split.
  - intros Hmatch.
    assert (Hall : sum_list (squared_differences fiter i) = 0).
    { assert (Hzero : forall x, In x (squared_differences fiter i) -> x = 0).
      { intros x Hx. apply squared_differences_in in Hx.
        destruct Hx as (j & val & Hj & Er & ->).
        rewrite (Hmatch j val Hj Er), Z.sub_diag. reflexivity. }
      revert Hzero. generalize (squared_differences fiter i) as l.
      induction l as [|y l IH]; intros Hzero; [reflexivity|].
      rewrite sum_list_cons, (Hzero y) by now left.
      rewrite IH; [reflexivity|]. intros x Hx. apply Hzero. now right. }
    rewrite Hall. unfold wrap. apply Z.mod_0_l. lia.
  - intros Hsmall Hres j val Hj Er.
    unfold wrap in Hres. rewrite Z.mod_small in Hres by lia.
    assert (Hx : (val - tap fiter j) ^ 2 = 0).
    { apply (Hz Hres). apply squared_differences_in. now exists j, val. }
    apply Z.pow_eq_0_iff in Hx. lia.
Qed.

Lemma match_fiter_in_range (j val : Z) :
  0 <= j < size match_fiter -> retrieve match_fiter 1 j = Some val ->
  0 <= val < 2 ^ 16 /\ 0 <= tap match_fiter j < 2 ^ 16.
Proof.
  intros Hj. change (size match_fiter) with 3 in Hj.
  assert (Hc : j = 0 \/ j = 1 \/ j = 2) by lia.
  destruct Hc as [-> | [-> | ->]]; intros E; vm_compute in E;
    inversion E; subst val; vm_compute; repeat split; discriminate.
Qed.

Lemma template_match_zero_iff_match_witness :
  ((forall j val, 0 <= j < size match_fiter ->
                  retrieve match_fiter 1 j = Some val ->
                  val = tap match_fiter j) ->
   template_match (unsigned 16) 3 match_fiter (fun _ => 0) 1 = 0)
  /\ (sum_list (squared_differences match_fiter 1) < 2 ^ 16 ->
      template_match (unsigned 16) 3 match_fiter (fun _ => 0) 1 = 0 ->
      forall j val, 0 <= j < size match_fiter ->
                    retrieve match_fiter 1 j = Some val ->
                    val = tap match_fiter j).
Proof.
  apply (@template_match_zero_iff_match 16 3 match_fiter (fun _ => 0) 1).
  - lia.
  - lia.
  - exact match_fiter_in_range.
Defined.

(** *** The cells the filters write *)

Lemma store_loop_frame {V : Type} (g : Z -> V) (N : Z) (out : mem V) (c : Z) :
  ~ (0 <= c < N) ->
  for_range 0 N (fun i o => store o i (g i)) out c = out c.
Proof.
  intros Hc. destruct (Z_lt_ge_dec N 0) as [Hneg|Hpos].
  { now rewrite for_range_empty by lia. }
  assert (Inv : (fun k (o : mem V) => k <= N -> o c = out c) N
                  (for_range 0 N (fun i o => store o i (g i)) out)).
  { apply (for_range_inv (fun k (o : mem V) => k <= N -> o c = out c)).
    - lia.
    - reflexivity.
    - intros k o Hk IH _. rewrite store_other by lia. apply IH. lia. }
  apply Inv. lia.
Qed.

(** A loop that stores one value per index and threads a second
    component: the cells outside the range are kept, and neither the
    values stored nor the second component depend on what the cells
    held. *)
Lemma threaded_store_frame {V S : Type} (g : Z -> S -> V) (h : Z -> S -> S)
    (n : nat) :
  forall (x : Z) (out : mem V) (s : S) (c : Z),
    ~ (x <= c < x + Z.of_nat n) ->
    fst (iter_from n x
           (fun i (st : mem V * S) =>
              (store (fst st) i (g i (snd st)), h i (snd st)))
           (out, s)) c
    = out c.
Proof.
  induction n as [|n IH]; intros x out s c Hc; [reflexivity|].
  cbn [iter_from fst snd]. rewrite IH by lia. apply store_other. lia.
Qed.

Lemma threaded_store_independent {V S : Type} (g : Z -> S -> V)
    (h : Z -> S -> S) (n : nat) :
  forall (x : Z) (out out' : mem V) (s : S),
    snd (iter_from n x
           (fun i (st : mem V * S) =>
              (store (fst st) i (g i (snd st)), h i (snd st)))
           (out, s))
    = snd (iter_from n x
             (fun i (st : mem V * S) =>
                (store (fst st) i (g i (snd st)), h i (snd st)))
             (out', s))
    /\ forall c, x <= c < x + Z.of_nat n ->
         fst (iter_from n x
                (fun i (st : mem V * S) =>
                   (store (fst st) i (g i (snd st)), h i (snd st)))
                (out, s)) c
         = fst (iter_from n x
                  (fun i (st : mem V * S) =>
                     (store (fst st) i (g i (snd st)), h i (snd st)))
                  (out', s)) c.
Proof.
  induction n as [|n IH]; intros x out out' s.
  - split; [reflexivity|]. intros c Hc. cbn in Hc. lia.
  - cbn [iter_from fst snd].
    destruct (IH (x + 1) (store out x (g x s)) (store out' x (g x s)) (h x s))
      as [Hs Hc].
    split; [exact Hs|]. intros c Hx.
    destruct (Z.eq_dec c x) as [->|Hne].
    + rewrite !threaded_store_frame by lia. now rewrite !store_same.
    + apply Hc. lia.
Qed.

(** The loop of [rank_filter] in that form. *)
Lemma rank_filter_loop (nth_element : mem Z -> Z -> Z -> mem Z) (junk : mem Z)
    (N : Z) (fiter : filter_iterator Z) (rank : Z) (res : mem Z) :
  0 <= rank < size fiter ->
  rank_filter nth_element junk N fiter rank res
  = fst (for_range 0 N
           (fun i (st : mem Z * mem Z) =>
              (store (fst st) i
                     (nth_element
                        (fst (collect fiter i (snd st)))
                        (if negb (snd (collect fiter i (snd st)) =? size fiter)
                         then scaled_rank (snd (collect fiter i (snd st))) rank
                                          (size fiter)
                         else rank)
                        (snd (collect fiter i (snd st))) rank),
               nth_element
                 (fst (collect fiter i (snd st)))
                 (if negb (snd (collect fiter i (snd st)) =? size fiter)
                  then scaled_rank (snd (collect fiter i (snd st))) rank
                                   (size fiter)
                  else rank)
                 (snd (collect fiter i (snd st)))))
           (res, junk)).
Proof.
  intros Hr. unfold rank_filter.
  destruct (Z.ltb_spec rank 0); [lia|].
  destruct (Z.geb_spec rank (size fiter)); [lia|]. cbn [orb].
  f_equal. apply for_range_ext. intros i [out nb]. cbn [fst snd].
  destruct (collect fiter i nb) as [nb1 n]. reflexivity.
Qed.

(** X12.  The three filters leave every cell of the output outside
    [0 .. N-1] as it was; and the value that [convolve],
    [template_match] and, for a rank in [[0, N2)], [rank_filter] leave
    in a cell of [0 .. N-1] does not depend on what the output held
    before the call: each of these cells is overwritten. *)
Theorem filters_write_first_cells
    (T double : Type) (dzero : double) (dadd dmul : double -> double -> double)
    (to_double : T -> double) (of_double : double -> T) (A : arith T)
    (nth_element : mem Z -> Z -> Z -> mem Z) (junk : mem Z)
    (N : Z) (fiter : filter_iterator T) (ifiter : filter_iterator Z)
    (rank : Z) (res res' : mem T) (ires ires' : mem Z) (c_in c_out : Z) :
  0 <= c_in < N -> ~ (0 <= c_out < N) -> 0 <= rank < size ifiter ->
  (convolve dzero dadd dmul to_double of_double N fiter res c_out = res c_out
   /\ template_match A N fiter res c_out = res c_out
   /\ rank_filter nth_element junk N ifiter rank ires c_out = ires c_out)
  /\ (convolve dzero dadd dmul to_double of_double N fiter res c_in
      = convolve dzero dadd dmul to_double of_double N fiter res' c_in
      /\ template_match A N fiter res c_in = template_match A N fiter res' c_in
      /\ rank_filter nth_element junk N ifiter rank ires c_in
         = rank_filter nth_element junk N ifiter rank ires' c_in).
Proof.
  intros Hin Hout Hr. split; [|split; [|split]]; [split; [|split]| | |].
  - unfold convolve.
    apply (store_loop_frame
             (fun i => of_double (convolve_acc dzero dadd dmul to_double fiter i))).
    exact Hout.
  - unfold template_match.
    apply (store_loop_frame (fun i => template_acc A fiter i)). exact Hout.
  - rewrite rank_filter_loop by exact Hr. unfold for_range.
    apply (threaded_store_frame
             (fun i nb =>
                nth_element
                  (fst (collect ifiter i nb))
                  (if negb (snd (collect ifiter i nb) =? size ifiter)
                   then scaled_rank (snd (collect ifiter i nb)) rank (size ifiter)
                   else rank)
                  (snd (collect ifiter i nb)) rank)
             (fun i nb =>
                nth_element
                  (fst (collect ifiter i nb))
                  (if negb (snd (collect ifiter i nb) =? size ifiter)
                   then scaled_rank (snd (collect ifiter i nb)) rank (size ifiter)
                   else rank)
                  (snd (collect ifiter i nb)))).
    lia.
  - unfold convolve.
    now rewrite !(store_loop_at
                    (fun i => of_double
                                (convolve_acc dzero dadd dmul to_double fiter i)))
      by exact Hin.
  - unfold template_match.
    now rewrite !(store_loop_at (fun i => template_acc A fiter i)) by exact Hin.
  - rewrite !rank_filter_loop by exact Hr. unfold for_range.
    apply (threaded_store_independent
             (fun i nb =>
                nth_element
                  (fst (collect ifiter i nb))
                  (if negb (snd (collect ifiter i nb) =? size ifiter)
                   then scaled_rank (snd (collect ifiter i nb)) rank (size ifiter)
                   else rank)
                  (snd (collect ifiter i nb)) rank)
             (fun i nb =>
                nth_element
                  (fst (collect ifiter i nb))
                  (if negb (snd (collect ifiter i nb) =? size ifiter)
                   then scaled_rank (snd (collect ifiter i nb)) rank (size ifiter)
                   else rank)
                  (snd (collect ifiter i nb)))).
    lia.
Qed.

Lemma filters_write_first_cells_witness :
  (convolve 0%Q Qplus Qmult inject_Z uint8_of_double 5 example_fiter
            (fun _ => 42) 7 = (fun _ : Z => 42) 7
   /\ template_match (unsigned 8) 5 example_fiter (fun _ => 42) 7
      = (fun _ : Z => 42) 7
   /\ rank_filter nth_element_sorting (fun _ => 0) 5 edge_fiter 1
                  (fun _ => 42) 7 = (fun _ : Z => 42) 7)
  /\ (convolve 0%Q Qplus Qmult inject_Z uint8_of_double 5 example_fiter
               (fun _ => 42) 2
      = convolve 0%Q Qplus Qmult inject_Z uint8_of_double 5 example_fiter
                 (fun _ => 0) 2
      /\ template_match (unsigned 8) 5 example_fiter (fun _ => 42) 2
         = template_match (unsigned 8) 5 example_fiter (fun _ => 0) 2
      /\ rank_filter nth_element_sorting (fun _ => 0) 5 edge_fiter 1
                     (fun _ => 42) 2
         = rank_filter nth_element_sorting (fun _ => 0) 5 edge_fiter 1
                       (fun _ => 0) 2).
Proof.
  apply (@filters_write_first_cells Z Q 0%Q Qplus Qmult inject_Z
           uint8_of_double (unsigned 8) nth_element_sorting (fun _ => 0) 5
           example_fiter edge_fiter 1 (fun _ => 42) (fun _ => 0)
           (fun _ => 42) (fun _ => 0) 2 7).
  - lia.
  - lia.
  - simpl. lia.
Defined.

End FilterExtras.

(** ** Positions and iterators *)

Module NumpyFacts.
Import Loops Mem Numpy LoopFacts MemFacts.

Local Open Scope Z_scope.

(** *** Integer conversions *)

Lemma to_int_small (x : Z) : - 2 ^ 31 <= x < 2 ^ 31 -> to_int x = x.
Proof. intros H. unfold to_int. rewrite Z.mod_small; lia. Qed.

Lemma to_int_congr (x y : Z) :
  x mod 2 ^ 32 = y mod 2 ^ 32 -> to_int x = to_int y.
Proof.
  intros H. unfold to_int.
  rewrite <- (Zplus_mod_idemp_l x), <- (Zplus_mod_idemp_l y), H. reflexivity.
Qed.

Lemma to_int_mod (x : Z) : to_int x mod 2 ^ 32 = x mod 2 ^ 32.
Proof.
  unfold to_int.
  rewrite (Z.mod_eq (x + 2 ^ 31) (2 ^ 32)) by lia.
  replace (x + 2 ^ 31 - 2 ^ 32 * ((x + 2 ^ 31) / 2 ^ 32) - 2 ^ 31)
    with (x + (- ((x + 2 ^ 31) / 2 ^ 32)) * 2 ^ 32) by ring.
  apply Z_mod_plus_full.
Qed.

Lemma size_t_mod (x : Z) : to_size_t x mod 2 ^ 32 = x mod 2 ^ 32.
Proof.
  unfold to_size_t. apply Z.mod_mod_divide.
  exists (2 ^ 32). reflexivity.
Qed.

(** The quotient [stride / sizeof] as the constructor computes it, for a
    stride of [e] elements of either sign and an element size that
    divides [2^32]. *)
Lemma stride_quotient (sizeof e : Z) :
  0 < sizeof -> (sizeof | 2 ^ 32) ->
  (to_size_t (sizeof * e) / sizeof) mod 2 ^ 32 = e mod 2 ^ 32.
Proof.
  intros Hs [t Ht]. unfold to_size_t.
  assert (Ht0 : 0 < t) by nia.
  assert (E : 2 ^ 64 = sizeof * (t * 2 ^ 32)).
  { change (2 ^ 64) with (2 ^ 32 * 2 ^ 32). rewrite Ht at 1. ring. }
  rewrite E, Z.mul_mod_distr_l by lia.
  rewrite (Z.mul_comm sizeof), Z.div_mul by lia.
  apply Z.mod_mod_divide. exists t. reflexivity.
Qed.

(** *** Reading a loop from its last index *)

Lemma for_range_succ {S : Type} (body : Z -> S -> S) (lo : Z) (n : nat) (s : S) :
  for_range lo (lo + Z.of_nat (Datatypes.S n)) body s
  = body (lo + Z.of_nat n) (for_range lo (lo + Z.of_nat n) body s).
Proof.
  unfold for_range.
  replace (Z.to_nat (lo + Z.of_nat (Datatypes.S n) - lo)) with (Datatypes.S n) by lia.
  replace (Z.to_nat (lo + Z.of_nat n - lo)) with n by lia.
  revert lo s. induction n as [|n IH]; intros lo s.
  - cbn. now rewrite Z.add_0_r.
  - change (iter_from (Datatypes.S (Datatypes.S n)) lo body s)
      with (iter_from (Datatypes.S n) (lo + 1) body (body lo s)).
    rewrite IH. cbn [iter_from]. f_equal. lia.
Qed.

Lemma for_range_last {S : Type} (body : Z -> S -> S) (k : Z) (s : S) :
  0 <= k ->
  for_range 0 (k + 1) body s = body k (for_range 0 k body s).
Proof.
  intros Hk.
  pose proof (for_range_succ body 0 (Z.to_nat k) s) as H.
  replace (0 + Z.of_nat (Datatypes.S (Z.to_nat k))) with (k + 1) in H by lia.
  replace (0 + Z.of_nat (Z.to_nat k)) with k in H by lia.
  exact H.
Qed.

(** *** Sums over the slots of the iterator *)

Lemma value_from_ext (D pos pos' : mem Z) (fuel : nat) (i : Z) :
  (forall j, i <= j < i + Z.of_nat fuel -> pos' j = pos j) ->
  value_from D pos' fuel i = value_from D pos fuel i.
Proof.
  revert i. induction fuel as [|fuel IH]; intros i H; cbn [value_from];
    [reflexivity|].
  rewrite H by lia. rewrite IH; [reflexivity|]. intros j Hj. apply H. lia.
Qed.

Lemma value_from_ext_dims (D D' pos : mem Z) (fuel : nat) (i : Z) :
  (forall j, i <= j < i + Z.of_nat fuel -> D' j = D j) ->
  value_from D' pos fuel i = value_from D pos fuel i.
Proof.
  revert i. induction fuel as [|fuel IH]; intros i H; cbn [value_from];
    [reflexivity|].
  rewrite H by lia. rewrite IH; [reflexivity|]. intros j Hj. apply H. lia.
Qed.

Lemma offset_from_ext (e pos pos' : mem Z) (fuel : nat) (i : Z) :
  (forall j, i <= j < i + Z.of_nat fuel -> pos' j = pos j) ->
  offset_from e pos' fuel i = offset_from e pos fuel i.
Proof.
  revert i. induction fuel as [|fuel IH]; intros i H; cbn [offset_from];
    [reflexivity|].
  rewrite H by lia. rewrite IH; [reflexivity|]. intros j Hj. apply H. lia.
Qed.

Lemma size_from_pos (D : mem Z) (fuel : nat) (i : Z) :
  (forall j, i <= j < i + Z.of_nat fuel -> 0 < D j) ->
  0 < size_from D fuel i.
Proof.
  revert i. induction fuel as [|fuel IH]; intros i H; cbn [size_from]; [lia|].
  apply Z.mul_pos_pos; [apply H; lia|]. apply IH. intros j Hj. apply H. lia.
Qed.

Lemma value_from_range (D pos : mem Z) (fuel : nat) (i : Z) :
  (forall j, i <= j < i + Z.of_nat fuel -> 0 <= pos j < D j) ->
  0 <= value_from D pos fuel i < size_from D fuel i.
Proof.
  revert i. induction fuel as [|fuel IH]; intros i H;
    cbn [value_from size_from]; [lia|].
  assert (Hi : 0 <= pos i < D i) by (apply H; lia).
  assert (Hr : 0 <= value_from D pos fuel (i + 1) < size_from D fuel (i + 1))
    by (apply IH; intros j Hj; apply H; lia).
  nia.
Qed.

Lemma value_from_zero (D pos : mem Z) (fuel : nat) (i : Z) :
  (forall j, i <= j < i + Z.of_nat fuel -> pos j = 0) ->
  value_from D pos fuel i = 0.
Proof.
  revert i. induction fuel as [|fuel IH]; intros i H; cbn [value_from];
    [reflexivity|].
  rewrite H by lia. rewrite IH; [lia|]. intros j Hj. apply H. lia.
Qed.

Lemma offset_from_zero (e pos : mem Z) (fuel : nat) (i : Z) :
  (forall j, i <= j < i + Z.of_nat fuel -> pos j = 0) ->
  offset_from e pos fuel i = 0.
Proof.
  revert i. induction fuel as [|fuel IH]; intros i H; cbn [offset_from];
    [reflexivity|].
  rewrite H by lia. rewrite IH; [lia|]. intros j Hj. apply H. lia.
Qed.

(** A product of non-negative dimensions that is positive has no zero
    factor. *)
Lemma size_from_factors (D : mem Z) (fuel : nat) (i : Z) :
  (forall j, i <= j < i + Z.of_nat fuel -> 0 <= D j) ->
  0 < size_from D fuel i ->
  forall j, i <= j < i + Z.of_nat fuel -> 0 < D j.
Proof.
  revert i. induction fuel as [|fuel IH]; intros i H Hs j Hj; [lia|].
  cbn [size_from] in Hs.
  assert (Hi : 0 <= D i) by (apply H; lia).
  assert (Hi0 : D i <> 0) by (intros E; rewrite E in Hs; lia).
  destruct (Z.eq_dec j i) as [->|Hne]; [lia|].
  apply (IH (i + 1)); [intros l Hl; apply H; lia | nia | lia].
Qed.

(** *** One increment *)

Section Increment.

Variable sizeof : Z.
Variables e D : mem Z.

(** [operator ++] from slot [i] on, the slots before it having wrapped
    around: the counter of the slots from [i] on goes up by one, or back
    to zero from its last value, and the pointer follows the offset. *)
Lemma increment_from_spec (fuel : nat) :
  forall (i : Z) (it : iterator_base),
    let n := nd_ (iter_position_ it) in
    let pos := position_ (iter_position_ it) in
    let it' := increment_from sizeof fuel i it in
    let pos' := position_ (iter_position_ it') in
    0 <= i -> i + Z.of_nat fuel = n ->
    dimensions_ it = D ->
    (forall j, i <= j < n -> steps_ it j = e j - extent e D j) ->
    (forall j, i <= j < n -> 0 <= pos j < D j) ->
    steps_ it' = steps_ it /\ dimensions_ it' = D
    /\ nd_ (iter_position_ it') = n
    /\ (forall j, ~ (i <= j < n) -> pos' j = pos j)
    /\ (forall j, i <= j < n -> 0 <= pos' j < D j)
    /\ (if value_from D pos fuel i + 1 =? size_from D fuel i
        then (forall j, i <= j < n -> pos' j = 0)
             /\ data_ it'
                = data_ it
                  + sizeof * (extent e D n - extent e D i
                              - offset_from e pos fuel i)
        else value_from D pos' fuel i = value_from D pos fuel i + 1
             /\ data_ it'
                = data_ it
                  + sizeof * (offset_from e pos' fuel i
                              - offset_from e pos fuel i - extent e D i)).
Proof.
  induction fuel as [|fuel IH]; intros i it n pos it' pos' Hi Hn HD Hsteps Hrange.
  - subst it' pos'. cbn [increment_from value_from size_from offset_from].
    replace i with n by lia. cbn.
    repeat split; try reflexivity; try assumption; intros; lia.
  - assert (Hpi : 0 <= pos i < D i) by (apply Hrange; lia).
    assert (Hrest : forall j, i + 1 <= j < n -> 0 <= pos j < D j)
      by (intros j Hj; apply Hrange; lia).
    pose proof (@value_from_range D pos fuel (i + 1)) as Hv.
    assert (Hvr : 0 <= value_from D pos fuel (i + 1) < size_from D fuel (i + 1))
      by (apply Hv; intros j Hj; apply Hrest; lia).
    clear Hv.
    subst it' pos'. cbn [increment_from].
    fold pos. rewrite store_same, HD.
    destruct (Z.eqb_spec (pos i + 1) (D i)) as [Hwrap|Hstay]; cbn [negb].
    + (* the counter of slot [i] wraps around *)
      set (it1 := mkIterator (data_ it + sizeof * steps_ it i) (steps_ it) D
                             (mkPosition (nd_ (iter_position_ it))
                                         (store (store pos i (pos i + 1)) i 0))).
      assert (Hpos1 : forall j, j <> i ->
                position_ (iter_position_ it1) j = pos j).
      { intros j Hj. unfold it1. cbn [iter_position_ position_].
        now rewrite !store_other by exact Hj. }
      assert (Hpos1i : position_ (iter_position_ it1) i = 0).
      { unfold it1. cbn [iter_position_ position_]. apply store_same. }
      destruct (IH (i + 1) it1) as (Hs & Hd & Hnd & Hframe & Hin & Hcase).
      * lia.
      * unfold it1. cbn [iter_position_ nd_]. fold n. lia.
      * reflexivity.
      * unfold it1. cbn [steps_ iter_position_ nd_]. fold n.
        intros j Hj. apply Hsteps. lia.
      * unfold it1 at 1. cbn [iter_position_ nd_]. fold n.
        intros j Hj. rewrite Hpos1 by lia. apply Hrest. exact Hj.
      * assert (En : nd_ (iter_position_ it1) = n) by reflexivity.
        assert (Ed : data_ it1 = data_ it + sizeof * steps_ it i) by reflexivity.
        assert (Es : steps_ it1 = steps_ it) by reflexivity.
        rewrite En in Hnd, Hframe, Hin, Hcase.
        rewrite Ed in Hcase. rewrite Es in Hs.
        set (it2 := increment_from sizeof fuel (i + 1) it1) in *.
        set (pos2 := position_ (iter_position_ it2)) in *.
        assert (Hp2i : pos2 i = 0).
        { rewrite Hframe by lia. exact Hpos1i. }
        assert (Hv1 : value_from D (position_ (iter_position_ it1)) fuel (i + 1)
                      = value_from D pos fuel (i + 1)).
        { apply value_from_ext. intros j Hj. apply Hpos1. lia. }
        assert (Ho1 : offset_from e (position_ (iter_position_ it1)) fuel (i + 1)
                      = offset_from e pos fuel (i + 1)).
        { apply offset_from_ext. intros j Hj. apply Hpos1. lia. }
        rewrite Hv1, Ho1 in Hcase.
        assert (Hstep : steps_ it i = e i - extent e D i) by (apply Hsteps; lia).
        assert (Hext : extent e D (i + 1) = e i * D i).
        { unfold extent. destruct (Z.eqb_spec (i + 1) 0); [lia|].
          now replace (i + 1 - 1) with i by lia. }
        repeat split.
        -- exact Hs.
        -- exact Hd.
        -- exact Hnd.
        -- intros j Hj. rewrite Hframe by lia. apply Hpos1. lia.
        -- destruct (Z.eq_dec j i) as [->|Hne]; [rewrite Hp2i; lia|].
           apply Hin. lia.
        -- destruct (Z.eq_dec j i) as [->|Hne]; [rewrite Hp2i; lia|].
           apply Hin. lia.
        -- cbn [value_from size_from offset_from].
           destruct (Z.eqb_spec (value_from D pos fuel (i + 1) + 1)
                                (size_from D fuel (i + 1))) as [Hov|Hno].
           ++ destruct Hcase as [Hz Hdata].
              destruct (Z.eqb_spec (pos i + D i * value_from D pos fuel (i + 1) + 1)
                                   (D i * size_from D fuel (i + 1))) as [_|Hbad];
                [|exfalso; apply Hbad; rewrite <- Hov; lia].
              split.
              ** intros j Hj. destruct (Z.eq_dec j i) as [->|Hne];
                   [exact Hp2i | apply Hz; lia].
              ** rewrite Hdata, Hstep, Hext.
                 replace (pos i) with (D i - 1) by lia. ring.
           ++ destruct Hcase as [Hval Hdata].
              destruct (Z.eqb_spec (pos i + D i * value_from D pos fuel (i + 1) + 1)
                                   (D i * size_from D fuel (i + 1))) as [Hbad|_];
                [exfalso; apply Hno; nia|].
              split.
              ** rewrite Hp2i, Hval. lia.
              ** rewrite Hdata, Hstep, Hext, Hp2i.
                 replace (pos i) with (D i - 1) by lia. ring.
    + (* the loop is left *)
      cbn [steps_ dimensions_ iter_position_ nd_ position_ data_].
      assert (Hv1 : value_from D (store pos i (pos i + 1)) fuel (i + 1)
                    = value_from D pos fuel (i + 1)).
      { apply value_from_ext. intros j Hj. apply store_other. lia. }
      assert (Ho1 : offset_from e (store pos i (pos i + 1)) fuel (i + 1)
                    = offset_from e pos fuel (i + 1)).
      { apply offset_from_ext. intros j Hj. apply store_other. lia. }
      repeat split.
      * intros j Hj. apply store_other. lia.
      * destruct (Z.eq_dec j i) as [->|Hne];
          [rewrite store_same; lia | rewrite store_other by exact Hne].
        apply Hrange. exact H.
      * destruct (Z.eq_dec j i) as [->|Hne];
          [rewrite store_same; lia | rewrite store_other by exact Hne].
        apply Hrange. exact H.
      * cbn [value_from size_from offset_from].
        rewrite store_same, Hv1, Ho1.
        destruct (Z.eqb_spec (pos i + D i * value_from D pos fuel (i + 1) + 1)
                             (D i * size_from D fuel (i + 1))) as [Hbad|_];
          [exfalso; nia|].
        split; [lia|]. rewrite (Hsteps i) by lia. ring.
Qed.

End Increment.

(** *** The constructor *)

Section Constructor.

Variable sizeof : Z.
Variables junk_steps junk_dimensions junk_position : mem Z.
Variable a : ndarray.

(** The element strides [e] of the axes. *)
Variable e : mem Z.

Hypothesis Hsizeof : 0 < sizeof.
Hypothesis Hpow : (sizeof | 2 ^ 32).
Hypothesis Hnd : 0 <= nd a.
Hypothesis Hstrides : forall j, 0 <= j < nd a -> strides a j = sizeof * e j.

Lemma iterator_base_new_spec :
  let it := iterator_base_new sizeof junk_steps junk_dimensions junk_position a in
  let e' := fun i => e (nd a - 1 - i) in
  let d' := fun i => dimensions a (nd a - 1 - i) in
  data_ it = data a
  /\ nd_ (iter_position_ it) = nd a
  /\ (forall i, 0 <= i < nd a -> position_ (iter_position_ it) i = 0)
  /\ (forall i, 0 <= i < nd a ->
        dimensions_ it i = to_int (d' i)
        /\ steps_ it i = to_int (e' i - extent e' d' i)).
Proof.
  intros it e' d'. subst it. unfold iterator_base_new.
  match goal with
  | |- context [for_range 0 (nd a) ?body (junk_steps, junk_dimensions, 0)] =>
      set (s := (junk_steps, junk_dimensions, 0));
      assert (Inv : (fun i (st : mem Z * mem Z * Z) =>
                       (forall j, 0 <= j < i ->
                                  snd (fst st) j = to_int (d' j)
                                  /\ fst (fst st) j = to_int (e' j - extent e' d' j))
                       /\ snd st mod 2 ^ 32 = extent e' d' i mod 2 ^ 32
                       /\ 0 <= i) (nd a) (for_range 0 (nd a) body s));
      [ apply (for_range_inv
                 (fun i (st : mem Z * mem Z * Z) =>
                    (forall j, 0 <= j < i ->
                               snd (fst st) j = to_int (d' j)
                               /\ fst (fst st) j = to_int (e' j - extent e' d' j))
                    /\ snd st mod 2 ^ 32 = extent e' d' i mod 2 ^ 32
                    /\ 0 <= i))
      | destruct (for_range 0 (nd a) body s) as [[steps dims] cummul] ]
  end.
  - exact Hnd.
  - cbn [fst snd]. repeat split; intros; lia.
  - intros i [[steps dims] cummul] Hi (Hdone & Hc & _). cbn [fst snd] in *.
    rewrite store_same.
    replace (nd a - i - 1) with (nd a - 1 - i) by ring.
    fold (e' i) (d' i).
    assert (Hstep : to_int (to_size_t (to_size_t (strides a (nd a - 1 - i)) / sizeof
                                       - cummul))
                    = to_int (e' i - extent e' d' i)).
    { apply to_int_congr. rewrite size_t_mod.
      rewrite Hstrides by lia. fold (e' i).
      rewrite Zminus_mod, (stride_quotient (e' i) Hsizeof Hpow), Hc.
      now rewrite <- Zminus_mod. }
    repeat split.
    + destruct (Z.eq_dec j i) as [->|Hne];
        [now rewrite store_same | rewrite store_other by exact Hne].
      apply Hdone. lia.
    + destruct (Z.eq_dec j i) as [->|Hne];
        [rewrite store_same; exact Hstep | rewrite store_other by exact Hne].
      apply Hdone. lia.
    + unfold to_unsigned. rewrite Z.mod_mod by lia.
      rewrite Zplus_mod_idemp_l, Hstep.
      replace (cummul * d' i + to_int (e' i - extent e' d' i) * d' i)
        with ((cummul + to_int (e' i - extent e' d' i)) * d' i) by ring.
      rewrite <- Zmult_mod_idemp_l.
      rewrite (Zplus_mod cummul), Hc, to_int_mod, <- Zplus_mod.
      replace (extent e' d' i + (e' i - extent e' d' i)) with (e' i) by ring.
      rewrite Zmult_mod_idemp_l.
      unfold extent. destruct (Z.eqb_spec (i + 1) 0); [lia|].
      now replace (i + 1 - 1) with i by ring.
    + lia.
  - destruct Inv as (Hdone & _ & _). cbn [fst snd] in Hdone.
    cbn [data_ iter_position_ nd_ position_ dimensions_ steps_].
    repeat split.
    + intros i Hi. now apply (store_loop_at (fun _ => 0)).
    + now apply Hdone.
    + now apply Hdone.
Qed.

End Constructor.

(** *** Any number of increments *)

Section Advance.

Variable sizeof : Z.
Variables e D : mem Z.
Variable it0 : iterator_base.

Hypothesis Hn : 0 <= nd_ (iter_position_ it0).
Hypothesis HD : dimensions_ it0 = D.
Hypothesis Hsteps :
  forall j, 0 <= j < nd_ (iter_position_ it0) ->
            steps_ it0 j = e j - extent e D j.
Hypothesis Hzero :
  forall j, 0 <= j < nd_ (iter_position_ it0) ->
            position_ (iter_position_ it0) j = 0.
Hypothesis Hdims : forall j, 0 <= j < nd_ (iter_position_ it0) -> 0 < D j.

Lemma advance_spec (k : Z) :
  let n := nd_ (iter_position_ it0) in
  let total := size_from D (Z.to_nat n) 0 in
  let it := for_range 0 k (fun _ res => increment sizeof res) it0 in
  let pos := position_ (iter_position_ it) in
  0 <= k <= total ->
  nd_ (iter_position_ it) = n
  /\ (k < total ->
      (forall j, 0 <= j < n -> 0 <= pos j < D j)
      /\ value_from D pos (Z.to_nat n) 0 = k
      /\ data_ it = data_ it0 + sizeof * offset_from e pos (Z.to_nat n) 0)
  /\ (k = total ->
      (forall j, 0 <= j < n -> pos j = 0)
      /\ data_ it = data_ it0 + sizeof * extent e D n).
Proof.
  intros n total it pos Hk. subst it pos.
  set (P := fun (j : Z) (it : iterator_base) =>
              dimensions_ it = D /\ steps_ it = steps_ it0
              /\ nd_ (iter_position_ it) = n
              /\ (j < total ->
                  (forall l, 0 <= l < n ->
                             0 <= position_ (iter_position_ it) l < D l)
                  /\ value_from D (position_ (iter_position_ it)) (Z.to_nat n) 0 = j
                  /\ data_ it
                     = data_ it0
                       + sizeof * offset_from e (position_ (iter_position_ it))
                                              (Z.to_nat n) 0)
              /\ (j = total ->
                  (forall l, 0 <= l < n -> position_ (iter_position_ it) l = 0)
                  /\ data_ it = data_ it0 + sizeof * extent e D n)).
  assert (Inv : P k (for_range 0 k (fun _ res => increment sizeof res) it0)).
  { apply (for_range_inv P).
    - lia.
    - unfold P. split; [exact HD|]. split; [reflexivity|].
      split; [reflexivity|]. split.
      + intros _. split; [|split].
        * intros l Hl. pose proof (Hzero Hl) as Hz.
          pose proof (Hdims Hl) as Hd. lia.
        * apply value_from_zero. intros j Hj. apply Hzero. fold n. lia.
        * rewrite offset_from_zero; [ring|].
          intros j Hj. apply Hzero. fold n. lia.
      + intros Ht. exfalso.
        assert (0 < total); [|lia]. unfold total. apply size_from_pos.
        intros j Hj. apply Hdims. fold n. lia.
    - intros j it Hj (Hd & Hs & Hnd & Hlt & _).
      destruct Hlt as (Hin & Hval & Hdata); [lia|].
      unfold increment. rewrite Hnd.
      destruct (@increment_from_spec sizeof e D (Z.to_nat n) 0 it)
        as (Hs' & Hd' & Hnd' & _ & Hin' & Hcase).
      + lia.
      + rewrite Hnd. fold n in Hn. lia.
      + exact Hd.
      + rewrite Hnd, Hs. exact Hsteps.
      + rewrite Hnd. exact Hin.
      + rewrite Hnd in Hnd', Hin', Hcase. rewrite Hval in Hcase.
        fold total in Hcase.
        assert (E0 : extent e D 0 = 0) by reflexivity.
        unfold P. split; [exact Hd'|]. split; [now rewrite Hs'|].
        split; [exact Hnd'|]. split.
        * intros Hlt.
          destruct (Z.eqb_spec (j + 1) total) as [E|_]; [lia|].
          destruct Hcase as [Hv Hp]. split; [exact Hin'|]. split; [exact Hv|].
          rewrite Hp, Hdata, E0. ring.
        * intros Heq.
          destruct (Z.eqb_spec (j + 1) total) as [_|E]; [|contradiction].
          destruct Hcase as [Hz Hp]. split; [exact Hz|].
          rewrite Hp, Hdata, E0. ring. }
  destruct Inv as (_ & _ & Hnd & Hlt & Heq).
  split; [exact Hnd|]. split; assumption.
Qed.

End Advance.

Lemma strides_of_steps (steps D : mem Z) (j : Z) :
  0 <= j ->
  steps j = strides_of steps D (Z.to_nat j)
            - extent (fun i => strides_of steps D (Z.to_nat i)) D j.
Proof.
  intros Hj. unfold extent. destruct (Z.eqb_spec j 0) as [->|Hne].
  - cbn. ring.
  - replace (Z.to_nat j) with (S (Z.to_nat (j - 1))) by lia.
    cbn [strides_of].
    replace (Z.of_nat (S (Z.to_nat (j - 1)))) with j by lia.
    replace (Z.of_nat (Z.to_nat (j - 1))) with (j - 1) by lia. ring.
Qed.

(** *** The iterator's slots against the axes of the array *)

Section Reversed.

Variable a : ndarray.
Variables D pos ind e' : mem Z.

Hypothesis Hnd : 0 <= nd a.
Hypothesis HD : forall i, 0 <= i < nd a -> D i = dimensions a (nd a - 1 - i).
Hypothesis Hpos : forall i, 0 <= i < nd a -> pos i = ind (nd a - 1 - i).

Lemma PyArray_SIZE_size_from :
  PyArray_SIZE a = size_from D (Z.to_nat (nd a)) 0.
Proof.
  unfold PyArray_SIZE.
  assert (H : forall m : nat, Z.of_nat m <= nd a ->
                for_range 0 (Z.of_nat m) (fun i acc => acc * dimensions a i) 1
                = size_from D m (nd a - Z.of_nat m)).
  { induction m as [|m IH]; intros Hm; [reflexivity|].
    rewrite Nat2Z.inj_succ. unfold Z.succ.
    rewrite for_range_last, IH by lia. cbn [size_from].
    rewrite HD by lia.
    replace (nd a - 1 - (nd a - (Z.of_nat m + 1))) with (Z.of_nat m) by ring.
    replace (nd a - (Z.of_nat m + 1) + 1) with (nd a - Z.of_nat m) by ring.
    ring. }
  specialize (H (Z.to_nat (nd a))). rewrite Z2Nat.id in H by exact Hnd.
  rewrite H by lia. f_equal. ring.
Qed.

Lemma ravel_value_from :
  ravel a ind = value_from D pos (Z.to_nat (nd a)) 0.
Proof.
  unfold ravel.
  assert (H : forall m : nat, Z.of_nat m <= nd a ->
                for_range 0 (Z.of_nat m)
                          (fun i acc => acc * dimensions a i + ind i) 0
                = value_from D pos m (nd a - Z.of_nat m)).
  { induction m as [|m IH]; intros Hm; [reflexivity|].
    rewrite Nat2Z.inj_succ. unfold Z.succ.
    rewrite for_range_last, IH by lia. cbn [value_from].
    rewrite HD, Hpos by lia.
    replace (nd a - 1 - (nd a - (Z.of_nat m + 1))) with (Z.of_nat m) by ring.
    replace (nd a - (Z.of_nat m + 1) + 1) with (nd a - Z.of_nat m) by ring.
    ring. }
  specialize (H (Z.to_nat (nd a))). rewrite Z2Nat.id in H by exact Hnd.
  rewrite H by lia. f_equal. ring.
Qed.

Lemma PyArray_GetPtr_offset_from (sizeof : Z) :
  (forall i, 0 <= i < nd a -> strides a (nd a - 1 - i) = sizeof * e' i) ->
  PyArray_GetPtr a ind
  = data a + sizeof * offset_from e' pos (Z.to_nat (nd a)) 0.
Proof.
  intros He. unfold PyArray_GetPtr.
  assert (H : forall m : nat, Z.of_nat m <= nd a ->
                for_range 0 (Z.of_nat m)
                          (fun i dptr => dptr + ind i * strides a i) (data a)
                = data a + sizeof * offset_from e' pos m (nd a - Z.of_nat m)).
  { induction m as [|m IH]; intros Hm; [cbn; ring|].
    rewrite Nat2Z.inj_succ. unfold Z.succ.
    rewrite for_range_last, IH by lia. cbn [offset_from].
    rewrite Hpos by lia.
    replace (nd a - 1 - (nd a - (Z.of_nat m + 1))) with (Z.of_nat m) by ring.
    replace (nd a - (Z.of_nat m + 1) + 1) with (nd a - Z.of_nat m) by ring.
    assert (Es : strides a (Z.of_nat m)
                 = sizeof * e' (nd a - (Z.of_nat m + 1))).
    { rewrite <- He by lia. f_equal. ring. }
    rewrite Es. ring. }
  specialize (H (Z.to_nat (nd a))). rewrite Z2Nat.id in H by exact Hnd.
  rewrite H by lia. do 3 f_equal. ring.
Qed.

End Reversed.

Lemma size_from_nonneg (D : mem Z) (fuel : nat) (i : Z) :
  (forall j, i <= j < i + Z.of_nat fuel -> 0 <= D j) ->
  0 <= size_from D fuel i.
Proof.
  revert i. induction fuel as [|fuel IH]; intros i H; cbn [size_from]; [lia|].
  apply Z.mul_nonneg_nonneg; [apply H; lia|].
  apply IH. intros j Hj. apply H. lia.
Qed.

(** In a layout without gaps the offset of a counter is its value. *)
Lemma offset_from_contiguous (e D pos : mem Z) (fuel : nat) (i : Z) :
  (forall j, i <= j -> j + 1 < i + Z.of_nat fuel -> e (j + 1) = e j * D j) ->
  offset_from e pos fuel i = e i * value_from D pos fuel i.
Proof.
  revert i. induction fuel as [|fuel IH]; intros i H;
    cbn [offset_from value_from]; [ring|].
  rewrite IH by (intros j Hj Hj'; apply H; lia).
  destruct fuel as [|fuel]; [cbn [value_from]; ring|].
  rewrite (H i) by lia. ring.
Qed.

(** The dimensions and the counters after the constructor, whatever the
    strides. *)
Lemma iterator_base_new_dimensions (sizeof : Z)
    (junk_steps junk_dimensions junk_position : mem Z) (a : ndarray) :
  0 <= nd a ->
  nd_ (iter_position_
         (iterator_base_new sizeof junk_steps junk_dimensions junk_position a))
  = nd a
  /\ (forall i, 0 <= i < nd a ->
        position_ (iter_position_
                     (iterator_base_new sizeof junk_steps junk_dimensions
                                        junk_position a)) i = 0
        /\ dimensions_ (iterator_base_new sizeof junk_steps junk_dimensions
                                          junk_position a) i
           = to_int (dimensions a (nd a - 1 - i))).
Proof.
  intros Hnd. unfold iterator_base_new.
  match goal with
  | |- context [for_range 0 (nd a) ?body (junk_steps, junk_dimensions, 0)] =>
      set (s := (junk_steps, junk_dimensions, 0));
      assert (Inv : (fun i (st : mem Z * mem Z * Z) =>
                       forall j, 0 <= j < i ->
                                 snd (fst st) j
                                 = to_int (dimensions a (nd a - 1 - j)))
                      (nd a) (for_range 0 (nd a) body s));
      [ apply (for_range_inv
                 (fun i (st : mem Z * mem Z * Z) =>
                    forall j, 0 <= j < i ->
                              snd (fst st) j
                              = to_int (dimensions a (nd a - 1 - j))))
      | destruct (for_range 0 (nd a) body s) as [[steps dims] cummul] ]
  end.
  - exact Hnd.
  - intros; lia.
  - intros i [[steps dims] cummul] Hi Hdone j Hj. cbn [fst snd] in *.
    destruct (Z.eq_dec j i) as [->|Hne].
    + rewrite store_same. f_equal. f_equal. ring.
    + rewrite store_other by exact Hne. apply Hdone. lia.
  - cbn [fst snd] in Inv. cbn [iter_position_ nd_ position_ dimensions_].
    split; [reflexivity|]. intros i Hi. split.
    + now apply (store_loop_at (fun _ => 0)).
    + now apply Inv.
Qed.

Lemma position_eq_zero (p q : position) :
  (forall j, 0 <= j < nd_ p -> position_ p j = 0 /\ position_ q j = 0) ->
  position_eq p q = true.
Proof.
  intros H. unfold position_eq. apply forallb_forall. intros i Hi.
  apply in_seq in Hi. destruct (H (Z.of_nat i)) as [-> ->]; [lia|reflexivity].
Qed.

(** The iterator after [k] increments, for an array without
    truncation. *)
Lemma advance_regular (sizeof : Z)
    (junk_steps junk_dimensions junk_position : mem Z) (a : ndarray)
    (e : mem Z) (k : Z) :
  regular sizeof a e -> 0 <= k < PyArray_SIZE a ->
  let it := advance sizeof junk_steps junk_dimensions junk_position a k in
  let pos := position_ (iter_position_ it) in
  let D := fun i => dimensions a (nd a - 1 - i) in
  let e' := fun i => e (nd a - 1 - i) in
  nd_ (iter_position_ it) = nd a
  /\ (forall i, 0 <= i < nd a -> 0 <= pos i < D i)
  /\ value_from D pos (Z.to_nat (nd a)) 0 = k
  /\ data_ it = data a + sizeof * offset_from e' pos (Z.to_nat (nd a)) 0.
Proof.
  intros (Hs & Hpow & Hnd & Hreg) Hk it pos D e'. subst it pos.
  unfold advance, begin.
  set (it0 := iterator_base_new sizeof junk_steps junk_dimensions
                                junk_position a).
  destruct (@iterator_base_new_spec sizeof junk_steps junk_dimensions
              junk_position a e Hs Hpow Hnd)
    as (Hdata & Hn0 & Hzero & Hnew).
  { intros j Hj. now apply Hreg. }
  fold it0 in Hdata, Hn0, Hzero, Hnew. cbv beta zeta in Hnew.
  assert (HD : forall i, 0 <= i < nd a -> dimensions_ it0 i = D i).
  { intros i Hi. destruct (Hnew i Hi) as [-> _]. unfold D. apply to_int_small.
    destruct (Hreg (nd a - 1 - i)) as (_ & Hr & _); [lia|]. lia. }
  assert (Hext : forall i, 0 <= i < nd a ->
                   extent e' (dimensions_ it0) i = extent e' D i).
  { intros i Hi. unfold extent. destruct (Z.eqb_spec i 0); [reflexivity|].
    now rewrite HD by lia. }
  assert (Hsteps : forall i, 0 <= i < nd_ (iter_position_ it0) ->
                     steps_ it0 i = e' i - extent e' (dimensions_ it0) i).
  { rewrite Hn0. intros i Hi. destruct (Hnew i Hi) as [_ ->].
    rewrite Hext by exact Hi. apply to_int_small.
    destruct (Hreg (nd a - 1 - i)) as (_ & _ & Hr); [lia|].
    unfold extent, e', D. revert Hr.
    destruct (Z.eqb_spec i 0) as [E|Hne];
      destruct (Z.eqb_spec (nd a - 1 - i) (nd a - 1)); try lia.
    replace (nd a - 1 - (i - 1)) with (nd a - 1 - i + 1) by ring.
    intros Hr. exact Hr. }
  assert (Hsize : PyArray_SIZE a
                  = size_from (dimensions_ it0) (Z.to_nat (nd a)) 0).
  { apply PyArray_SIZE_size_from; [exact Hnd|].
    intros i Hi. now rewrite HD. }
  assert (Hpos0 : forall j, 0 <= j < nd_ (iter_position_ it0) ->
                    0 < dimensions_ it0 j).
  { rewrite Hn0. intros j Hj.
    apply (@size_from_factors (dimensions_ it0) (Z.to_nat (nd a)) 0).
    - intros l Hl. rewrite HD by lia.
      destruct (Hreg (nd a - 1 - l)) as (_ & Hr & _); [lia|]. unfold D. lia.
    - rewrite <- Hsize. lia.
    - lia. }
  destruct (@advance_spec sizeof e' (dimensions_ it0) it0) with (k := k)
    as (Hndk & Hlt & _).
  - rewrite Hn0. exact Hnd.
  - reflexivity.
  - exact Hsteps.
  - rewrite Hn0. exact Hzero.
  - exact Hpos0.
  - rewrite Hn0, <- Hsize. lia.
  - rewrite Hn0 in Hndk, Hlt. rewrite <- Hsize in Hlt.
    destruct Hlt as (Hin & Hval & Hp); [lia|].
    split; [exact Hndk|]. split; [|split].
    + intros i Hi. rewrite <- HD by exact Hi. now apply Hin.
    + etransitivity; [|exact Hval]. apply value_from_ext_dims. intros j Hj.
      symmetry. apply HD. lia.
    + rewrite Hp, Hdata. reflexivity.
Qed.

End NumpyFacts.

(** ** Positions and iterators: properties *)

Module NumpyExtras.
Import Loops Mem Numpy LoopFacts MemFacts WaveletFacts NumpyFacts.

Local Open Scope Z_scope.

(** X13.  The constructor of the iterator stores, for slot [i], the
    dimension of axis [nd-1-i] and the step from the end of one run
    along the previous slot to the next element along this one: the
    element stride of the axis less the extent of the axis after it,
    both converted to [int].  Neither the wrap-around of the unsigned
    accumulator nor the unsigned division changes the outcome, for
    strides of either sign. *)
Theorem iterator_constructor_steps
    (sizeof : Z) (junk_steps junk_dimensions junk_position : mem Z)
    (a : ndarray) (e : mem Z) (i : Z) :
  0 < sizeof -> (sizeof | 2 ^ 32) ->
  (forall j, 0 <= j < nd a -> strides a j = sizeof * e j) ->
  0 <= i < nd a ->
  dimensions_ (begin sizeof junk_steps junk_dimensions junk_position a) i
  = to_int (dimensions a (nd a - 1 - i))
  /\ steps_ (begin sizeof junk_steps junk_dimensions junk_position a) i
     = to_int (e (nd a - 1 - i)
               - (if i =? 0 then 0
                  else e (nd a - i) * dimensions a (nd a - i))).
Proof.
  intros Hs Hpow He Hi.
  destruct (@iterator_base_new_spec sizeof junk_steps junk_dimensions
              junk_position a e Hs Hpow ltac:(lia) He)
    as (_ & _ & _ & Hnew).
  cbv beta zeta in Hnew. destruct (Hnew i Hi) as [Hd Hst].
  unfold begin. split; [exact Hd|]. rewrite Hst. f_equal. f_equal.
  unfold extent. destruct (Z.eqb_spec i 0); [reflexivity|].
  now replace (nd a - 1 - (i - 1)) with (nd a - i) by ring.
Qed.

Lemma iterator_constructor_steps_witness :
  dimensions_ (begin 8 (fun _ => 0) (fun _ => 0) (fun _ => 0) sample_transposed) 1
  = to_int (dimensions sample_transposed (nd sample_transposed - 1 - 1))
  /\ steps_ (begin 8 (fun _ => 0) (fun _ => 0) (fun _ => 0) sample_transposed) 1
     = to_int (of_list 0 [1; 3] (nd sample_transposed - 1 - 1)
               - (if 1 =? 0 then 0
                  else of_list 0 [1; 3] (nd sample_transposed - 1)
                       * dimensions sample_transposed (nd sample_transposed - 1))).
Proof.
  apply (@iterator_constructor_steps 8 (fun _ => 0) (fun _ => 0) (fun _ => 0)
           sample_transposed (of_list 0 [1; 3]) 1).
  - lia.
  - exists (2 ^ 29). reflexivity.
  - intros j Hj. change (nd sample_transposed) with 2 in Hj.
    assert (Hc : j = 0 \/ j = 1) by lia.
    destruct Hc as [-> | ->]; reflexivity.
  - change (nd sample_transposed) with 2. lia.
Defined.

Lemma iterator_position_at (it : iterator_base) (j : Z) :
  0 <= j < nd_ (iter_position_ it) ->
  position_ (iterator_position it) j
  = position_ (iter_position_ it) (nd_ (iter_position_ it) - 1 - j).
Proof.
  intros Hj. unfold iterator_position. cbn [position_].
  destruct (Z.leb_spec 0 j); [|lia].
  destruct (Z.ltb_spec j (nd_ (iter_position_ it))); [reflexivity|lia].
Qed.

(** X14.  After [k] increments from [begin()], for [k] less than the
    number of elements, the iterator is at the [k]-th element in
    row-major order: [position()] is a valid position of the array, its
    row-major index is [k], and the pointer is the address of the
    element at that position. *)
Theorem iterator_visits_row_major
    (sizeof : Z) (junk_steps junk_dimensions junk_position : mem Z)
    (a : ndarray) (e : mem Z) (k : Z) :
  regular sizeof a e -> 0 <= k < PyArray_SIZE a ->
  validposition a
    (iterator_position
       (advance sizeof junk_steps junk_dimensions junk_position a k)) = true
  /\ ravel a
       (position_
          (iterator_position
             (advance sizeof junk_steps junk_dimensions junk_position a k)))
     = k
  /\ data_ (advance sizeof junk_steps junk_dimensions junk_position a k)
     = PyArray_GetPtr a
         (position_
            (iterator_position
               (advance sizeof junk_steps junk_dimensions junk_position a k))).
Proof.
  intros Hreg Hk.
  destruct (advance_regular junk_steps junk_dimensions junk_position Hreg Hk)
    as (Hn & Hin & Hval & Hdata).
  cbv beta zeta in Hin, Hval, Hdata.
  destruct Hreg as (Hs & Hpow & Hnd & Hreg).
  set (it := advance sizeof junk_steps junk_dimensions junk_position a k) in *.
  assert (Hrev : forall i, 0 <= i < nd a ->
                   position_ (iter_position_ it) i
                   = position_ (iterator_position it) (nd a - 1 - i)).
  { intros i Hi. rewrite iterator_position_at by (rewrite Hn; lia).
    rewrite Hn. f_equal. ring. }
  split; [|split].
  - unfold validposition, ndims. cbn [iterator_position nd_]. rewrite Hn.
    rewrite Z.eqb_refl. cbn [negb]. apply forallb_forall. intros i Hi.
    apply in_seq in Hi.
    rewrite iterator_position_at by (rewrite Hn; lia). rewrite Hn.
    destruct (Hin (nd a - 1 - Z.of_nat i)) as [H0 H1]; [lia|].
    replace (nd a - 1 - (nd a - 1 - Z.of_nat i)) with (Z.of_nat i) in H1 by ring.
    destruct (Hreg (Z.of_nat i)) as (_ & Hd & _); [lia|].
    unfold dim, to_unsigned. rewrite Z.mod_small by lia.
    destruct (Z.ltb_spec (position_ (iter_position_ it) (nd a - 1 - Z.of_nat i)) 0);
      [lia|].
    destruct (Z.geb_spec (position_ (iter_position_ it) (nd a - 1 - Z.of_nat i))
                         (dimensions a (Z.of_nat i))); [lia|reflexivity].
  - rewrite <- Hval.
    apply (@ravel_value_from a (fun i => dimensions a (nd a - 1 - i))
             (position_ (iter_position_ it))
             (position_ (iterator_position it)) Hnd).
    + reflexivity.
    + exact Hrev.
  - rewrite Hdata. symmetry.
    apply (@PyArray_GetPtr_offset_from a (position_ (iter_position_ it))
             (position_ (iterator_position it))
             (fun i => e (nd a - 1 - i)) Hnd Hrev sizeof).
    intros i Hi. now apply Hreg; lia.
Qed.

Lemma sample_transposed_regular : regular 8 sample_transposed (of_list 0 [1; 3]).
Proof.
  split; [lia|]. split; [exists (2 ^ 29); reflexivity|].
  split; [discriminate|]. intros j Hj. change (nd sample_transposed) with 2 in Hj.
  assert (Hc : j = 0 \/ j = 1) by lia.
  destruct Hc as [-> | ->]; vm_compute; repeat split; discriminate.
Qed.

Lemma iterator_visits_row_major_witness :
  validposition sample_transposed
    (iterator_position
       (advance 8 (fun _ => 0) (fun _ => 0) (fun _ => 0) sample_transposed 3))
  = true
  /\ ravel sample_transposed
       (position_
          (iterator_position
             (advance 8 (fun _ => 0) (fun _ => 0) (fun _ => 0)
                      sample_transposed 3)))
     = 3
  /\ data_ (advance 8 (fun _ => 0) (fun _ => 0) (fun _ => 0) sample_transposed 3)
     = PyArray_GetPtr sample_transposed
         (position_
            (iterator_position
               (advance 8 (fun _ => 0) (fun _ => 0) (fun _ => 0)
                        sample_transposed 3))).
Proof.
  apply (@iterator_visits_row_major 8 (fun _ => 0) (fun _ => 0) (fun _ => 0)
           sample_transposed (of_list 0 [1; 3]) 3).
  - exact sample_transposed_regular.
  - vm_compute. split; [discriminate|reflexivity].
Defined.

(** X15.  [end()] compares equal to [begin()]: after [size()]
    increments every counter is back at zero, and [operator ==]
    compares the counters only. *)
Theorem iterator_end_equals_begin
    (sizeof : Z) (junk_steps junk_dimensions junk_position : mem Z)
    (a : ndarray) :
  0 <= nd a ->
  (forall j, 0 <= j < nd a -> 0 <= dimensions a j < 2 ^ 31) ->
  PyArray_SIZE a < 2 ^ 32 ->
  iterator_eq (end_ sizeof junk_steps junk_dimensions junk_position a)
              (begin sizeof junk_steps junk_dimensions junk_position a) = true
  /\ iterator_eq (begin sizeof junk_steps junk_dimensions junk_position a)
                 (end_ sizeof junk_steps junk_dimensions junk_position a) = true.
Proof.
  intros Hnd Hdims Hsmall.
  destruct (iterator_base_new_dimensions sizeof junk_steps junk_dimensions
              junk_position a Hnd) as (Hn0 & Hnew).
  unfold end_, size, begin.
  set (it0 := iterator_base_new sizeof junk_steps junk_dimensions
                                junk_position a) in *.
  assert (HD : forall i, 0 <= i < nd a ->
                 dimensions_ it0 i = dimensions a (nd a - 1 - i)).
  { intros i Hi. destruct (Hnew i Hi) as [_ ->]. apply to_int_small.
    destruct (Hdims (nd a - 1 - i)); lia. }
  assert (Hnonneg : forall j, 0 <= j < 0 + Z.of_nat (Z.to_nat (nd a)) ->
                      0 <= dimensions_ it0 j).
  { intros j Hj. rewrite HD by lia. destruct (Hdims (nd a - 1 - j)); lia. }
  assert (Hsize : PyArray_SIZE a
                  = size_from (dimensions_ it0) (Z.to_nat (nd a)) 0).
  { apply PyArray_SIZE_size_from; assumption. }
  pose proof (@size_from_nonneg (dimensions_ it0) (Z.to_nat (nd a)) 0 Hnonneg)
    as Htotal.
  rewrite <- Hsize in Htotal.
  unfold to_unsigned. rewrite Z.mod_small by lia.
  assert (Hzero0 : forall j, 0 <= j < nd_ (iter_position_ it0) ->
                     position_ (iter_position_ it0) j = 0).
  { rewrite Hn0. intros j Hj. now apply Hnew. }
  destruct (Z.eq_dec (PyArray_SIZE a) 0) as [E|Hne].
  - rewrite E, for_range_empty by lia. unfold iterator_eq.
    split; apply position_eq_zero; intros j Hj; split; now apply Hzero0.
  - assert (Hpos : forall j, 0 <= j < nd_ (iter_position_ it0) ->
                     0 < dimensions_ it0 j).
    { rewrite Hn0. intros j Hj.
      apply (@size_from_factors (dimensions_ it0) (Z.to_nat (nd a)) 0);
        [exact Hnonneg | rewrite <- Hsize; lia | lia]. }
    destruct (@advance_spec sizeof
                (fun i => strides_of (steps_ it0) (dimensions_ it0) (Z.to_nat i))
                (dimensions_ it0) it0) with (k := PyArray_SIZE a)
      as (Hnk & _ & Heq).
    + rewrite Hn0. exact Hnd.
    + reflexivity.
    + intros j Hj. apply strides_of_steps. lia.
    + exact Hzero0.
    + exact Hpos.
    + rewrite Hn0, <- Hsize. lia.
    + rewrite Hn0, <- Hsize in Heq. destruct (Heq eq_refl) as [Hz _].
      unfold iterator_eq.
      split; apply position_eq_zero; intros j Hj; split.
      * apply Hz. rewrite Hnk, Hn0 in Hj. exact Hj.
      * apply Hzero0. rewrite Hnk in Hj. exact Hj.
      * now apply Hzero0.
      * apply Hz. rewrite Hn0 in Hj. exact Hj.
Qed.

Lemma iterator_end_equals_begin_witness :
  iterator_eq (end_ 8 (fun _ => 0) (fun _ => 0) (fun _ => 0) sample_ndarray)
              (begin 8 (fun _ => 0) (fun _ => 0) (fun _ => 0) sample_ndarray)
  = true
  /\ iterator_eq (begin 8 (fun _ => 0) (fun _ => 0) (fun _ => 0) sample_ndarray)
                 (end_ 8 (fun _ => 0) (fun _ => 0) (fun _ => 0) sample_ndarray)
     = true.
Proof.
  apply (@iterator_end_equals_begin 8 (fun _ => 0) (fun _ => 0) (fun _ => 0)
           sample_ndarray).
  - discriminate.
  - intros j Hj. change (nd sample_ndarray) with 2 in Hj.
    assert (Hc : j = 0 \/ j = 1) by lia.
    destruct Hc as [-> | ->]; vm_compute; repeat split; discriminate.
  - reflexivity.
Defined.

(** X16.  On an array in row-major layout without gaps the steps of the
    iterator are [1, 0, ..., 0], and after [k] increments the pointer is
    [k] elements beyond the start of the data. *)
Theorem contiguous_iterator_is_linear
    (sizeof : Z) (junk_steps junk_dimensions junk_position : mem Z)
    (a : ndarray) (e : mem Z) (k : Z) :
  regular sizeof a e -> c_contiguous a e -> 0 <= k < PyArray_SIZE a ->
  data_ (advance sizeof junk_steps junk_dimensions junk_position a k)
  = data a + sizeof * k
  /\ forall i, 0 <= i < nd a ->
       steps_ (begin sizeof junk_steps junk_dimensions junk_position a) i
       = if i =? 0 then 1 else 0.
Proof.
  intros Hreg Hcont Hk.
  destruct (advance_regular junk_steps junk_dimensions junk_position Hreg Hk)
    as (Hn & Hin & Hval & Hdata).
  cbv beta zeta in Hin, Hval, Hdata.
  destruct Hreg as (Hs & Hpow & Hnd & Hreg).
  split.
  - rewrite Hdata. f_equal. f_equal.
    rewrite (@offset_from_contiguous (fun i => e (nd a - 1 - i))
               (fun i => dimensions a (nd a - 1 - i))).
    + rewrite Hval. cbv beta.
      destruct (Z.eq_dec (nd a) 0) as [E|Hne].
      * rewrite E in Hval. cbn in Hval. rewrite <- Hval. ring.
      * rewrite (Hcont (nd a - 1 - 0)) by lia.
        replace (nd a - 1 - 0) with (nd a - 1) by ring.
        rewrite Z.eqb_refl. ring.
    + intros j Hj Hj'. cbv beta.
      rewrite (Hcont (nd a - 1 - (j + 1))) by lia.
      destruct (Z.eqb_spec (nd a - 1 - (j + 1)) (nd a - 1)); [lia|].
      now replace (nd a - 1 - (j + 1) + 1) with (nd a - 1 - j) by ring.
  - intros i Hi.
    destruct (@iterator_base_new_spec sizeof junk_steps junk_dimensions
                junk_position a e Hs Hpow Hnd) as (_ & _ & _ & Hnew).
    { intros j Hj. now apply Hreg. }
    cbv beta zeta in Hnew. destruct (Hnew i Hi) as [_ Hst].
    unfold begin. rewrite Hst. unfold extent.
    rewrite (Hcont (nd a - 1 - i)) by lia.
    destruct (Z.eqb_spec i 0) as [->|Hne].
    + replace (nd a - 1 - 0) with (nd a - 1) by ring.
      rewrite Z.eqb_refl. reflexivity.
    + destruct (Z.eqb_spec (nd a - 1 - i) (nd a - 1)); [lia|].
      replace (nd a - 1 - (i - 1)) with (nd a - 1 - i + 1) by ring.
      rewrite Z.sub_diag. reflexivity.
Qed.

Lemma sample_ndarray_regular : regular 8 sample_ndarray (of_list 0 [3; 1]).
Proof.
  split; [lia|]. split; [exists (2 ^ 29); reflexivity|].
  split; [discriminate|]. intros j Hj. change (nd sample_ndarray) with 2 in Hj.
  assert (Hc : j = 0 \/ j = 1) by lia.
  destruct Hc as [-> | ->]; vm_compute; repeat split; discriminate.
Qed.

Lemma sample_ndarray_contiguous : c_contiguous sample_ndarray (of_list 0 [3; 1]).
Proof.
  intros j Hj. change (nd sample_ndarray) with 2 in Hj.
  assert (Hc : j = 0 \/ j = 1) by lia.
  destruct Hc as [-> | ->]; reflexivity.
Qed.

Lemma contiguous_iterator_is_linear_witness :
  data_ (advance 8 (fun _ => 0) (fun _ => 0) (fun _ => 0) sample_ndarray 4)
  = data sample_ndarray + 8 * 4
  /\ forall i, 0 <= i < nd sample_ndarray ->
       steps_ (begin 8 (fun _ => 0) (fun _ => 0) (fun _ => 0) sample_ndarray) i
       = if i =? 0 then 1 else 0.
Proof.
  apply (@contiguous_iterator_is_linear 8 (fun _ => 0) (fun _ => 0)
           (fun _ => 0) sample_ndarray (of_list 0 [3; 1]) 4).
  - exact sample_ndarray_regular.
  - exact sample_ndarray_contiguous.
  - vm_compute. split; [discriminate|reflexivity].
Defined.

(** *** Arithmetic on positions *)

Lemma to_intp_small (x : Z) : - 2 ^ 63 <= x < 2 ^ 63 -> to_intp x = x.
Proof. intros H. unfold to_intp. rewrite Z.mod_small; lia. Qed.

Lemma to_intp_congr (x y : Z) :
  x mod 2 ^ 64 = y mod 2 ^ 64 -> to_intp x = to_intp y.
Proof.
  intros H. unfold to_intp.
  rewrite <- (Zplus_mod_idemp_l x), <- (Zplus_mod_idemp_l y), H. reflexivity.
Qed.

Lemma to_intp_mod (x : Z) : to_intp x mod 2 ^ 64 = x mod 2 ^ 64.
Proof.
  unfold to_intp.
  rewrite (Z.mod_eq (x + 2 ^ 63) (2 ^ 64)) by lia.
  replace (x + 2 ^ 63 - 2 ^ 64 * ((x + 2 ^ 63) / 2 ^ 64) - 2 ^ 63)
    with (x + (- ((x + 2 ^ 63) / 2 ^ 64)) * 2 ^ 64) by ring.
  apply Z_mod_plus_full.
Qed.

(** Adding and subtracting the same entry, with wrap-around in
    between. *)
Lemma to_intp_add_sub (x y : Z) :
  - 2 ^ 63 <= x < 2 ^ 63 ->
  to_intp (to_intp (x + y) - y) = x /\ to_intp (to_intp (x - y) + y) = x.
Proof.
  intros Hx. split.
  - rewrite <- (to_intp_small Hx) at 2. apply to_intp_congr.
    rewrite Zminus_mod, to_intp_mod, <- Zminus_mod. f_equal. ring.
  - rewrite <- (to_intp_small Hx) at 2. apply to_intp_congr.
    rewrite Zplus_mod, to_intp_mod, <- Zplus_mod. f_equal. ring.
Qed.

(** The loop of the two operators, for the operation [op] on
    entries. *)
Lemma position_loop_spec (op : Z -> Z -> Z) (a b : position) :
  let r := for_range 0 (nd_ a)
             (fun i res =>
                mkPosition (nd_ res)
                           (store (position_ res) i
                                  (op (position_ res i) (position_ b i))))
             a in
  nd_ r = nd_ a
  /\ forall j, position_ r j
               = if (0 <=? j) && (j <? nd_ a)
                 then op (position_ a j) (position_ b j) else position_ a j.
Proof.
  cbn zeta. destruct (Z_lt_ge_dec (nd_ a) 0) as [Hneg|Hpos].
  { rewrite for_range_empty by lia. split; [reflexivity|]. intros j.
    destruct (Z.leb_spec 0 j), (Z.ltb_spec j (nd_ a)); cbn [andb];
      try reflexivity; lia. }
  loop_invariant
    (fun i (res : position) =>
       nd_ res = nd_ a
       /\ (forall j, position_ res j
                     = if (0 <=? j) && (j <? i)
                       then op (position_ a j) (position_ b j)
                       else position_ a j)
       /\ 0 <= i).
  - lia.
  - split; [reflexivity|]. split; [|lia]. intros j.
    destruct (Z.leb_spec 0 j), (Z.ltb_spec j 0); cbn [andb];
      try reflexivity; lia.
  - intros i res Hi (Hn & Hres & _). cbn [nd_ position_].
    split; [exact Hn|]. split; [|lia]. intros j.
    destruct (Z.eq_dec j i) as [->|Hne].
    + rewrite store_same, Hres.
      destruct (Z.leb_spec 0 i), (Z.ltb_spec i i), (Z.ltb_spec i (i + 1));
        cbn [andb]; try reflexivity; lia.
    + rewrite store_other by exact Hne. rewrite Hres.
      destruct (Z.leb_spec 0 j), (Z.ltb_spec j i), (Z.ltb_spec j (i + 1));
        cbn [andb]; try reflexivity; lia.
  - destruct Inv as (Hn & Hres & _). split; assumption.
Qed.

Lemma position_add_spec (a b : position) :
  nd_ a = nd_ b ->
  exists s, position_add a b = Some s /\ nd_ s = nd_ a
            /\ forall j, position_ s j
                         = if (0 <=? j) && (j <? nd_ a)
                           then to_intp (position_ a j + position_ b j)
                           else position_ a j.
Proof.
  intros E. unfold position_add. rewrite E, Z.eqb_refl. cbn [negb].
  rewrite <- E. eexists. split; [reflexivity|].
  exact (position_loop_spec (fun x y => to_intp (x + y)) a b).
Qed.

Lemma position_sub_spec (a b : position) :
  nd_ a = nd_ b ->
  exists s, position_sub a b = Some s /\ nd_ s = nd_ a
            /\ forall j, position_ s j
                         = if (0 <=? j) && (j <? nd_ a)
                           then to_intp (position_ a j - position_ b j)
                           else position_ a j.
Proof.
  intros E. unfold position_sub. rewrite E, Z.eqb_refl. cbn [negb].
  rewrite <- E. eexists. split; [reflexivity|].
  exact (position_loop_spec (fun x y => to_intp (x - y)) a b).
Qed.

Lemma position_eq_same (p q : position) :
  (forall j, position_ p j = position_ q j) -> position_eq p q = true.
Proof.
  intros H. unfold position_eq. apply forallb_forall. intros i _.
  rewrite H. apply Z.eqb_refl.
Qed.

(** X17.  For two positions of the same number of dimensions (what the
    operators assert) and entries of [a] in the range of [npy_intp],
    adding [b] and subtracting it again, in either order, returns a
    position with the number of dimensions and the entries of [a], also
    where the sum or the difference in between leaves the range and
    wraps around; the result compares equal to [a] under
    [operator ==]. *)
Theorem position_add_sub_round_trip (a b : position) :
  nd_ a = nd_ b ->
  (forall j, 0 <= j < nd_ a -> - 2 ^ 63 <= position_ a j < 2 ^ 63) ->
  (exists s r, position_add a b = Some s /\ position_sub s b = Some r
               /\ nd_ r = nd_ a
               /\ (forall j, position_ r j = position_ a j)
               /\ position_eq r a = true)
  /\ (exists s r, position_sub a b = Some s /\ position_add s b = Some r
                  /\ nd_ r = nd_ a
                  /\ (forall j, position_ r j = position_ a j)
                  /\ position_eq r a = true).
Proof.
  intros E Hrange. split.
  - destruct (position_add_spec a b E) as (s & Es & Hns & Hs).
    destruct (position_sub_spec s b) as (r & Er & Hnr & Hr); [congruence|].
    assert (Hall : forall j, position_ r j = position_ a j).
    { intros j. rewrite Hr, Hs, Hns.
      destruct (Z.leb_spec 0 j), (Z.ltb_spec j (nd_ a)); cbn [andb];
        try reflexivity.
      apply to_intp_add_sub. apply Hrange. lia. }
    exists s, r. repeat split; try assumption; try congruence.
    now apply position_eq_same.
  - destruct (position_sub_spec a b E) as (s & Es & Hns & Hs).
    destruct (position_add_spec s b) as (r & Er & Hnr & Hr); [congruence|].
    assert (Hall : forall j, position_ r j = position_ a j).
    { intros j. rewrite Hr, Hs, Hns.
      destruct (Z.leb_spec 0 j), (Z.ltb_spec j (nd_ a)); cbn [andb];
        try reflexivity.
      apply to_intp_add_sub. apply Hrange. lia. }
    exists s, r. repeat split; try assumption; try congruence.
    now apply position_eq_same.
Qed.

Lemma sample_position_range (j : Z) :
  0 <= j < nd_ sample_position ->
  - 2 ^ 63 <= position_ sample_position j < 2 ^ 63.
Proof.
  intros Hj. change (nd_ sample_position) with 2 in Hj.
  assert (Hc : j = 0 \/ j = 1) by lia.
  destruct Hc as [-> | ->]; vm_compute; repeat split; discriminate.
Qed.

Lemma position_add_sub_round_trip_witness :
  (exists s r, position_add sample_position sample_offset = Some s
               /\ position_sub s sample_offset = Some r
               /\ nd_ r = nd_ sample_position
               /\ (forall j, position_ r j = position_ sample_position j)
               /\ position_eq r sample_position = true)
  /\ (exists s r, position_sub sample_position sample_offset = Some s
                  /\ position_add s sample_offset = Some r
                  /\ nd_ r = nd_ sample_position
                  /\ (forall j, position_ r j = position_ sample_position j)
                  /\ position_eq r sample_position = true).
Proof.
  apply (@position_add_sub_round_trip sample_position sample_offset).
  - reflexivity.
  - exact sample_position_range.
Defined.

(** The sum in the first slot of the sample leaves the range and wraps
    around to the smallest [npy_intp]. *)
Example position_add_wraps :
  option_map (fun s => position_ s 0) (position_add sample_position sample_offset)
  = Some (- 2 ^ 63).
Proof. reflexivity. Qed.

End NumpyExtras.
